(** * Emergency dispatch: step-observable Dijkstra search and the
      two-ambulance dispatch optimizer

    Shallow embedding of [animation.py] / [upgrade.py] (the generator
    [dijkstra_generator]) and of [multiemergency.py] (the distance table,
    the partition-and-order optimizer and the route builder).

    Modelling conventions.
    - Nodes are OSM identifiers, i.e. integers ([Z]).
    - Edge lengths and distances are Python floats in the source; they are
      modelled as exact integers ([Z], think of a fixed unit), and
      [float("inf")] as the extra value [Infinity].  Rounding is not
      modelled.
    - A networkx graph is its adjacency structure: a finite map from a node
      to the insertion-ordered list of its neighbours, each with the edge
      data [G.get_edge_data] returns for it.
    - A generator is modelled by the complete trace it produces when it is
      pulled to the end: the list of yielded events, how it stopped, and the
      search state at that moment. *)

From Stdlib Require Import ZArith List Lia Permutation.
From stdpp Require Import base gmap sets list.

(** ** Graphs *)

Abbreviation node := Z (only parsing).

(** What [G.get_edge_data(u, v)] returns: for a MultiGraph a dict from edge
    keys to attribute dicts, for a simple Graph the attribute dict itself.
    Of an attribute dict only the ['length'] entry is ever read. *)
Inductive edge_data :=
| Keyed (m : gmap Z (option Z))
| Plain (a : option Z).

(** The [default={}] argument of [get_edge_data]. *)
Definition empty_dict : edge_data := Keyed ∅.

Abbreviation Graph := (gmap Z (list (Z * edge_data))) (only parsing).

Fixpoint assoc {A} (v : Z) (l : list (Z * A)) : option A :=
  match l with
  | [] => None
  | (k, a) :: l' => if decide (k = v) then Some a else assoc v l'
  end.

(** [G.neighbors(u)]; [None] stands for the [NetworkXError] raised when [u]
    is not a node of [G]. *)
Definition neighbors (G : Graph) (u : node) : option (list node) :=
  (fun l => l.*1) <$> G !! u.

(** [G.get_edge_data(u, v)]; [None] when there is no such edge. *)
Definition get_edge_data (G : Graph) (u v : node) : option edge_data :=
  G !! u ≫= assoc v.

Definition adjacent (G : Graph) (u v : node) : Prop :=
  ∃ nbrs, neighbors G u = Some nbrs ∧ v ∈ nbrs.

(** [v] can be reached from [u] by walking along edges. *)
Definition reachable (G : Graph) : node → node → Prop := rtc (adjacent G).

(** Every neighbour is itself a node, as in any networkx graph. *)
Definition graph_wf (G : Graph) : Prop :=
  ∀ u v, adjacent G u v → is_Some (G !! v).

Definition min_list (x : Z) (l : list Z) : Z := fold_left Z.min l x.

(** ** Distances with [float("inf")] *)

Inductive distance := Finite (d : Z) | Infinity.

(** [nd < dv] for a finite [nd]. *)
Definition lt_distance (nd : Z) (dv : distance) : bool :=
  match dv with
  | Finite d => (nd <? d)%Z
  | Infinity => true
  end.

(** ** The binary heap of [heapq]

    Entries are tuples [(d, u)], compared lexicographically.  Only
    [heappush] and [heappop] touch the heap, and [heappop] returns the least
    entry, so the heap is modelled by the list of its entries. *)

Definition entry_le (a b : Z * Z) : bool :=
  (a.1 <? b.1)%Z || ((a.1 =? b.1)%Z && (a.2 <=? b.2)%Z).

Fixpoint heap_min (x : Z * Z) (l : list (Z * Z)) : Z * Z :=
  match l with
  | [] => x
  | y :: l' => heap_min (if entry_le x y then x else y) l'
  end.

Fixpoint remove_first (x : Z * Z) (l : list (Z * Z)) : list (Z * Z) :=
  match l with
  | [] => []
  | y :: l' => if decide (x = y) then l' else y :: remove_first x l'
  end.

Definition heappush (pq : list (Z * Z)) (e : Z * Z) : list (Z * Z) := e :: pq.

Definition heappop (pq : list (Z * Z)) : option ((Z * Z) * list (Z * Z)) :=
  match pq with
  | [] => None
  | x :: l => let m := heap_min x l in Some (m, remove_first m pq)
  end.

(** ** The search engine *)

Inductive event :=
| Visit (u : node)
| Relax (v : node)
| Done (path : list node)
| NoPath.

Inductive exn := NetworkXError | KeyError.

(** How a pulled-to-the-end generator stops. *)
Inductive termination :=
| StopIteration            (* the generator returned *)
| Raised (e : exn)         (* an exception escaped *)
| Hang                     (* the path walk [while cur in prev] never ends *)
| OutOfFuel.               (* the model's step budget ran out *)

Record state := State {
  dist : gmap Z distance;
  prev : gmap Z Z;
  pq : list (Z * Z);
  seen : gset Z
}.

Inductive step_result :=
| Continue (evs : list event) (st : state)
| Stop (evs : list event) (t : termination) (st : state).

(** The path walk [while cur in prev: path.append(cur); cur = prev[cur]]. *)
Fixpoint walk (fuel : nat) (prev : gmap Z Z) (cur : node) (path : list node)
  : option (list node) :=
  match fuel with
  | O => None
  | S fuel' =>
      match prev !! cur with
      | Some p => walk fuel' prev p (path ++ [cur])
      | None => Some path
      end
  end.

(** [path.append(start); path.reverse()] after the walk. *)
Definition reconstruct (fuel : nat) (prev : gmap Z Z) (start target : node)
  : option (list node) :=
  (fun path => rev (path ++ [start])) <$> walk fuel prev target [].

Section Engine.
(** The edge weight read off the edge data; it is the only place where
    [animation.py] and [upgrade.py] differ. *)
Variable edge_weight : edge_data → Z.
Variable G : Graph.
Variables start target : node.

Definition weight (u v : node) : Z :=
  edge_weight (default empty_dict (get_edge_data G u v)).

(** One turn of [for v in G.neighbors(u)]. *)
Definition relax_one (d : Z) (u v : node) (st : state)
  : state * list event * option exn :=
  let nd := (d + weight u v)%Z in
  match dist st !! v with
  | None => (st, [], Some KeyError)
  | Some dv =>
      if lt_distance nd dv then
        (State (<[v := Finite nd]> (dist st)) (<[v := u]> (prev st))
               (heappush (pq st) (nd, v)) (seen st),
         [Relax v], None)
      else (st, [], None)
  end.

Fixpoint relax_loop (d : Z) (u : node) (nbrs : list node) (st : state)
  : state * list event * option exn :=
  match nbrs with
  | [] => (st, [], None)
  | v :: rest =>
      match relax_one d u v st with
      | (st', evs, Some e) => (st', evs, Some e)
      | (st', evs, None) =>
          let '(st'', evs', r) := relax_loop d u rest st' in
          (st'', evs ++ evs', r)
      end
  end.

(** One turn of [while pq]. *)
Definition step (st : state) : step_result :=
  match heappop (pq st) with
  | None => Stop [NoPath] StopIteration st
  | Some ((d, u), pq') =>
      if decide (u ∈ seen st) then
        Continue [] (State (dist st) (prev st) pq' (seen st))
      else
        let st1 := State (dist st) (prev st) pq' ({[u]} ∪ seen st) in
        if decide (u = target) then
          match reconstruct (S (size (seen st1))) (prev st1) start target with
          | Some path => Stop [Visit u; Done path] StopIteration st1
          | None => Stop [Visit u] Hang st1
          end
        else
          match neighbors G u with
          | None => Stop [Visit u] (Raised NetworkXError) st1
          | Some nbrs =>
              match relax_loop d u nbrs st1 with
              | (st2, evs, Some e) => Stop (Visit u :: evs) (Raised e) st2
              | (st2, evs, None) => Continue (Visit u :: evs) st2
              end
          end
  end.

Fixpoint run (fuel : nat) (st : state) : list event * termination * state :=
  match fuel with
  | O => ([], OutOfFuel, st)
  | S fuel' =>
      match step st with
      | Stop evs t st' => (evs, t, st')
      | Continue evs st' =>
          let '(evs', t, st'') := run fuel' st' in (evs ++ evs', t, st'')
      end
  end.

(** [dist = {n: inf for n in G.nodes()}; dist[start] = 0.0; prev = {};
    pq = [(0.0, start)]; seen = set()]. *)
Definition init_state : state :=
  State (<[start := Finite 0]> ((fun _ => Infinity) <$> G)) ∅
        [(0%Z, start)] ∅.

(** A step budget no run exceeds: every turn of the loop pops one entry,
    and besides the first entry one is pushed per neighbour of a settled
    node at most. *)
Definition degree_sum (l : list (Z * list (Z * edge_data))) : nat :=
  sum_list (map (fun p => length p.2) l).

Definition fuel_of : nat := 2 + degree_sum (map_to_list G).

Definition dijkstra_generator_with : list event * termination * state :=
  run fuel_of init_state.
End Engine.

(** The length of a path: the sum of the weights between consecutive
    nodes. *)
Fixpoint path_weight (edge_weight : edge_data → Z) (G : Graph) (p : list node) : Z :=
  match p with
  | a :: (b :: _) as rest => (weight edge_weight G a b + path_weight edge_weight G rest)%Z
  | _ => 0%Z
  end.

(** Consecutive nodes of [p] are joined by an edge. *)
Fixpoint is_path (G : Graph) (p : list node) : Prop :=
  match p with
  | a :: (b :: _) as rest => adjacent G a b ∧ is_path G rest
  | _ => True
  end.

(** [animation.py] (and [visual_final.py]): of the parallel edges only those
    with a ['length'] count; the weight is their least length. *)
Module Animation.
Definition edge_weight (data : edge_data) : Z :=
  match data with
  | Keyed m =>
      if negb (bool_decide (m = ∅)) && bool_decide (is_Some (m !! 0%Z)) then
        match omap snd (map_to_list m) with
        | [] => 1%Z
        | x :: lengths => min_list x lengths
        end
      else 1%Z       (* data.get('length', 1.0) on a dict of edge keys *)
  | Plain a => default 1%Z a
  end.

Definition dijkstra_generator (G : Graph) (start target : node) :=
  dijkstra_generator_with edge_weight G start target.
End Animation.

(** [upgrade.py] (and the second script of [multiemergency.py]): a parallel
    edge without ['length'] counts as length 1. *)
Module Upgrade.
Definition edge_weight (data : edge_data) : Z :=
  match data with
  | Keyed m =>
      if negb (bool_decide (m = ∅)) && bool_decide (is_Some (m !! 0%Z)) then
        match (fun kv => default 1%Z kv.2) <$> map_to_list m with
        | [] => 1%Z
        | x :: lengths => min_list x lengths
        end
      else 1%Z
  | Plain a => default 1%Z a
  end.

Definition dijkstra_generator (G : Graph) (start target : node) :=
  dijkstra_generator_with edge_weight G start target.
End Upgrade.

(** ** Reading a trace *)

(** The nodes of the [visit] events, in order. *)
Definition visited (evs : list event) : list node :=
  omap (fun e => match e with Visit u => Some u | _ => None end) evs.

(** Events of a search still under way: no [Done], no [NoPath]. *)
Definition in_progress (e : event) : Prop :=
  match e with
  | Visit _ | Relax _ => True
  | Done _ | NoPath => False
  end.

(** The number of [no_path] events. *)
Definition count_no_path (evs : list event) : nat :=
  length (List.filter (fun e => match e with NoPath => true | _ => false end) evs).

(** * The dispatch script [multiemergency.py] *)

(** ** Results of code that may raise *)

Inductive error := IndexError | AttributeError.

Inductive result (A : Type) :=
| Ok (a : A)
| Err (e : error).
Arguments Ok {A} a.
Arguments Err {A} e.

#[global] Instance result_ret : MRet result := fun A a => Ok a.
#[global] Instance result_bind : MBind result := fun A B f m =>
  match m with
  | Ok a => f a
  | Err e => Err e
  end.

(** [l[i]] for [i >= 0]. *)
Definition index {A} (l : list A) (i : nat) : result A :=
  match l !! i with
  | Some a => Ok a
  | None => Err IndexError
  end.

(** [a < b] on floats that may be [inf], and [a + b]. *)
Definition distance_ltb (a b : distance) : bool :=
  match a with
  | Finite x => lt_distance x b
  | Infinity => false
  end.

Definition distance_add (a b : distance) : distance :=
  match a, b with
  | Finite x, Finite y => Finite (x + y)
  | _, _ => Infinity
  end.

(** ** [itertools.permutations]: by positions, in lexicographic order *)

Fixpoint selects {A} (l : list A) : list (A * list A) :=
  match l with
  | [] => []
  | x :: xs => (x, xs) :: ((fun p => (p.1, x :: p.2)) <$> selects xs)
  end.

Fixpoint permutations_n {A} (n : nat) (l : list A) : list (list A) :=
  match n with
  | O => [[]]
  | S n' => p ← selects l; cons p.1 <$> permutations_n n' p.2
  end.

Definition permutations {A} (l : list A) : list (list A) :=
  permutations_n (length l) l.

(** ** What [nx.shortest_path] answers *)

Inductive nx_result :=
| NxPath (p : list node)
| NetworkXNoPath.        (* the exception raised when there is no path *)

Section Dispatch.
(** [nx.shortest_path(G, source, target, weight='length')] is library code;
    the script is modelled for any behaviour of it. *)
Variable nx_shortest_path : Graph → node → node → nx_result.
Variable G : Graph.
Variable base_node : node.
Variable emergency_nodes : list node.

Definition dijkstra_shortest_path (source target : node) : list node :=
  match nx_shortest_path G source target with
  | NxPath p => p
  | NetworkXNoPath => []
  end.

Definition points : list node := base_node :: emergency_nodes.

(** The summand of [dist += ...] for the edge [a]-[b] in
    [compute_distance_matrix]; without an edge [get_edge_data] is [None]
    and [.get] raises. *)
Definition edge_length (a b : node) : result Z :=
  match get_edge_data G a b with
  | None => Err AttributeError
  | Some (Keyed m) =>
      match m !! 0%Z with
      | Some attrs => Ok (default 1%Z attrs)
      | None => Ok 1%Z
      end
  | Some (Plain attrs) => Ok (default 1%Z attrs)
  end.

Fixpoint path_length (dist : Z) (path : list node) : result Z :=
  match path with
  | a :: (b :: _) as rest => w ← edge_length a b; path_length (dist + w)%Z rest
  | _ => Ok dist
  end.

(** The body of the double loop: [(distance_matrix[i, j], path_matrix[i][j])]. *)
Definition matrix_entry (i j : nat) : result (Z * list node) :=
  if decide (i = j) then
    pi ← index points i; Ok (0%Z, [pi])
  else
    pi ← index points i;
    pj ← index points j;
    let path := dijkstra_shortest_path pi pj in
    dist ← path_length 0 path;
    Ok (dist, path).

Definition matrix_row (i : nat) : result (list (Z * list node)) :=
  mapM (M := result) (fun j => matrix_entry i j) (seq 0 (length points)).

Definition compute_distance_matrix
  : result (list (list Z) * list (list (list node))) :=
  match mapM (M := result) matrix_row (seq 0 (length points)) with
  | Ok rows =>
      Ok ((fun row : list (Z * list node) => row.*1) <$> rows,
          (fun row : list (Z * list node) => row.*2) <$> rows)
  | Err e => Err e
  end.

(** ** The optimizer *)

Variable distance_matrix : list (list Z).

Definition matrix_get (i j : nat) : result Z :=
  row ← index distance_matrix i; index row j.

(** The loop [for idx in perm: cost += distance_matrix[prev][idx]; prev = idx]
    and the final [cost += distance_matrix[prev][0]]. *)
Fixpoint route_cost (cost : Z) (prev : nat) (perm : list nat) : result Z :=
  match perm with
  | [] => c ← matrix_get prev 0; Ok (cost + c)%Z
  | idx :: rest => c ← matrix_get prev idx; route_cost (cost + c)%Z idx rest
  end.

Fixpoint best_order_loop (best_order : option (list nat)) (best_cost : distance)
    (perms : list (list nat)) : result (option (list nat) * distance) :=
  match perms with
  | [] => Ok (best_order, best_cost)
  | perm :: rest =>
      cost ← route_cost 0 0 perm;
      if lt_distance cost best_cost
      then best_order_loop (Some perm) (Finite cost) rest
      else best_order_loop best_order best_cost rest
  end.

Definition find_best_route_order (subset : list nat)
  : result (option (list nat) * distance) :=
  match subset with
  | [] => Ok (Some [], Finite 0)
  | _ => best_order_loop None Infinity (permutations subset)
  end.

(** [(mask & (1 << i)) != 0]. *)
Definition bit_set (mask : Z) (i : nat) : bool :=
  negb (Z.land mask (Z.shiftl 1 (Z.of_nat i)) =? 0)%Z.

Definition emergencies_idx : list nat := seq 1 (length emergency_nodes).

Definition subset1_of (mask : Z) : list nat :=
  omap (fun i => if bit_set mask i then emergencies_idx !! i else None)
       (seq 0 (length emergency_nodes)).

Definition subset2_of (mask : Z) : list nat :=
  filter (fun e => e ∉ subset1_of mask) emergencies_idx.

Record best := Best {
  best_cost : distance;
  best_partition : option (list nat * list nat);
  best_routes : option (option (list nat) * option (list nat))
}.

Fixpoint partition_loop (b : best) (masks : list Z) : result best :=
  match masks with
  | [] => Ok b
  | mask :: rest =>
      let subset1 := subset1_of mask in
      let subset2 := subset2_of mask in
      r1 ← find_best_route_order subset1;
      r2 ← find_best_route_order subset2;
      let total_cost := distance_add r1.2 r2.2 in
      if distance_ltb total_cost (best_cost b)
      then partition_loop (Best total_cost (Some (subset1, subset2))
                                (Some (r1.1, r2.1))) rest
      else partition_loop b rest
  end.

(** [range(1 << n)]. *)
Definition masks : list Z :=
  seqZ 0 (Z.shiftl 1 (Z.of_nat (length emergency_nodes))).

Definition find_best_partition_and_routes : result best :=
  partition_loop (Best Infinity None None) masks.

(** ** The route builder *)

Definition extend_route (full_path : list node) (idx : nat) : result (list node) :=
  last_node ← match last full_path with
              | Some x => Ok x
              | None => Err IndexError
              end;
  p ← index points idx;
  let path_segment := dijkstra_shortest_path last_node p in
  if decide (1 < length path_segment)
  then Ok (full_path ++ drop 1 path_segment)
  else Ok full_path.

Fixpoint build_loop (full_path : list node) (route_order : list nat)
  : result (list node) :=
  match route_order with
  | [] => Ok full_path
  | idx :: rest => full_path' ← extend_route full_path idx; build_loop full_path' rest
  end.

Definition build_full_path (route_order : list nat) : result (list node) :=
  match route_order with
  | [] => Ok [base_node]
  | _ => build_loop [base_node] route_order
  end.
End Dispatch.

(** [nx.shortest_path] played by the repository's own engine, to run the
    script on concrete graphs. *)
Definition engine_shortest_path (G : Graph) (source target : node) : nx_result :=
  match last (Upgrade.dijkstra_generator G source target).1.1 with
  | Some (Done path) => NxPath path
  | _ => NetworkXNoPath
  end.

(** ** The route assembler, in the words of the specification

    The specification's RouteAssembler: the route starts at the origin; for
    each site in order, the path segment from the route's current last node
    to that site is appended without its first node. *)
Definition route_last (origin : node) (route : list node) : node :=
  default origin (last route).

Fixpoint assemble_from (segment : node → node → list node) (origin : node)
    (route : list node) (sites : list node) : list node :=
  match sites with
  | [] => route
  | site :: rest =>
      assemble_from segment origin
        (route ++ drop 1 (segment (route_last origin route) site)) rest
  end.

Definition assemble (segment : node → node → list node) (origin : node)
    (sites : list node) : list node :=
  assemble_from segment origin [origin] sites.

(** ** The cost model, in the words of the specification *)

(** The table entry [distanceTable[i][j]]. *)
Definition table_entry (dm : list (list Z)) (i j : nat) : Z :=
  default 0%Z (dm !! i ≫= (.!! j)).

(** The specification's cost of an order: [distanceTable[origin][first] +
    Σ distanceTable[prev][next] + distanceTable[last][origin]], the origin
    being point 0; an empty subset costs 0. *)
Fixpoint legs (dm : list (list Z)) (prev : nat) (order : list nat) : Z :=
  match order with
  | [] => table_entry dm prev 0
  | next :: rest => (table_entry dm prev next + legs dm next rest)%Z
  end.

Definition round_trip (dm : list (list Z)) (order : list nat) : Z :=
  match order with
  | [] => 0%Z
  | _ => legs dm 0 order
  end.

(** A table with [m] rows of [m] entries. *)
Definition square (dm : list (list Z)) (m : nat) : Prop :=
  length dm = m ∧ Forall (fun row => length row = m) dm.

(** [d] is a finite cost, at most [z]. *)
Definition dist_le (d : distance) (z : Z) : Prop :=
  match d with
  | Finite y => (y ≤ z)%Z
  | Infinity => False
  end.

(** ** The vocabulary of the statements *)

Definition nonneg_edge (data : edge_data) : Prop :=
  match data with
  | Keyed m => ∀ k x, m !! k = Some (Some x) → (0 ≤ x)%Z
  | Plain a => ∀ x, a = Some x → (0 ≤ x)%Z
  end.

(** Every ['length'] attribute in the graph is non-negative. *)
Definition nonneg_lengths (G : Graph) : Prop :=
  ∀ u l v data, G !! u = Some l → (v, data) ∈ l → nonneg_edge data.

(** The trace of a successful search: in-progress events, then the visit of
    the target and [done] with a path of the graph from the origin to the
    target whose length is the [dist[target]] of the final state. *)
Definition found_spec (W : edge_data → Z) (G : Graph) (start target : node)
    (trace : list event * termination * state) : Prop :=
  ∃ pre path st,
    trace = (pre ++ [Visit target; Done path], StopIteration, st) ∧
    Forall in_progress pre ∧
    head path = Some start ∧ last path = Some target ∧
    is_path G path ∧
    dist st !! target = Some (Finite (path_weight W G path)).

(** The trace of a failed search: in-progress events, then [no_path], and
    the generator returns normally. *)
Definition exhausted_spec (trace : list event * termination * state) : Prop :=
  ∃ pre st,
    trace = (pre ++ [NoPath], StopIteration, st) ∧ Forall in_progress pre.

(** The mask with bit [e - 1] set for every [e] of [A]. *)
Definition mask_of (A : list nat) : Z :=
  fold_right (fun e m => Z.lor (Z.shiftl 1 (Z.of_nat (e - 1))) m) 0%Z A.

(** What the optimizer achieves on [n] sites: the [2^n] masks give every
    split of the sites in two; [permutations] gives every order of a
    subset; an order is scored with its round trip; the result is a split
    with orders of least total cost among all splits and orders. *)
Definition optimal_dispatch (emergency_nodes : list node) (dm : list (list Z))
  : Prop :=
  let n := length emergency_nodes in
  length (masks emergency_nodes) = 2 ^ n ∧
  (∀ A B, A ++ B ≡ₚ seq 1 n →
     ∃ mask, mask ∈ masks emergency_nodes ∧
       subset1_of emergency_nodes mask ≡ₚ A ∧
       subset2_of emergency_nodes mask ≡ₚ B) ∧
  (∀ subset p : list nat, p ∈ permutations subset ↔ p ≡ₚ subset) ∧
  (∀ p, p ≠ [] → Forall (fun idx => idx < S n) p →
     route_cost dm 0 0 p = Ok (round_trip dm p)) ∧
  (∃ mask o1 o2,
     mask ∈ masks emergency_nodes ∧
     o1 ≡ₚ subset1_of emergency_nodes mask ∧
     o2 ≡ₚ subset2_of emergency_nodes mask ∧
     find_best_partition_and_routes emergency_nodes dm
       = Ok (Best (Finite (round_trip dm o1 + round_trip dm o2))
                  (Some (subset1_of emergency_nodes mask,
                         subset2_of emergency_nodes mask))
                  (Some (Some o1, Some o2))) ∧
     ∀ A B, A ++ B ≡ₚ seq 1 n →
       (round_trip dm o1 + round_trip dm o2
        ≤ round_trip dm A + round_trip dm B)%Z).

(** ** Example data *)

(** The 4-cycle A-B-C-D-A with unit lengths, built by adding the edges
    A-B, B-C, C-D, D-A in this order. *)
Definition unit_edge : edge_data := Keyed {[ 0%Z := Some 1%Z ]}.

Definition cycle_graph (A B C D : node) : Graph :=
  list_to_map
    [ (A, [(B, unit_edge); (D, unit_edge)]);
      (B, [(A, unit_edge); (C, unit_edge)]);
      (C, [(B, unit_edge); (D, unit_edge)]);
      (D, [(C, unit_edge); (A, unit_edge)]) ].

(** A = 1, B = 2, C = 3, D = 4. *)
Definition cycle4 : Graph := cycle_graph 1 2 3 4.

(** A state whose heap holds an entry for the settled node 2. *)
Definition stale_state : state :=
  State ∅ ∅ [(1%Z, 2%Z); (2%Z, 3%Z)] {[2%Z]}.

(** Nodes 1 and 2 joined by a road of length 4; node 3 on its own. *)
Definition islands : Graph :=
  list_to_map
    [ (1%Z, [(2%Z, Keyed {[ 0%Z := Some 4%Z ]})]);
      (2%Z, [(1%Z, Keyed {[ 0%Z := Some 4%Z ]})]);
      (3%Z, []) ].

(** A road of negative length between 1 and 2, and a road from 2 to 3. *)
Definition negative_road : Graph :=
  list_to_map
    [ (1%Z, [(2%Z, Plain (Some (-1)%Z))]);
      (2%Z, [(1%Z, Plain (Some (-1)%Z)); (3%Z, Plain (Some 1%Z))]);
      (3%Z, [(2%Z, Plain (Some 1%Z))]) ].

(** The distance table of the scenario: O-P1 = 3, O-P2 = 5, P1-P2 = 2. *)
Definition table3 : list (list Z) :=
  [ [0; 3; 5]; [3; 0; 2]; [5; 2; 0] ]%Z.

(** ** Invariants of the search

    Used in the proofs below; [W] is the edge weight of the script at hand. *)

Section Invariants.
Variable W : edge_data → Z.
Variable G : Graph.
Variables start target : node.

(** Loop turns from one state to another, with the events they yield. *)
Inductive steps : state → list event → state → Prop :=
| steps_refl st : steps st [] st
| steps_snoc st evs st' evs' st'' :
    steps st evs st' →
    step W G start target st' = Continue evs' st'' →
    steps st (evs ++ evs') st''.

(** The measure that decreases at every turn of the loop. *)
Definition unsettled_degree (sn : gset Z) : nat :=
  degree_sum (filter (fun p => p.1 ∉ sn) (map_to_list G)).

Definition potential (st : state) : nat :=
  length (pq st) + unsettled_degree (seen st).

(** Frontier nodes are reachable nodes of the graph. *)
Record binv (st : state) : Prop := {
  binv_pq : ∀ d x, (d, x) ∈ pq st → is_Some (G !! x) ∧ reachable G start x;
  binv_dom : ∀ v, is_Some (G !! v) → is_Some (dist st !! v);
  binv_target : target ∉ seen st
}.

(** [rk] orders the settled nodes by the moment they were settled. *)
Record core (rk : Z → nat) (st : state) : Prop := {
  core_start : dist st !! start = Some (Finite 0);
  core_prev_start : prev st !! start = None;
  core_pq : ∀ d x, (d, x) ∈ pq st →
    ∃ dx, dist st !! x = Some (Finite dx) ∧ (0 ≤ dx ≤ d)%Z;
  core_front : ∀ x dx,
    dist st !! x = Some (Finite dx) → x ∉ seen st → (dx, x) ∈ pq st;
  core_seen : ∀ u, u ∈ seen st →
    ∃ du, dist st !! u = Some (Finite du) ∧ (0 ≤ du)%Z ∧
          rk u < size (seen st) ∧
          ∀ d x, (d, x) ∈ pq st → (du ≤ d)%Z;
  core_prev : ∀ v u, prev st !! v = Some u →
    u ∈ seen st ∧ adjacent G u v ∧
    (∃ du, dist st !! u = Some (Finite du) ∧
           dist st !! v = Some (Finite (du + weight W G u v))) ∧
    (v ∈ seen st → rk u < rk v);
  core_has_prev : ∀ v dv,
    dist st !! v = Some (Finite dv) → v ≠ start → is_Some (prev st !! v)
}.

(** The settled nodes have all their neighbours discovered. *)
Definition closed (st : state) : Prop :=
  ∀ u v, u ∈ seen st → adjacent G u v →
    ∃ dv, dist st !! v = Some (Finite dv).

(** What holds while the neighbours of the just settled [u] are
    relaxed with the popped distance [d]. *)
Definition relaxing (d : Z) (u : node) (st : state) : Prop :=
  u ∈ seen st ∧ dist st !! u = Some (Finite d) ∧ (0 ≤ d)%Z ∧
  ∀ u', u' ∈ seen st → ∃ du', dist st !! u' = Some (Finite du') ∧ (du' ≤ d)%Z.

Definition dist_kept (st st' : state) : Prop :=
  ∀ x dx, dist st !! x = Some (Finite dx) →
    ∃ dx', dist st' !! x = Some (Finite dx').

Definition inv (st : state) : Prop := ∃ rk, core rk st ∧ closed st.
End Invariants.

Arguments binv_pq {G start target} st.
Arguments binv_dom {G start target} st.
Arguments binv_target {G start target} st.
Arguments core_start {W G start} rk st.
Arguments core_prev_start {W G start} rk st.
Arguments core_pq {W G start} rk st.
Arguments core_front {W G start} rk st.
Arguments core_seen {W G start} rk st.
Arguments core_prev {W G start} rk st.
Arguments core_has_prev {W G start} rk st.

(** * Further properties of the scripts *)

(** ** More about the search *)

Section SearchProperties.
Variable W : edge_data → Z.
Variable G : Graph.
Variable start : node.

(** [p] is a walk of the graph from [start] to [u]. *)
Definition is_route (u : node) (p : list node) : Prop :=
  head p = Some start ∧ last p = Some u ∧ is_path G p.

(** Every edge out of a settled node has been relaxed. *)
Definition relaxed (st : state) : Prop :=
  ∀ u v du, u ∈ seen st → adjacent G u v → dist st !! u = Some (Finite du) →
    ∃ dv, dist st !! v = Some (Finite dv) ∧ (dv ≤ du + weight W G u v)%Z.
End SearchProperties.

(** The trace of a successful search whose path is a shortest one. *)
Definition shortest_spec (W : edge_data → Z) (G : Graph) (start target : node)
    (trace : list event * termination * state) : Prop :=
  ∃ pre path st,
    trace = (pre ++ [Visit target; Done path], StopIteration, st) ∧
    is_route G start target path ∧
    ∀ p, is_route G start target p →
      (path_weight W G path ≤ path_weight W G p)%Z.

(** The search explores the origin's component: it visits reachable nodes
    only, and when it ends without finding the target it has visited every
    reachable node. *)
Definition explores_spec (G : Graph) (start target : node)
    (trace : list event * termination * state) : Prop :=
  (∀ u, u ∈ visited trace.1.1 → reachable G start u) ∧
  (¬ reachable G start target →
   ∀ u, reachable G start u → u ∈ visited trace.1.1).

(** No [relax] of a node in [settled], nor of a node visited earlier in
    [evs]. *)
Fixpoint no_relax_of (settled : gset Z) (evs : list event) : Prop :=
  match evs with
  | [] => True
  | Visit u :: rest => no_relax_of ({[u]} ∪ settled) rest
  | Relax v :: rest => (v ∉ settled) ∧ no_relax_of settled rest
  | _ :: rest => no_relax_of settled rest
  end.

(** A bound on the events of a run that goes down at every turn of the
    loop. *)
Definition event_budget (G : Graph) (st : state) : nat :=
  length (pq st) + 2 * unsettled_degree G (seen st).

(** ** The ETA label of [draw_path_on_ax] ([upgrade.py], [visual_final.py])

    The weight of an edge as the label counts it: the least ['length'] of
    the parallel edges, a missing length counting as 0. *)
Definition eta_weight (data : edge_data) : Z :=
  match data with
  | Keyed m =>
      if negb (bool_decide (m = ∅)) && bool_decide (is_Some (m !! 0%Z)) then
        match (fun kv => default 0%Z kv.2) <$> map_to_list m with
        | [] => 0%Z
        | x :: lengths => min_list x lengths
        end
      else 0%Z
  | Plain a => default 0%Z a
  end.

(** The loop [for i in range(len(path_nodes)-1): ... total += weight]. *)
Fixpoint eta_total (G : Graph) (total : Z) (path_nodes : list node) : Z :=
  match path_nodes with
  | u :: (v :: _) as rest =>
      eta_total G (total + eta_weight (default empty_dict (get_edge_data G u v)))%Z rest
  | _ => total
  end.

(** The edge data carries a length on every parallel edge, the one of key 0
    included. *)
Definition has_length (data : edge_data) : Prop :=
  match data with
  | Keyed m => is_Some (m !! 0%Z) ∧ ∀ k a, m !! k = Some a → is_Some a
  | Plain a => is_Some a
  end.

Definition all_lengths (G : Graph) : Prop :=
  ∀ u l v data, G !! u = Some l → (v, data) ∈ l → has_length data.

(** The trace of a successful search whose path gets the label
    [dist[target]]. *)
Definition eta_spec (G : Graph) (target : node)
    (trace : list event * termination * state) : Prop :=
  ∃ pre path st,
    trace = (pre ++ [Visit target; Done path], StopIteration, st) ∧
    dist st !! target = Some (Finite (eta_total G 0 path)).

(** ** The tables of [compute_distance_matrix] *)

(** A table with [m] rows of [m] entries. *)
Definition table_shape {A} (t : list (list A)) (m : nat) : Prop :=
  length t = m ∧ Forall (fun row => length row = m) t.

(** What the two tables hold: zero and the one-node path on the diagonal,
    elsewhere the path [dijkstra_shortest_path] answers and the sum of the
    lengths along it. *)
Definition tables_spec (nx : Graph → node → node → nx_result) (G : Graph)
    (base_node : node) (emergency_nodes : list node)
    (dm : list (list Z)) (pm : list (list (list node))) : Prop :=
  let pts := points base_node emergency_nodes in
  square dm (length pts) ∧ table_shape pm (length pts) ∧
  (∀ i pi, pts !! i = Some pi →
     matrix_get dm i i = Ok 0%Z ∧ (pm !! i ≫= (.!! i)) = Some [pi]) ∧
  (∀ i j pi pj, i ≠ j → pts !! i = Some pi → pts !! j = Some pj →
     (pm !! i ≫= (.!! j)) = Some (dijkstra_shortest_path nx G pi pj) ∧
     ∃ d, matrix_get dm i j = Ok d ∧
          path_length G 0 (dijkstra_shortest_path nx G pi pj) = Ok d).

(** The tables are built and the optimizer answers on them. *)
Definition pipeline_spec (nx : Graph → node → node → nx_result) (G : Graph)
    (base_node : node) (emergency_nodes : list node) : Prop :=
  ∃ dm pm b c,
    compute_distance_matrix nx G base_node emergency_nodes = Ok (dm, pm) ∧
    find_best_partition_and_routes emergency_nodes dm = Ok b ∧
    best_cost b = Finite c.

(** ** Ties in the optimizer *)

(** The optimizer's answer is the split of [mask], the mask is in range,
    and every smaller mask costs strictly more, whatever the orders. *)
Definition first_minimum_spec (emergency_nodes : list node) (dm : list (list Z))
    (mask : Z) (o1 o2 : list nat) : Prop :=
  (0 ≤ mask < 2 ^ Z.of_nat (length emergency_nodes))%Z ∧
  o1 ≡ₚ subset1_of emergency_nodes mask ∧
  o2 ≡ₚ subset2_of emergency_nodes mask ∧
  find_best_partition_and_routes emergency_nodes dm
    = Ok (Best (Finite (round_trip dm o1 + round_trip dm o2))
               (Some (subset1_of emergency_nodes mask,
                      subset2_of emergency_nodes mask))
               (Some (Some o1, Some o2))) ∧
  ∀ k p1 p2, (0 ≤ k < mask)%Z →
    p1 ≡ₚ subset1_of emergency_nodes k →
    p2 ≡ₚ subset2_of emergency_nodes k →
    (round_trip dm o1 + round_trip dm o2 < round_trip dm p1 + round_trip dm p2)%Z.

(** The last emergency of the list (index [n] of the table) is in the
    second subset of the optimizer's answer. *)
Definition last_site_second (emergency_nodes : list node) (dm : list (list Z)) : Prop :=
  ∃ b subset1 subset2,
    find_best_partition_and_routes emergency_nodes dm = Ok b ∧
    best_partition b = Some (subset1, subset2) ∧
    (length emergency_nodes ∉ subset1) ∧
    length emergency_nodes ∈ subset2.

(** ** The dispatcher of [multiemergency.py]

    The callbacks of the two-ambulance script: [dispatch], [anim_step] and
    [on_click].  The globals they share are passed explicitly; a position
    [pos[n]] is represented by its node [n]. *)

(** The colours of the node dots. *)
Inductive color :=
  | DEFAULT_NODE_COLOR | BASE_COLOR | TARGET_COLOR
  | VISIT_COLOR | FRONTIER_COLOR | PATH_COLOR.

Global Instance color_eq_dec : EqDecision color.
Proof. solve_decision. Defined.

Module MultiEmergency.

Definition MAX_EMERGENCIES : nat := 6.

(** What a callback can raise: an error of the table code, the
    [ValueError] of [list.index], the [TypeError] of subscripting [None]. *)
Inductive raised := Table (e : error) | ValueError | TypeError.

Record globals := Globals {
  route_paths : list (list node);
  route_positions : list (list node);
  route_step_indices : list nat
}.

(** The globals when the script starts. *)
Definition initial_globals : globals := Globals [[]; []] [[]; []] [0; 0].

(** [l.index(x)]. *)
Fixpoint list_index (x : node) (l : list node) : option nat :=
  match l with
  | [] => None
  | y :: l' => if decide (x = y) then Some 0 else S <$> list_index x l'
  end.

Section Dispatch.
Variable nx_shortest_path : Graph → node → node → nx_result.
Variable G : Graph.
Variable base_node : node.
Variable emergency_nodes : list node.

(** [build_full_path(r) if r else [base_node]]. *)
Definition route_of (r : option (list nat)) : result (list node) :=
  match r with
  | Some (idx :: rest) =>
      build_full_path nx_shortest_path G base_node emergency_nodes (idx :: rest)
  | _ => Ok [base_node]
  end.

(** The loop [for i in range(len(route_path) - 1)] over the consecutive
    nodes of a route. *)
Fixpoint pairs_loop (path_matrix : list (list (list node)))
    (route_path : list node) (pos_list : list node) : raised + list node :=
  match route_path with
  | start_node :: (end_node :: _) as rest =>
      match list_index start_node (points base_node emergency_nodes) with
      | None => inl ValueError
      | Some idx_start =>
          match list_index end_node (points base_node emergency_nodes) with
          | None => inl ValueError
          | Some idx_end =>
              match path_matrix !! idx_start ≫= (.!! idx_end) with
              | None => inl (Table IndexError)
              | Some intermediate_nodes =>
                  pairs_loop path_matrix rest
                    (pos_list ++ removelast intermediate_nodes)
              end
          end
      end
  | _ => inr pos_list
  end.

(** One turn of [for route_path in route_paths]: the loop over the pairs,
    then [pos_list.append(pos[route_path[-1]])]. *)
Definition route_position_list (path_matrix : list (list (list node)))
    (route_path : list node) : raised + list node :=
  match pairs_loop path_matrix route_path [] with
  | inl e => inl e
  | inr pos_list =>
      match last route_path with
      | Some n => inr (pos_list ++ [n])
      | None => inl (Table IndexError)
      end
  end.

(** [for route_path in route_paths]: what [route_positions] holds at the
    end, or when an exception leaves the loop. *)
Fixpoint positions_loop (path_matrix : list (list (list node)))
    (paths : list (list node)) (positions : list (list node))
  : list (list node) * option raised :=
  match paths with
  | [] => (positions, None)
  | route_path :: rest =>
      match route_position_list path_matrix route_path with
      | inl e => (positions, Some e)
      | inr pos_list => positions_loop path_matrix rest (positions ++ [pos_list])
      end
  end.

(** [dispatch]: the globals it leaves, and the exception it raises if
    any. *)
Definition dispatch (g : globals) : globals * option raised :=
  if decide (length emergency_nodes = 0) then (g, None)
  else
    match compute_distance_matrix nx_shortest_path G base_node emergency_nodes with
    | Err e => (g, Some (Table e))
    | Ok (distance_matrix, path_matrix) =>
        match find_best_partition_and_routes emergency_nodes distance_matrix with
        | Err e => (g, Some (Table e))
        | Ok b =>
            match best_routes b with
            | None => (g, Some TypeError)
            | Some (r1, r2) =>
                match route_of r1 with
                | Err e => (g, Some (Table e))
                | Ok path1 =>
                    match route_of r2 with
                    | Err e => (g, Some (Table e))
                    | Ok path2 =>
                        match positions_loop path_matrix [path1; path2] [] with
                        | (positions, Some e) =>
                            (Globals [path1; path2] positions (route_step_indices g),
                             Some e)
                        | (positions, None) =>
                            (Globals [path1; path2] positions [0; 0], None)
                        end
                    end
                end
            end
        end
    end.
End Dispatch.

(** The body of [for i in range(2)] in [anim_step]. *)
Fixpoint anim_loop (indices : list nat) (g : globals) : globals * option raised :=
  match indices with
  | [] => (g, None)
  | i :: rest =>
      match route_positions g !! i with
      | None => (g, Some (Table IndexError))
      | Some positions =>
          if decide (length positions = 0) then anim_loop rest g
          else
            match route_step_indices g !! i with
            | None => (g, Some (Table IndexError))
            | Some idx =>
                match positions !! idx with
                | None => (g, Some (Table IndexError))
                | Some xy =>
                    if decide (idx < length positions - 1)
                    then anim_loop rest
                           (Globals (route_paths g) (route_positions g)
                              (<[i := S idx]> (route_step_indices g)))
                    else anim_loop rest g
                end
            end
      end
  end.

Definition anim_step (g : globals) : globals * option raised :=
  anim_loop [0; 1] g.

(** [k] frames of the animation, up to the first exception. *)
Fixpoint frames (k : nat) (g : globals) : globals * option raised :=
  match k with
  | 0 => (g, None)
  | S k' =>
      match anim_step g with
      | (g', None) => frames k' g'
      | (g', Some e) => (g', Some e)
      end
  end.

(** The globals [on_click] changes. *)
Record selection := Selection {
  emergency_nodes : list node;
  node_color_map : gmap Z color
}.

(** The selection when the script starts. *)
Definition initial_selection (G : Graph) (base_node : node) : selection :=
  Selection [] (<[base_node := BASE_COLOR]> ((fun _ => DEFAULT_NODE_COLOR) <$> G)).

(** [on_click]; [nearest] is the node [nearest_nodes] answers, [None] when
    the click is outside the axes, has no data coordinates, or
    [nearest_nodes] raises. *)
Definition on_click (base_node : node) (s : selection) (nearest : option node)
  : selection :=
  match nearest with
  | None => s
  | Some nearest =>
      if decide (nearest = base_node) then s
      else if decide (nearest ∈ emergency_nodes s) then s
      else if decide (MAX_EMERGENCIES ≤ length (emergency_nodes s)) then s
      else Selection (emergency_nodes s ++ [nearest])
                     (<[nearest := TARGET_COLOR]> (node_color_map s))
  end.
End MultiEmergency.

(** Where an ambulance is after [k] frames: it advances one position a
    frame and stays on the last one. *)
Definition index_after (k : nat) (positions : list node) (idx : nat) : nat :=
  if decide (length positions = 0) then idx
  else idx + k `min` (length positions - 1 - idx).

(** The globals a frame can read: two position lists, two indices, each
    index inside its list unless the list is empty. *)
Definition animatable (g : MultiEmergency.globals) : Prop :=
  ∃ p1 p2 i1 i2,
    MultiEmergency.route_positions g = [p1; p2] ∧
    MultiEmergency.route_step_indices g = [i1; i2] ∧
    (p1 = [] ∨ i1 < length p1) ∧ (p2 = [] ∨ i2 < length p2).

(** After [k] frames: no exception, and each index where [index_after]
    says. *)
Definition frames_spec (k : nat) (g : MultiEmergency.globals) : Prop :=
  ∃ p1 p2 i1 i2,
    MultiEmergency.route_positions g = [p1; p2] ∧
    MultiEmergency.route_step_indices g = [i1; i2] ∧
    MultiEmergency.frames k g
      = (MultiEmergency.Globals (MultiEmergency.route_paths g) [p1; p2]
           [index_after k p1 i1; index_after k p2 i2], None).

(** What [dispatch] does with at least one emergency: the tables, the
    optimizer and the route builder go through; if every node of the two
    routes is the base or an emergency the globals are set and the animation
    can read them, otherwise [ValueError] is raised, [route_positions] is
    left with fewer than two lists and every later frame raises
    [IndexError]. *)
Definition dispatch_spec (nx : Graph → node → node → nx_result) (G : Graph)
    (base_node : node) (emergency_nodes : list node)
    (g : MultiEmergency.globals) : Prop :=
  ∃ dm pm b o1 o2 path1 path2,
    compute_distance_matrix nx G base_node emergency_nodes = Ok (dm, pm) ∧
    find_best_partition_and_routes emergency_nodes dm = Ok b ∧
    best_routes b = Some (Some o1, Some o2) ∧
    build_full_path nx G base_node emergency_nodes o1 = Ok path1 ∧
    build_full_path nx G base_node emergency_nodes o2 = Ok path2 ∧
    ((∀ x, x ∈ path1 ++ path2 → x ∈ points base_node emergency_nodes) →
       ∃ g', MultiEmergency.dispatch nx G base_node emergency_nodes g = (g', None) ∧
             MultiEmergency.route_paths g' = [path1; path2] ∧
             MultiEmergency.route_step_indices g' = [0; 0] ∧
             animatable g') ∧
    (¬ (∀ x, x ∈ path1 ++ path2 → x ∈ points base_node emergency_nodes) →
       ∃ g', MultiEmergency.dispatch nx G base_node emergency_nodes g
               = (g', Some MultiEmergency.ValueError) ∧
             length (MultiEmergency.route_positions g') < 2 ∧
             ∀ k, (MultiEmergency.frames (S k) g').2
                    = Some (MultiEmergency.Table IndexError)).

(** What a sequence of clicks leaves selected. *)
Definition clicks_spec (base_node : node) (clicks : list (option node))
    (s : MultiEmergency.selection) : Prop :=
  let ems := MultiEmergency.emergency_nodes s in
  NoDup ems ∧ (base_node ∉ ems) ∧
  length ems ≤ MultiEmergency.MAX_EMERGENCIES ∧
  (∀ e, e ∈ ems → Some e ∈ clicks) ∧
  (length ems < MultiEmergency.MAX_EMERGENCIES →
   ∀ c, Some c ∈ clicks → c ≠ base_node → c ∈ ems) ∧
  (∀ n, MultiEmergency.node_color_map s !! n = Some TARGET_COLOR ↔ n ∈ ems) ∧
  MultiEmergency.node_color_map s !! base_node = Some BASE_COLOR.

(** ** The animation of [animation.py]

    [anim_step], [start_dijkstra_to] and [on_click] of the one-ambulance
    script.  A generator object is the events it has still to yield and the
    way it ends; the ambulance icon is where it is drawn, a node standing
    for its position. *)

Module AnimationLoop.

Definition AMBULANCE_MOVE_FRAMES : nat := 12.

Definition generator : Type := list event * termination.

Record globals := Globals {
  node_color_map : gmap Z color;
  dijkstra_gen : option generator;
  path_nodes : list node;
  ambulance_index : nat;
  ambulance_moving : bool;
  frames_since_path_found : nat;
  ambulance_annot : option node
}.

(** How a call of [anim_step] ends: it returns, an exception of the search
    or of the frame itself leaves it, or it never returns. *)
Inductive outcome := Returns | Raises (e : exn) | Fails (e : error) | Hangs.

(** The globals with a new colour map and generator. *)
Definition searching (g : globals) (cm : gmap Z color) (gen : option generator)
  : globals :=
  Globals cm gen (path_nodes g) (ambulance_index g) (ambulance_moving g)
          (frames_since_path_found g) (ambulance_annot g).

(** [for n in path_nodes: node_color_map[n] = PATH_COLOR]. *)
Definition color_path (cm : gmap Z color) (path : list node) : gmap Z color :=
  foldl (fun m n => <[n := PATH_COLOR]> m) cm path.

(** [for _ in range(n)] around [next(dijkstra_gen)], inside
    [try ... except StopIteration]. *)
Fixpoint anim_events (n : nat) (events : list event) (t : termination)
    (cm : gmap Z color) (g : globals) : globals * outcome :=
  match n with
  | 0 => (searching g cm (Some (events, t)), Returns)
  | S n' =>
      match events with
      | [] =>
          match t with
          | StopIteration => (searching g cm None, Returns)
          | Raised e => (searching g cm (Some ([], StopIteration)), Raises e)
          | _ => (searching g cm (Some ([], t)), Hangs)
          end
      | Visit u :: rest => anim_events n' rest t (<[u := VISIT_COLOR]> cm) g
      | Relax v :: rest =>
          match cm !! v with
          | None => (searching g cm (Some (rest, t)), Raises KeyError)
          | Some c =>
              anim_events n' rest t
                (if decide (c = DEFAULT_NODE_COLOR)
                 then <[v := FRONTIER_COLOR]> cm else cm) g
          end
      | Done path :: rest =>
          match path with
          | [] =>
              (Globals (color_path cm path) None [] 0 true 0 (ambulance_annot g),
               Fails IndexError)
          | n0 :: _ =>
              (Globals (color_path cm path) None path 0 true 0 (Some n0), Returns)
          end
      | NoPath :: rest =>
          (Globals cm None (path_nodes g) (ambulance_index g) false
                   (frames_since_path_found g) (ambulance_annot g),
           Returns)
      end
  end.

(** The branch [elif ambulance_moving]. *)
Definition move_ambulance (g : globals) : globals * outcome :=
  let frames := S (frames_since_path_found g) in
  if decide (AMBULANCE_MOVE_FRAMES ≤ frames) then
    let index := S (ambulance_index g) in
    if decide (length (path_nodes g) ≤ index) then
      (Globals (node_color_map g) (dijkstra_gen g) (path_nodes g) index false 0
               (ambulance_annot g), Returns)
    else
      match ambulance_annot g with
      | None =>
          (Globals (node_color_map g) (dijkstra_gen g) (path_nodes g) index true 0
                   None, Fails AttributeError)
      | Some _ =>
          (Globals (node_color_map g) (dijkstra_gen g) (path_nodes g) index true 0
                   (path_nodes g !! index), Returns)
      end
  else
    (Globals (node_color_map g) (dijkstra_gen g) (path_nodes g) (ambulance_index g)
             (ambulance_moving g) frames (ambulance_annot g), Returns).

Definition anim_step (g : globals) : globals * outcome :=
  match dijkstra_gen g with
  | Some (events, t) => anim_events 6 events t (node_color_map g) g
  | None => if ambulance_moving g then move_ambulance g else (g, Returns)
  end.

(** [k] frames, up to the first one that does not return. *)
Fixpoint frames (k : nat) (g : globals) : globals * outcome :=
  match k with
  | 0 => (g, Returns)
  | S k' =>
      match frames k' g with
      | (g', Returns) => anim_step g'
      | stopped => stopped
      end
  end.

(** [start_dijkstra_to(target_node)]: the colours are reset, the search
    from the base is created, the ambulance is taken away. *)
Definition start_dijkstra_to (G : Graph) (base_node target_node : node) : globals :=
  Globals
    (<[target_node := TARGET_COLOR]>
       (<[base_node := BASE_COLOR]> ((fun _ => DEFAULT_NODE_COLOR) <$> G)))
    (Some (Animation.dijkstra_generator G base_node target_node).1)
    [] 0 false 0 None.

(** [on_click]; [nearest] as in the two-ambulance script. *)
Definition on_click (G : Graph) (base_node : node) (g : globals)
    (nearest : option node) : globals :=
  match nearest with
  | None => g
  | Some nearest =>
      if decide (nearest = base_node) then g
      else start_dijkstra_to G base_node nearest
  end.
End AnimationLoop.

(** The colours after the [visit] and [relax] events [evs]: a visited node
    takes the visit colour, a relaxed node the frontier colour if it still
    has the default one. *)
Fixpoint paint (evs : list event) (cm : gmap Z color) : gmap Z color :=
  match evs with
  | [] => cm
  | Visit u :: rest => paint rest (<[u := VISIT_COLOR]> cm)
  | Relax v :: rest =>
      paint rest (if decide (cm !! v = Some DEFAULT_NODE_COLOR)
                  then <[v := FRONTIER_COLOR]> cm else cm)
  | _ :: rest => paint rest cm
  end.

(** The frames take the events six at a time, in order: after [k] frames
    the colours are those of the first [6 k] events and the generator has
    the others left. *)
Definition batches_spec (k : nat) (g : AnimationLoop.globals)
    (evs : list event) (t : termination) : Prop :=
  AnimationLoop.frames k g
  = (AnimationLoop.searching g
       (paint (take (6 * k) evs) (AnimationLoop.node_color_map g))
       (Some (drop (6 * k) evs, t)),
     AnimationLoop.Returns).

(** The ambulance on its way along [path], [k] frames after the path was
    found: it is at node [k / 12] of the path; after [12 * len(path)] frames
    it has stopped on the last node. *)
Definition ambulance_at (cm : gmap Z color) (path : list node) (k : nat)
  : AnimationLoop.globals :=
  if decide (k < 12 * length path)
  then AnimationLoop.Globals cm None path (k / 12) true (k mod 12) (path !! (k / 12))
  else AnimationLoop.Globals cm None path (length path) false 0 (last path).

(** A click on a reachable target, whatever the globals [g] before it:
    after the frames of the search the path found is a shortest route, its
    nodes have the path colour, and the ambulance goes along it, one node
    every 12 frames, up to the target. *)
Definition drive_spec (G : Graph) (base_node target_node : node)
    (g : AnimationLoop.globals) : Prop :=
  ∃ N path cm,
    is_route G base_node target_node path ∧
    (∀ p, is_route G base_node target_node p →
       (path_weight Animation.edge_weight G path
          ≤ path_weight Animation.edge_weight G p)%Z) ∧
    (∀ n, n ∈ path → cm !! n = Some PATH_COLOR) ∧
    ∀ k, AnimationLoop.frames (N + k)
           (AnimationLoop.on_click G base_node g (Some target_node))
         = (ambulance_at cm path k, AnimationLoop.Returns).

(** A click on a target that cannot be reached, whatever the globals [g]
    before it: after the frames of the search nothing moves any more, no
    ambulance is drawn, and the nodes in the visit colour are exactly those
    reachable from the base. *)
Definition no_route_spec (G : Graph) (base_node target_node : node)
    (g : AnimationLoop.globals) : Prop :=
  ∃ N cm,
    (∀ n, reachable G base_node n → cm !! n = Some VISIT_COLOR) ∧
    (∀ n, ¬ reachable G base_node n → is_Some (G !! n) →
       cm !! n = Some (if decide (n = target_node)
                       then TARGET_COLOR else DEFAULT_NODE_COLOR)) ∧
    ∀ k, AnimationLoop.frames (N + k)
           (AnimationLoop.on_click G base_node g (Some target_node))
         = (AnimationLoop.Globals cm None [] 0 false 0 None, AnimationLoop.Returns).

(** While events are left the frames keep in step with the search of
    [start_dijkstra_to]: six events a frame, in the order of the trace. *)
Definition in_step_spec (G : Graph) (base_node target_node : node) (k : nat) : Prop :=
  batches_spec k (AnimationLoop.start_dijkstra_to G base_node target_node)
    (Animation.dijkstra_generator G base_node target_node).1.1
    (Animation.dijkstra_generator G base_node target_node).1.2.

(** * Proofs *)

(** ** The heap returns a least entry *)

Lemma entry_le_fst a b : entry_le a b = true → (a.1 ≤ b.1)%Z.
Proof. unfold entry_le. lia. Qed.

Lemma entry_le_refl a : entry_le a a = true.
Proof. unfold entry_le. lia. Qed.

Lemma entry_le_trans a b c :
  entry_le a b = true → entry_le b c = true → entry_le a c = true.
Proof. unfold entry_le. lia. Qed.

Lemma entry_le_total a b : entry_le a b = false → entry_le b a = true.
Proof. unfold entry_le. lia. Qed.

Lemma heap_min_elem x l : heap_min x l ∈ x :: l.
Proof.
  revert x. induction l as [|y l IH]; intros x; simpl.
  - apply elem_of_cons. by left.
  - specialize (IH (if entry_le x y then x else y)).
    apply elem_of_cons in IH as [-> | IH].
    + destruct (entry_le x y); set_solver.
    + set_solver.
Qed.

Lemma heap_min_le_head x l : entry_le (heap_min x l) x = true.
Proof.
  revert x. induction l as [|y l IH]; intros x; simpl.
  - apply entry_le_refl.
  - destruct (entry_le x y) eqn:E; [apply IH|].
    eapply entry_le_trans; [apply IH|]. by apply entry_le_total.
Qed.

Lemma heap_min_le x l y : y ∈ x :: l → entry_le (heap_min x l) y = true.
Proof.
  revert x. induction l as [|z l IH]; intros x Hy.
  - apply list_elem_of_singleton in Hy as ->. apply entry_le_refl.
  - apply elem_of_cons in Hy as [-> | Hy]; [apply heap_min_le_head|].
    simpl. apply elem_of_cons in Hy as [-> | Hy].
    + eapply entry_le_trans; [apply heap_min_le_head|].
      destruct (entry_le x z) eqn:E; [done | apply entry_le_refl].
    + apply IH. set_solver.
Qed.

Lemma remove_first_elem x y l : y ∈ remove_first x l → y ∈ l.
Proof.
  induction l as [|z l IH]; simpl; [done|].
  case_decide; set_solver.
Qed.

Lemma remove_first_other x y l : y ∈ l → y ≠ x → y ∈ remove_first x l.
Proof.
  induction l as [|z l IH]; simpl; [done|].
  intros Hy Hne. case_decide; set_solver.
Qed.

Lemma remove_first_length x l : x ∈ l → length l = S (length (remove_first x l)).
Proof.
  induction l as [|z l IH]; simpl; intros Hx; [by apply elem_of_nil in Hx|].
  case_decide; [done|]. simpl. rewrite <- IH; [done|]. set_solver.
Qed.

Lemma heappop_None pq : heappop pq = None → pq = [].
Proof. by destruct pq. Qed.

Lemma heappop_Some pq e pq' :
  heappop pq = Some (e, pq') →
  e ∈ pq ∧ pq' = remove_first e pq ∧ (∀ y, y ∈ pq → (e.1 ≤ y.1)%Z).
Proof.
  destruct pq as [|x l]; [done|]. unfold heappop. intros [= <- <-].
  split; [apply heap_min_elem|]. split; [done|].
  intros y Hy. by apply entry_le_fst, heap_min_le.
Qed.

(** ** Runs as sequences of loop turns *)

Lemma visited_Visit u evs : visited (Visit u :: evs) = u :: visited evs.
Proof. reflexivity. Qed.

Lemma visited_app e1 e2 : visited (e1 ++ e2) = visited e1 ++ visited e2.
Proof. apply omap_app. Qed.

Section EngineFacts.
Variable W : edge_data → Z.
Variable G : Graph.
Variables start target : node.

Local Abbreviation steps := (steps W G start target).
Local Abbreviation unsettled_degree := (unsettled_degree G).
Local Abbreviation potential := (potential G).
Local Abbreviation binv := (binv G start target).
Local Abbreviation core := (core W G start).
Local Abbreviation closed := (closed G).
Local Abbreviation inv := (inv W G start).

Lemma steps_cons st evs st1 evs' st2 :
  step W G start target st = Continue evs st1 →
  steps st1 evs' st2 →
  steps st (evs ++ evs') st2.
Proof.
  intros Hs Hr. induction Hr as [st1|st1 e1 st2 e2 st3 _ IH Hlast].
  - rewrite app_nil_r. change evs with ([] ++ evs).
    eapply steps_snoc; [apply steps_refl | done].
  - rewrite app_assoc. eapply steps_snoc; [by apply IH | done].
Qed.

Lemma run_decompose fuel st evs t st' :
  run W G start target fuel st = (evs, t, st') →
  t ≠ OutOfFuel →
  ∃ pre stl fin,
    steps st pre stl ∧ step W G start target stl = Stop fin t st' ∧
    evs = pre ++ fin.
Proof.
  revert st evs t st'. induction fuel as [|fuel IH]; intros st evs t st' Hrun Ht.
  - simpl in Hrun. by injection Hrun as <- <- <-.
  - simpl in Hrun. destruct (step W G start target st) as [e1 st1|e1 t1 st1] eqn:Hstep.
    + destruct (run W G start target fuel st1) as [[e2 t2] st2] eqn:Hr.
      injection Hrun as <- <- <-.
      destruct (IH _ _ _ _ Hr Ht) as (pre & stl & fin & Hsteps & Hfin & ->).
      exists (e1 ++ pre), stl, fin. split; [by eapply steps_cons|].
      split; [done | by rewrite app_assoc].
    + injection Hrun as <- <- <-. exists [], st, e1.
      split; [apply steps_refl | done].
Qed.

(** *** The relaxation loop only pushes *)

Lemma relax_one_cases d u v st st' evs r :
  relax_one W G d u v st = (st', evs, r) →
  (dist st !! v = None ∧ st' = st ∧ evs = [] ∧ r = Some KeyError) ∨
  (∃ dv, dist st !! v = Some dv ∧ lt_distance (d + weight W G u v) dv = true ∧
     st' = State (<[v := Finite (d + weight W G u v)%Z]> (dist st))
                 (<[v := u]> (prev st))
                 (((d + weight W G u v)%Z, v) :: pq st) (seen st) ∧
     evs = [Relax v] ∧ r = None) ∨
  (∃ dv, dist st !! v = Some (Finite dv) ∧ (dv ≤ d + weight W G u v)%Z ∧
     st' = st ∧ evs = [] ∧ r = None).
Proof.
  unfold relax_one. destruct (dist st !! v) as [dv|] eqn:Hv.
  - destruct (lt_distance _ dv) eqn:Hlt; intros [= <- <- <-].
    + right; left. by exists dv.
    + right; right. destruct dv as [dv|]; [|done]. simpl in Hlt.
      exists dv. split; [done|]. split; [lia | done].
  - intros [= <- <- <-]. by left.
Qed.

Lemma relax_loop_frame d u nbrs st st' evs r :
  relax_loop W G d u nbrs st = (st', evs, r) →
  seen st' = seen st ∧ length (pq st') ≤ length (pq st) + length nbrs ∧
  visited evs = [] ∧ Forall in_progress evs.
Proof.
  revert st st' evs r. induction nbrs as [|v rest IH]; intros st st' evs r; simpl.
  - intros [= <- <- <-]. repeat split; [lia | constructor].
  - destruct (relax_one W G d u v st) as [[st1 e1] r1] eqn:H1.
    assert (seen st1 = seen st ∧ length (pq st1) ≤ S (length (pq st)) ∧
            visited e1 = [] ∧ Forall in_progress e1) as (Hs1 & Hl1 & Hv1 & Hp1).
    { apply relax_one_cases in H1
        as [(_ & -> & -> & _)|[(dv & _ & _ & -> & -> & _)|(dv & _ & _ & -> & -> & _)]];
        simpl; repeat split; try lia; repeat constructor. }
    destruct r1 as [e|].
    + intros [= <- <- <-]. repeat split; [done | lia | done | done].
    + destruct (relax_loop W G d u rest st1) as [[st2 e2] r2] eqn:H2.
      intros [= <- <- <-]. destruct (IH _ _ _ _ H2) as (Hs2 & Hl2 & Hv2 & Hp2).
      repeat split; [congruence | lia | | by apply Forall_app].
      by rewrite visited_app, Hv1, Hv2.
Qed.

(** *** Termination: the step budget is never used up *)

Lemma degree_sum_filter_le (P : Z * list (Z * edge_data) → Prop)
    `{∀ p, Decision (P p)} L :
  degree_sum (filter P L) ≤ degree_sum L.
Proof.
  induction L as [|p L IH]; [done|].
  rewrite filter_cons. unfold degree_sum in *. case_decide; simpl; lia.
Qed.

Lemma degree_sum_settle (L : list (Z * list (Z * edge_data))) u l (sn : gset Z) :
  (u, l) ∈ L → u ∉ sn →
  degree_sum (filter (fun p => p.1 ∉ {[u]} ∪ sn) L) + length l
  ≤ degree_sum (filter (fun p => p.1 ∉ sn) L).
Proof.
  intros Hin Hu. induction L as [|p L IH]; [by apply elem_of_nil in Hin|].
  assert (degree_sum (filter (fun p => p.1 ∉ {[u]} ∪ sn) L)
          ≤ degree_sum (filter (fun p => p.1 ∉ sn) L)) as Hmono.
  { clear. induction L as [|q L IH]; [done|].
    rewrite !filter_cons. unfold degree_sum in *.
    repeat case_decide; simpl; try lia. set_solver. }
  apply elem_of_cons in Hin as [<- | Hin].
  - rewrite !filter_cons. unfold degree_sum in *. simpl.
    rewrite decide_False by set_solver. rewrite decide_True by done.
    simpl. lia.
  - specialize (IH Hin). rewrite !filter_cons. unfold degree_sum in *.
    repeat case_decide; simpl; try lia. set_solver.
Qed.

Lemma step_potential st evs st' :
  step W G start target st = Continue evs st' → potential st' < potential st.
Proof.
  unfold step. destruct (heappop (pq st)) as [[[d u] pq']|] eqn:Hpop; [|done].
  apply heappop_Some in Hpop as (Hin & -> & _).
  apply remove_first_length in Hin.
  case_decide as Hseen.
  - intros [= <- <-]. unfold potential. simpl. lia.
  - case_decide as Htgt.
    { destruct (reconstruct _ _ _ _); done. }
    unfold neighbors. destruct (G !! u) as [l|] eqn:Hu; simpl; [|done].
    destruct (relax_loop _ _ _ _ _ _) as [[st2 e2] [e|]] eqn:Hloop; [done|].
    intros [= <- <-]. apply relax_loop_frame in Hloop as (Hs & Hl & _).
    simpl in Hs, Hl. rewrite length_fmap in Hl.
    unfold potential, unsettled_degree. rewrite Hs.
    pose proof (degree_sum_settle (map_to_list G) u l (seen st)) as Hd.
    rewrite elem_of_map_to_list in Hd. specialize (Hd Hu Hseen). lia.
Qed.

Lemma run_within_budget fuel st :
  potential st < fuel → (run W G start target fuel st).1.2 ≠ OutOfFuel.
Proof.
  revert st. induction fuel as [|fuel IH]; intros st Hlt; [lia|].
  simpl. destruct (step W G start target st) as [e1 st1|e1 t1 st1] eqn:Hstep.
  - pose proof (step_potential _ _ _ Hstep).
    specialize (IH st1 ltac:(lia)).
    by destruct (run W G start target fuel st1) as [[e2 t2] st2].
  - simpl. unfold step in Hstep.
    destruct (heappop (pq st)) as [[[d u] pq']|]; [|by injection Hstep as <- <- <-].
    repeat case_decide; try done.
    + destruct (reconstruct _ _ _ _); by injection Hstep as <- <- <-.
    + destruct (neighbors G u); [|by injection Hstep as <- <- <-].
      destruct (relax_loop _ _ _ _ _ _) as [[st2 e2] [e|]]; [|done].
      by injection Hstep as <- <- <-.
Qed.

Lemma generator_terminates :
  (dijkstra_generator_with W G start target).1.2 ≠ OutOfFuel.
Proof.
  apply run_within_budget. unfold potential, fuel_of, unsettled_degree. simpl.
  do 2 apply le_n_S. apply degree_sum_filter_le.
Qed.

(** *** Every node is visited once at most *)

Lemma step_visited st :
  match step W G start target st with
  | Continue evs st' =>
      (visited evs = [] ∧ seen st' = seen st) ∨
      (∃ u, visited evs = [u] ∧ (u ∉ seen st) ∧ seen st' = {[u]} ∪ seen st)
  | Stop evs _ _ => visited evs = [] ∨ ∃ u, visited evs = [u] ∧ u ∉ seen st
  end.
Proof.
  unfold step. destruct (heappop (pq st)) as [[[d u] pq']|]; [|by left].
  case_decide as Hseen; [by left|].
  case_decide as Htgt.
  { destruct (reconstruct _ _ _ _); right; by exists u. }
  destruct (neighbors G u) as [nbrs|]; [|right; by exists u].
  destruct (relax_loop _ _ _ _ _ _) as [[st2 e2] r] eqn:Hloop.
  apply relax_loop_frame in Hloop as (Hs & _ & Hv & _).
  assert (visited (Visit u :: e2) = [u]) as Hvu.
  { by rewrite visited_Visit, Hv. }
  destruct r; right; exists u; by rewrite Hvu.
Qed.

Lemma run_visited fuel st :
  NoDup (visited (run W G start target fuel st).1.1) ∧
  ∀ u, u ∈ visited (run W G start target fuel st).1.1 → u ∉ seen st.
Proof.
  revert st. induction fuel as [|fuel IH]; intros st; simpl.
  { split; [constructor | intros u Hu; by apply elem_of_nil in Hu]. }
  pose proof (step_visited st) as Hstep.
  destruct (step W G start target st) as [e1 st1|e1 t1 st1].
  - destruct (IH st1) as [Hnd Hfresh].
    destruct (run W G start target fuel st1) as [[e2 t2] st2]. simpl in *.
    rewrite visited_app.
    destruct Hstep as [[-> Hs]|(u & -> & Hu & Hs)]; rewrite Hs in Hfresh; simpl.
    + done.
    + split.
      * constructor; [|done]. intros Hin. apply Hfresh in Hin. set_solver.
      * intros x [-> | Hx]%elem_of_cons; [done|]. apply Hfresh in Hx. set_solver.
  - simpl. destruct Hstep as [-> | (u & -> & Hu)].
    + split; [constructor | intros u Hu; by apply elem_of_nil in Hu].
    + split; [apply NoDup_singleton|]. by intros x ->%list_elem_of_singleton.
Qed.

Lemma steps_in_progress st pre st' : steps st pre st' → Forall in_progress pre.
Proof.
  induction 1 as [|st evs st1 e1 st2 _ IH Hstep]; [constructor|].
  apply Forall_app. split; [done|]. clear IH. unfold step in Hstep.
  destruct (heappop (pq st1)) as [[[d u] pq']|]; [|done].
  case_decide; [injection Hstep as <- <-; constructor|].
  case_decide; [by destruct (reconstruct _ _ _ _)|].
  destruct (neighbors G u) as [nbrs|]; [|done].
  destruct (relax_loop _ _ _ _ _ _) as [[st3 e3] [e|]] eqn:Hloop; [done|].
  injection Hstep as <- <-. apply relax_loop_frame in Hloop as (_ & _ & _ & Hp).
  by constructor.
Qed.

(** *** What holds of every search: frontier nodes are reachable nodes *)

Section WellFormed.
Hypothesis Hwf : graph_wf G.
Hypothesis Hstart : is_Some (G !! start).

Lemma binv_init : binv (init_state G start).
Proof.
  split; simpl.
  - intros d x [= -> ->]%list_elem_of_singleton. split; [done | apply rtc_refl].
  - intros v [l Hv]. destruct (decide (start = v)) as [->|Hne].
    + rewrite lookup_insert_eq. eauto.
    + rewrite lookup_insert_ne by done. rewrite lookup_fmap, Hv. eauto.
  - set_solver.
Qed.

Lemma relax_one_binv d u v st st' evs r :
  binv st → reachable G start u → adjacent G u v →
  relax_one W G d u v st = (st', evs, r) →
  binv st' ∧ r = None.
Proof.
  intros [Hpq Hdom Htgt] Hu Hadj Hone.
  apply relax_one_cases in Hone
    as [(Hnone & _)|[(dv & _ & _ & -> & _ & ->)|(dv & _ & _ & -> & _ & ->)]].
  - destruct (Hdom v (Hwf _ _ Hadj)) as [? ?]. congruence.
  - split; [|done]. split; simpl.
    + intros d' x [[= -> ->] | Hin]%elem_of_cons; [|by eapply Hpq].
      split; [by eapply Hwf | by eapply rtc_r].
    + intros x Hx. destruct (decide (v = x)) as [->|Hne].
      * rewrite lookup_insert_eq. eauto.
      * rewrite lookup_insert_ne by done. by apply Hdom.
    + done.
  - done.
Qed.

Lemma relax_loop_binv d u nbrs st st' evs r :
  binv st → reachable G start u → (∀ v, v ∈ nbrs → adjacent G u v) →
  relax_loop W G d u nbrs st = (st', evs, r) →
  binv st' ∧ r = None.
Proof.
  revert st st' evs r. induction nbrs as [|v rest IH];
    intros st st' evs r Hinv Hu Hadj; simpl.
  - by intros [= <- <- <-].
  - destruct (relax_one W G d u v st) as [[st1 e1] r1] eqn:H1.
    apply relax_one_binv in H1 as [Hinv1 ->]; [|done|done|apply Hadj; set_solver].
    destruct (relax_loop W G d u rest st1) as [[st2 e2] r2] eqn:H2.
    intros [= <- <- <-]. eapply IH; [done | done | | done].
    intros x Hx. apply Hadj. set_solver.
Qed.

Lemma step_binv st evs st' :
  binv st → step W G start target st = Continue evs st' → binv st'.
Proof.
  intros Hinv. pose proof Hinv as [Hpq Hdom Htgt]. unfold step.
  destruct (heappop (pq st)) as [[[d u] pq']|] eqn:Hpop; [|done].
  apply heappop_Some in Hpop as (Hin & -> & _).
  assert (∀ d' x, (d', x) ∈ remove_first (d, u) (pq st) →
            is_Some (G !! x) ∧ reachable G start x) as Hpq'.
  { intros d' x Hx. eapply Hpq, remove_first_elem, Hx. }
  case_decide as Hseen; [intros [= <- <-]; by split|].
  case_decide as Hne; [by destruct (reconstruct _ _ _ _)|].
  destruct (neighbors G u) as [nbrs|] eqn:Hnb; [|done].
  destruct (relax_loop _ _ _ _ _ _) as [[st2 e2] r] eqn:Hloop.
  apply relax_loop_binv in Hloop as [Hinv2 ->].
  - by intros [= <- <-].
  - split; simpl; [done | done | set_solver].
  - by apply (Hpq d u).
  - intros v Hv. by exists nbrs.
Qed.

Lemma steps_binv st pre st' : binv st → steps st pre st' → binv st'.
Proof. intros Hinv Hsteps. induction Hsteps; eauto using step_binv. Qed.

(** How the last turn of the loop can end. *)
Lemma step_stop_binv st fin t st' :
  binv st → step W G start target st = Stop fin t st' →
  (pq st = [] ∧ fin = [NoPath] ∧ t = StopIteration ∧ st' = st) ∨
  (∃ d pq', heappop (pq st) = Some ((d, target), pq') ∧ (target ∉ seen st) ∧
     st' = State (dist st) (prev st) pq' ({[target]} ∪ seen st) ∧
     match reconstruct (S (size (seen st'))) (prev st) start target with
     | Some path => fin = [Visit target; Done path] ∧ t = StopIteration
     | None => fin = [Visit target] ∧ t = Hang
     end).
Proof.
  intros Hinv. pose proof Hinv as [Hpq Hdom Htgt]. unfold step.
  destruct (heappop (pq st)) as [[[d u] pq']|] eqn:Hpop.
  2:{ intros [= <- <- <-]. left. by apply heappop_None in Hpop. }
  pose proof Hpop as (Hin & -> & _)%heappop_Some.
  case_decide as Hseen; [done|].
  case_decide as Hne.
  { subst u. simpl. intros Hfin. right. eexists d, _.
    split; [done|]. split; [done|].
    destruct (reconstruct _ _ _ _) eqn:Hrec; injection Hfin as <- <- <-;
      (split; [done|]); simpl; by rewrite Hrec. }
  destruct (Hpq _ _ Hin) as [[l Hl] Hreach].
  unfold neighbors. rewrite Hl. simpl.
  destruct (relax_loop _ _ _ _ _ _) as [[st2 e2] r] eqn:Hloop.
  apply relax_loop_binv in Hloop as [_ ->]; [done | | done |].
  - split; simpl; [|done|set_solver].
    intros d' x Hx. eapply Hpq, remove_first_elem, Hx.
  - intros v Hv. exists (l.*1). split; [|done]. unfold neighbors. by rewrite Hl.
Qed.

(** An unreachable target: the search ends with [no_path]. *)
Lemma unreachable_no_path :
  ¬ reachable G start target →
  ∃ pre st,
    dijkstra_generator_with W G start target
      = (pre ++ [NoPath], StopIteration, st) ∧
    Forall in_progress pre.
Proof.
  intros Hunreach. pose proof generator_terminates as Hterm.
  unfold dijkstra_generator_with in *.
  destruct (run W G start target (fuel_of G) (init_state G start))
    as [[evs t] st] eqn:Hrun.
  destruct (run_decompose _ _ _ _ _ Hrun Hterm)
    as (pre & stl & fin & Hsteps & Hfin & ->).
  pose proof (steps_binv _ _ _ binv_init Hsteps) as Hinv.
  destruct (step_stop_binv _ _ _ _ Hinv Hfin)
    as [(_ & -> & -> & _)|(d & pq' & Hpop & _)].
  - exists pre, st. split; [done|]. by eapply steps_in_progress.
  - apply heappop_Some in Hpop as (Hin & _).
    destruct Hunreach. by eapply (binv_pq _ Hinv).
Qed.

(** *** Non-negative lengths: distances and predecessors *)

Section NonNegative.
Hypothesis Hnonneg : ∀ u v, adjacent G u v → (0 ≤ weight W G u v)%Z.

Lemma core_init : core (fun _ => 0) (init_state G start).
Proof.
  assert (∀ x dx, dist (init_state G start) !! x = Some (Finite dx) →
            x = start ∧ dx = 0%Z) as Hfin.
  { simpl. intros x dx. destruct (decide (start = x)) as [->|Hne].
    - rewrite lookup_insert_eq. by intros [= <-].
    - rewrite lookup_insert_ne by done. rewrite lookup_fmap.
      by destruct (G !! x). }
  split.
  - simpl. by rewrite lookup_insert_eq.
  - done.
  - intros d x [= -> ->]%list_elem_of_singleton. exists 0%Z.
    simpl. rewrite lookup_insert_eq. split; [done | lia].
  - intros x dx [-> ->]%Hfin _. simpl. by apply list_elem_of_singleton.
  - simpl. set_solver.
  - done.
  - intros v dv [-> _]%Hfin. done.
Qed.

Lemma settle_core rk st d u pq' :
  core rk st → heappop (pq st) = Some ((d, u), pq') → u ∉ seen st →
  core (fun x => if decide (x = u) then size (seen st) else rk x)
       (State (dist st) (prev st) pq' ({[u]} ∪ seen st)) ∧
  relaxing d u (State (dist st) (prev st) pq' ({[u]} ∪ seen st)).
Proof.
  intros [Hs Hps Hpq Hfront Hseen Hprev Hhas] Hpop Hu.
  apply heappop_Some in Hpop as (Hin & -> & Hmin).
  destruct (Hpq _ _ Hin) as (du & Hdu & Hdu0 & Hdud).
  assert (du = d) as ->.
  { pose proof (Hmin _ (Hfront _ _ Hdu Hu)). simpl in *. lia. }
  assert (size ({[u]} ∪ seen st) = S (size (seen st))) as Hsize.
  { rewrite size_union by set_solver. by rewrite size_singleton. }
  split; [split|]; simpl.
  - done.
  - done.
  - intros d' x Hx. eapply Hpq, remove_first_elem, Hx.
  - intros x dx Hx Hnot. apply remove_first_other; [apply Hfront; set_solver|].
    intros [= -> ->]. set_solver.
  - intros u' Hu'. rewrite Hsize. destruct (decide (u' = u)) as [->|Hne].
    + exists d. repeat split; [done | lia | lia |].
      intros d' x Hx%remove_first_elem. apply (Hmin _ Hx).
    + destruct (Hseen u') as (du' & ? & ? & ? & Hle); [set_solver|].
      exists du'. repeat split; [done | lia | lia |].
      intros d' x Hx%remove_first_elem. by eapply Hle.
  - intros v u' Hv. destruct (Hprev _ _ Hv) as (Hu' & Hadj & Hd & Hrk).
    split; [set_solver|]. split; [done|]. split; [done|].
    intros Hvs. rewrite (decide_False (P := u' = u)) by set_solver.
    destruct (Hseen _ Hu') as (_ & _ & _ & Hlt & _).
    case_decide; [lia|]. apply Hrk. set_solver.
  - done.
  - split; [set_solver|]. split; [done|]. split; [lia|].
    intros u' [->%elem_of_singleton | Hu']%elem_of_union.
    + exists d. split; [done | lia].
    + destruct (Hseen _ Hu') as (du' & ? & _ & _ & Hle).
      exists du'. split; [done|]. by eapply Hle.
Qed.

Lemma relax_one_core rk d u v st st' evs r :
  core rk st → relaxing d u st → adjacent G u v →
  relax_one W G d u v st = (st', evs, r) →
  core rk st' ∧ relaxing d u st' ∧ dist_kept st st' ∧
  (r = None → ∃ dv, dist st' !! v = Some (Finite dv)).
Proof.
  intros Hcore (Hus & Hud & Hd0 & Hle) Hadj Hone.
  pose proof Hcore as [Hs Hps Hpq Hfront Hseen Hprev Hhas].
  pose proof (Hnonneg _ _ Hadj) as Hw.
  apply relax_one_cases in Hone
    as [(_ & -> & _ & ->)|[(dv & Hv & Hlt & -> & _ & _)|(dv & Hv & _ & -> & _ & _)]].
  - split; [done|]. split; [done|]. split; [intros x dx Hx; eauto | done].
  - set (nd := (d + weight W G u v)%Z) in *.
    assert (v ∉ seen st) as Hvs.
    { intros Hin. destruct (Hle _ Hin) as (dv' & Hv' & ?).
      rewrite Hv in Hv'. injection Hv' as ->. simpl in Hlt. lia. }
    assert (v ≠ start) as Hvstart.
    { intros ->. rewrite Hs in Hv. injection Hv as <-. simpl in Hlt. lia. }
    assert (v ≠ u) as Hvu by (intros ->; done).
    assert (∀ x, x ∈ seen st → dist (State (<[v:=Finite nd]> (dist st))
              (<[v:=u]> (prev st)) ((nd, v) :: pq st) (seen st)) !! x
              = dist st !! x) as Hkeep.
    { intros x Hx. simpl. apply lookup_insert_ne. by intros ->. }
    split; [split|]; simpl.
    + by rewrite lookup_insert_ne.
    + by rewrite lookup_insert_ne.
    + intros d' x [[= -> ->] | Hin]%elem_of_cons.
      * exists nd. rewrite lookup_insert_eq. split; [done | lia].
      * destruct (Hpq _ _ Hin) as (dx & Hdx & ? & ?).
        destruct (decide (v = x)) as [->|Hne].
        -- exists nd. rewrite lookup_insert_eq. split; [done|].
           rewrite Hv in Hdx. injection Hdx as ->. simpl in Hlt. lia.
        -- exists dx. rewrite lookup_insert_ne by done. split; [done | lia].
    + intros x dx Hx Hxs. destruct (decide (v = x)) as [->|Hne].
      * rewrite lookup_insert_eq in Hx. injection Hx as <-. set_solver.
      * rewrite lookup_insert_ne in Hx by done. apply elem_of_cons. right.
        by apply Hfront.
    + intros u' Hu'. destruct (Hseen _ Hu') as (du' & Hdu' & ? & ? & Hmin).
      exists du'. rewrite lookup_insert_ne by (by intros ->).
      repeat split; [done | lia | lia |].
      intros d' x [[= -> ->] | Hin]%elem_of_cons; [|by eapply Hmin].
      destruct (Hle _ Hu') as (du'' & Hdu'' & ?).
      rewrite Hdu' in Hdu''. injection Hdu'' as <-. lia.
    + intros a b Hab. destruct (decide (v = a)) as [->|Hne].
      * rewrite lookup_insert_eq in Hab. injection Hab as <-.
        split; [done|]. split; [done|]. split; [|done].
        exists d. rewrite lookup_insert_ne by done. by rewrite lookup_insert_eq.
      * rewrite lookup_insert_ne in Hab by done.
        destruct (Hprev _ _ Hab) as (Hb & Hadj' & (db & Hdb & Hda) & Hrk).
        split; [done|]. split; [done|]. split; [|done].
        exists db. rewrite !lookup_insert_ne; [done | done | by intros ->].
    + intros x dx Hx Hne. destruct (decide (v = x)) as [->|Hvx].
      * rewrite lookup_insert_eq. eauto.
      * rewrite lookup_insert_ne in Hx by done. rewrite lookup_insert_ne by done.
        by eapply Hhas.
    + unfold relaxing, dist_kept. simpl. split; [|split].
      * split; [done|]. split; [by rewrite lookup_insert_ne|]. split; [done|].
        intros u' Hu'. rewrite lookup_insert_ne by (by intros ->). by apply Hle.
      * intros x dx Hx. destruct (decide (v = x)) as [->|Hvx].
        -- rewrite lookup_insert_eq. eauto.
        -- rewrite lookup_insert_ne by done. eauto.
      * intros _. rewrite lookup_insert_eq. eauto.
  - split; [done|]. split; [done|]. split; [intros x dx Hx; eauto | eauto].
Qed.

Lemma relax_loop_core rk d u nbrs st st' evs r :
  core rk st → relaxing d u st → (∀ v, v ∈ nbrs → adjacent G u v) →
  relax_loop W G d u nbrs st = (st', evs, r) →
  core rk st' ∧ relaxing d u st' ∧ dist_kept st st' ∧
  (r = None → ∀ v, v ∈ nbrs → ∃ dv, dist st' !! v = Some (Finite dv)).
Proof.
  revert st st' evs r. induction nbrs as [|v rest IH];
    intros st st' evs r Hcore Hrel Hadj; simpl.
  - intros [= <- <- <-]. split; [done|]. split; [done|]. split.
    + intros x dx Hx. eauto.
    + intros _ v Hv. by apply elem_of_nil in Hv.
  - destruct (relax_one W G d u v st) as [[st1 e1] r1] eqn:H1.
    apply relax_one_core with (rk := rk) in H1
      as (Hcore1 & Hrel1 & Hkept1 & Hv1); [|done|done|apply Hadj; set_solver].
    destruct r1 as [e|]; [by intros [= <- <- <-]|].
    destruct (relax_loop W G d u rest st1) as [[st2 e2] r2] eqn:H2.
    intros [= <- <- <-].
    apply IH in H2 as (Hcore2 & Hrel2 & Hkept2 & Hv2);
      [|done|done|intros x Hx; apply Hadj; set_solver].
    split; [done|]. split; [done|]. split.
    + intros x dx Hx. destruct (Hkept1 _ _ Hx) as [dx' Hx']. by eapply Hkept2.
    + intros -> x [-> | Hx]%elem_of_cons; [|by apply Hv2].
      destruct (Hv1 eq_refl) as [dv Hdv]. by eapply Hkept2.
Qed.

Lemma step_inv st evs st' :
  inv st → step W G start target st = Continue evs st' → inv st'.
Proof.
  intros (rk & Hcore & Hclosed). unfold step.
  destruct (heappop (pq st)) as [[[d u] pq']|] eqn:Hpop; [|done].
  case_decide as Hseen.
  - intros [= <- <-]. exists rk. split; [|done].
    apply heappop_Some in Hpop as (Hin & -> & _).
    destruct Hcore as [Hs Hps Hpq Hfront Hsn Hprev Hhas]. split; simpl; try done.
    + intros d' x Hx. eapply Hpq, remove_first_elem, Hx.
    + intros x dx Hx Hnot. apply remove_first_other; [by apply Hfront|].
      intros [= -> ->]. done.
    + intros u' Hu'. destruct (Hsn _ Hu') as (du' & ? & ? & ? & Hle).
      exists du'. repeat split; try done.
      intros d' x Hx%remove_first_elem. by eapply Hle.
  - case_decide as Hne; [by destruct (reconstruct _ _ _ _)|].
    destruct (neighbors G u) as [nbrs|] eqn:Hnb; [|done].
    destruct (settle_core _ _ _ _ _ Hcore Hpop Hseen) as [Hcore1 Hrel1].
    destruct (relax_loop _ _ _ _ _ _) as [[st2 e2] [e|]] eqn:Hloop; [done|].
    intros [= <- <-].
    pose proof (relax_loop_frame _ _ _ _ _ _ _ Hloop) as (Hs2 & _).
    eapply relax_loop_core in Hloop as (Hcore2 & Hrel2 & Hkept & Hnb2);
      [|done|done|intros v Hv; by exists nbrs].
    eexists. split; [done|].
    intros a b Ha Hadj. rewrite Hs2 in Ha. simpl in Ha.
    apply elem_of_union in Ha as [->%elem_of_singleton | Ha].
    + destruct Hadj as (nbrs' & Hnb' & Hb). rewrite Hnb in Hnb'.
      injection Hnb' as <-. by apply Hnb2.
    + destruct (Hclosed _ _ Ha Hadj) as [db Hdb]. by eapply Hkept.
Qed.

Lemma steps_inv st pre st' : inv st → steps st pre st' → inv st'.
Proof. intros Hinv Hsteps. induction Hsteps; eauto using step_inv. Qed.

Lemma inv_init : inv (init_state G start).
Proof.
  exists (fun _ => 0). split; [apply core_init|].
  intros u v Hu. simpl in Hu. set_solver.
Qed.

(** With an empty frontier every reachable node is settled. *)
Lemma exhausted_settled rk st x :
  core rk st → closed st → pq st = [] → reachable G start x → x ∈ seen st.
Proof.
  intros Hcore Hclosed Hempty Hreach.
  assert (∀ y dy, dist st !! y = Some (Finite dy) → y ∈ seen st) as Hfin.
  { intros y dy Hy. destruct (decide (y ∈ seen st)) as [|Hn]; [done|].
    pose proof (core_front _ _ Hcore _ _ Hy Hn) as Hin.
    rewrite Hempty in Hin. by apply elem_of_nil in Hin. }
  apply rtc_nsteps in Hreach as [n Hreach]. revert x Hreach.
  induction n as [|n IH]; intros x Hreach.
  - inversion Hreach; subst.
    eapply Hfin, (core_start _ _ Hcore).
  - apply nsteps_inv_r in Hreach as (y & Hy & Hadj).
    destruct (Hclosed _ _ (IH _ Hy) Hadj) as [dx Hdx]. by eapply Hfin.
Qed.

Lemma path_weight_snoc q a b :
  last q = Some a →
  path_weight W G (q ++ [b]) = (path_weight W G q + weight W G a b)%Z.
Proof.
  induction q as [|x [|y q] IH]; intros Hlast.
  - done.
  - injection Hlast as ->. simpl. lia.
  - change (path_weight W G ((x :: y :: q) ++ [b]))
      with (weight W G x y + path_weight W G ((y :: q) ++ [b]))%Z.
    rewrite IH by done. simpl. lia.
Qed.

Lemma is_path_snoc q a b :
  last q = Some a → is_path G q → adjacent G a b → is_path G (q ++ [b]).
Proof.
  induction q as [|x [|y q] IH]; intros Hlast Hq Hab.
  - done.
  - injection Hlast as ->. by split.
  - destruct Hq as [Hxy Hq]. split; [done|]. by apply IH.
Qed.

(** The path walk from a settled node ends, at the origin, and what it
    collects is a path of the graph whose length is the distance. *)
Lemma walk_settled rk st n cur :
  core rk st → cur ∈ seen st → rk cur < n →
  ∃ chain,
    (∀ acc, walk n (prev st) cur acc = Some (acc ++ chain)) ∧
    last (start :: rev chain) = Some cur ∧
    is_path G (start :: rev chain) ∧
    dist st !! cur = Some (Finite (path_weight W G (start :: rev chain))).
Proof.
  intros Hcore. revert cur. induction n as [|n IH]; intros cur Hcur Hrk; [lia|].
  destruct (prev st !! cur) as [p|] eqn:Hp.
  - destruct (core_prev _ _ Hcore _ _ Hp) as (Hps & Hadj & (dp & Hdp & Hdc) & Hlt).
    specialize (Hlt Hcur).
    destruct (IH p Hps ltac:(lia)) as (chain & Hwalk & Hlast & Hpath & Hdist).
    rewrite Hdp in Hdist. injection Hdist as ->.
    exists (cur :: chain).
    change (start :: rev (cur :: chain)) with ((start :: rev chain) ++ [cur]).
    split; [|split; [|split]].
    + intros acc. simpl. rewrite Hp, Hwalk. by rewrite <- app_assoc.
    + apply last_snoc.
    + by eapply is_path_snoc.
    + by rewrite (path_weight_snoc _ p).
  - destruct (core_seen _ _ Hcore _ Hcur) as (dc & Hdc & _).
    assert (cur = start) as ->.
    { destruct (decide (cur = start)) as [|Hne]; [done|].
      destruct (core_has_prev _ _ Hcore _ _ Hdc Hne) as [? ?]. congruence. }
    exists []. split; [|split; [|split]].
    + intros acc. simpl. by rewrite Hp, app_nil_r.
    + done.
    + done.
    + apply (core_start _ _ Hcore).
Qed.

(** A reachable target: the search ends with [done] and a path from
    the origin to the target whose length is [dist[target]]. *)
Lemma reachable_done :
  reachable G start target →
  ∃ pre path st,
    dijkstra_generator_with W G start target
      = (pre ++ [Visit target; Done path], StopIteration, st) ∧
    Forall in_progress pre ∧
    head path = Some start ∧ last path = Some target ∧
    is_path G path ∧
    dist st !! target = Some (Finite (path_weight W G path)).
Proof.
  intros Hreach. pose proof generator_terminates as Hterm.
  unfold dijkstra_generator_with in *.
  destruct (run W G start target (fuel_of G) (init_state G start))
    as [[evs t] st] eqn:Hrun.
  destruct (run_decompose _ _ _ _ _ Hrun Hterm)
    as (pre & stl & fin & Hsteps & Hfin & ->).
  pose proof (steps_binv _ _ _ binv_init Hsteps) as Hbinv.
  destruct (steps_inv _ _ _ inv_init Hsteps) as (rk & Hcore & Hclosed).
  destruct (step_stop_binv _ _ _ _ Hbinv Hfin)
    as [(Hempty & _)|(d & pq' & Hpop & Htgt & -> & Hrec)].
  { destruct (binv_target _ Hbinv). by eapply exhausted_settled. }
  destruct (settle_core _ _ _ _ _ Hcore Hpop Htgt) as [Hcore1 _].
  set (st1 := State (dist stl) (prev stl) pq' ({[target]} ∪ seen stl)) in *.
  destruct (walk_settled _ st1 (S (size (seen st1))) target Hcore1)
    as (chain & Hwalk & Hlast & Hpath & Hdist).
  { simpl. set_solver. }
  { destruct (core_seen _ _ Hcore1 target) as (_ & _ & _ & Hlt & _);
      [simpl; set_solver|]. simpl in *. lia. }
  unfold reconstruct in Hrec. change (prev stl) with (prev st1) in Hrec.
  rewrite (Hwalk []) in Hrec. simpl in Hrec. destruct Hrec as [-> ->].
  rewrite rev_app_distr. simpl.
  exists pre, (start :: rev chain), st1.
  split; [done|]. split; [by eapply steps_in_progress|]. done.
Qed.
End NonNegative.
End WellFormed.
End EngineFacts.

(** ** Non-negative lengths give non-negative weights *)

Lemma min_list_nonneg x l :
  (0 ≤ x)%Z → Forall (fun y => (0 ≤ y)%Z) l → (0 ≤ min_list x l)%Z.
Proof.
  unfold min_list. revert x. induction l as [|y l IH]; intros x Hx Hl; simpl; [done|].
  apply Forall_cons in Hl as [Hy Hl]. apply IH; [lia | done].
Qed.

Lemma assoc_elem {A} v (l : list (Z * A)) a : assoc v l = Some a → (v, a) ∈ l.
Proof.
  induction l as [|[k b] l IH]; simpl; [done|].
  case_decide as Hk; [intros [= ->]; subst; set_solver|].
  intros Ha. apply elem_of_cons. right. by apply IH.
Qed.

Lemma animation_weight_nonneg data :
  nonneg_edge data → (0 ≤ Animation.edge_weight data)%Z.
Proof.
  destruct data as [m|[x|]]; simpl; intros Hnn; [|by apply Hnn|lia].
  destruct (negb _ && _); [|lia].
  destruct (omap snd (map_to_list m)) as [|x lengths] eqn:Hl; [lia|].
  assert (Forall (fun y => (0 ≤ y)%Z) (x :: lengths)) as Hall.
  { rewrite <- Hl. apply Forall_forall. intros y Hy.
    apply list_elem_of_omap in Hy as ([k o] & Hin & Ho). simpl in Ho. subst o.
    apply elem_of_map_to_list in Hin. by eapply Hnn. }
  apply Forall_cons in Hall as [? ?]. by apply min_list_nonneg.
Qed.

Lemma upgrade_weight_nonneg data :
  nonneg_edge data → (0 ≤ Upgrade.edge_weight data)%Z.
Proof.
  destruct data as [m|[x|]]; simpl; intros Hnn; [|by apply Hnn|lia].
  destruct (negb _ && _); [|lia].
  destruct (_ <$> map_to_list m) as [|x lengths] eqn:Hl; [lia|].
  assert (Forall (fun y => (0 ≤ y)%Z) (x :: lengths)) as Hall.
  { rewrite <- Hl. apply Forall_forall. intros y Hy.
    apply list_elem_of_fmap in Hy as ([k [o|]] & -> & Hin); simpl; [|lia].
    apply elem_of_map_to_list in Hin. by eapply Hnn. }
  apply Forall_cons in Hall as [? ?]. by apply min_list_nonneg.
Qed.

Lemma weight_nonneg (W : edge_data → Z) (G : Graph) u v :
  (∀ data, nonneg_edge data → (0 ≤ W data)%Z) →
  nonneg_lengths G → (0 ≤ weight W G u v)%Z.
Proof.
  intros HW HG. unfold weight, get_edge_data. apply HW.
  destruct (G !! u) as [l|] eqn:Hu; simpl; [|intros k x; by rewrite lookup_empty].
  destruct (assoc v l) as [data|] eqn:Ha; simpl; [|intros k x; by rewrite lookup_empty].
  eapply HG; [done | by apply assoc_elem].
Qed.

(** ** The search engine: main results *)

(** C1.  On a graph with non-negative edge lengths and a target reachable
    from the origin, the generator (of [animation.py] and of [upgrade.py])
    ends with [done]: its path starts at the origin, ends at the target,
    follows edges of the graph, and the sum of the edge weights between its
    consecutive nodes is the [dist[target]] the engine holds when it has
    settled the target. *)
Theorem done_path_length (G : Graph) (start target : node) :
  graph_wf G → is_Some (G !! start) → nonneg_lengths G →
  reachable G start target →
  found_spec Animation.edge_weight G start target
    (Animation.dijkstra_generator G start target) ∧
  found_spec Upgrade.edge_weight G start target
    (Upgrade.dijkstra_generator G start target).
Proof.
  intros Hwf Hstart Hnn Hreach. split.
  - apply reachable_done; try done.
    intros u v _. apply weight_nonneg; [apply animation_weight_nonneg | done].
  - apply reachable_done; try done.
    intros u v _. apply weight_nonneg; [apply upgrade_weight_nonneg | done].
Qed.

(** C3.  When the target cannot be reached from the origin, the generator
    yields in-progress events only, then exactly one [no_path], and returns
    normally: no [done], no exception.  The same holds of the generator of
    [upgrade.py]. *)
Theorem unreachable_exhausted (G : Graph) (start target : node) :
  graph_wf G → is_Some (G !! start) → ¬ reachable G start target →
  exhausted_spec (Animation.dijkstra_generator G start target) ∧
  (∀ p, Done p ∉ (Animation.dijkstra_generator G start target).1.1) ∧
  count_no_path (Animation.dijkstra_generator G start target).1.1 = 1 ∧
  exhausted_spec (Upgrade.dijkstra_generator G start target).
Proof.
  intros Hwf Hstart Hunreach.
  assert (exhausted_spec (Upgrade.dijkstra_generator G start target)) as Hup.
  { destruct (unreachable_no_path Upgrade.edge_weight G start target Hwf Hstart Hunreach)
      as (pre & st & Hrun & Hpre). by exists pre, st. }
  destruct (unreachable_no_path Animation.edge_weight G start target Hwf Hstart Hunreach)
    as (pre & st & Hrun & Hpre).
  unfold Animation.dijkstra_generator. rewrite Hrun. simpl.
  split; [by exists pre, st|]. split; [|split; [|done]].
  - intros p [Hin | Hin]%elem_of_app.
    + by apply (proj1 (Forall_forall _ _) Hpre) in Hin.
    + by apply list_elem_of_singleton in Hin.
  - unfold count_no_path. rewrite List.filter_app, length_app. simpl.
    clear Hrun. induction Hpre as [|e pre He _ IH]; [done|].
    simpl. by destruct e.
Qed.

(** C4.  A popped entry whose node is already settled is dropped: the turn
    of the loop yields nothing and changes nothing but the heap.  And in
    every run, whatever the graph, no node is visited twice. *)
Theorem stale_entry_skipped (W : edge_data → Z) (G : Graph) (start target : node) :
  (∀ st d u pq',
     heappop (pq st) = Some ((d, u), pq') → u ∈ seen st →
     step W G start target st
       = Continue [] (State (dist st) (prev st) pq' (seen st))) ∧
  NoDup (visited (dijkstra_generator_with W G start target).1.1).
Proof.
  split.
  - intros st d u pq' Hpop Hseen. unfold step. rewrite Hpop.
    by rewrite decide_True.
  - apply run_visited.
Qed.


Lemma run_S W G start target fuel st :
  run W G start target (S fuel) st =
  match step W G start target st with
  | Stop evs t st' => (evs, t, st')
  | Continue evs st' =>
      let '(evs', t, st'') := run W G start target fuel st' in
      (evs ++ evs', t, st'')
  end.
Proof. reflexivity. Qed.

Lemma heappop_singleton e : heappop [e] = Some (e, []).
Proof. unfold heappop. cbn [heap_min remove_first]. by rewrite decide_True. Qed.

Lemma reconstruct_origin n (pred : gmap Z Z) (origin : node) :
  pred !! origin = None → reconstruct (S n) pred origin origin = Some [origin].
Proof. intros H. unfold reconstruct. simpl. by rewrite H. Qed.

(** C9.  With origin = destination the generator visits the origin and ends
    with [done] carrying [[origin]], on every graph; and the path
    reconstruction from the origin to itself is [[origin]] whenever the
    origin has no predecessor. *)
Theorem origin_is_target (G : Graph) (origin : node) (pred : gmap Z Z) (n : nat) :
  pred !! origin = None →
  (Animation.dijkstra_generator G origin origin).1
    = ([Visit origin; Done [origin]], StopIteration) ∧
  reconstruct (S n) pred origin origin = Some [origin].
Proof.
  intros Hprev. split; [|by apply reconstruct_origin].
  unfold Animation.dijkstra_generator, dijkstra_generator_with, fuel_of.
  change (2 + ?n) with (S (S n)). rewrite run_S.
  unfold step. change (pq (init_state G origin)) with [(0%Z, origin)].
  rewrite heappop_singleton. cbn [seen init_state prev].
  rewrite decide_False by set_solver. rewrite decide_True by done.
  by rewrite reconstruct_origin.
Qed.

(** ** Facts about [mapM] on results *)

Lemma mapM_cons_Ok {A B} (f : A → result B) x l ys :
  mapM f (x :: l) = Ok ys ↔
  ∃ y k, f x = Ok y ∧ mapM f l = Ok k ∧ ys = y :: k.
Proof.
  simpl. unfold mbind, result_bind, mret, result_ret. split.
  - destruct (f x) as [y|e]; [|done]. destruct (mapM f l) as [k|e]; [|done].
    intros [= <-]. by exists y, k.
  - intros (y & k & -> & -> & ->). done.
Qed.

Lemma mapM_Ok_lookup {A B} (f : A → result B) l ys i x :
  mapM f l = Ok ys → l !! i = Some x →
  ∃ y, f x = Ok y ∧ ys !! i = Some y.
Proof.
  revert ys i. induction l as [|a l IH]; intros ys i Hm Hi; [done|].
  apply mapM_cons_Ok in Hm as (y & k & Hy & Hk & ->).
  destruct i as [|i]; simpl in *.
  - injection Hi as <-. by exists y.
  - by eapply IH.
Qed.

(** ** The route builder and the distance table *)

Section DispatchFacts.
Variable nx : Graph → node → node → nx_result.
Variable G : Graph.
Variable base_node : node.
Variable emergency_nodes : list node.

Lemma extend_route_Ok full_path last_node idx p :
  last full_path = Some last_node →
  index (points base_node emergency_nodes) idx = Ok p →
  extend_route nx G base_node emergency_nodes full_path idx
    = Ok (full_path ++ drop 1 (dijkstra_shortest_path nx G last_node p)).
Proof.
  intros Hlast Hp. unfold extend_route. rewrite Hlast, Hp. simpl.
  case_decide as Hlen; [done|].
  destruct (dijkstra_shortest_path nx G last_node p) as [|a [|b seg]];
    simpl in *; [by rewrite app_nil_r | by rewrite app_nil_r | lia].
Qed.

Lemma build_loop_assemble full_path route_order sites :
  full_path ≠ [] →
  mapM (index (points base_node emergency_nodes)) route_order = Ok sites →
  build_loop nx G base_node emergency_nodes full_path route_order
    = Ok (assemble_from (dijkstra_shortest_path nx G) base_node full_path sites).
Proof.
  revert full_path sites. induction route_order as [|idx rest IH];
    intros full_path sites Hne Hm.
  - injection Hm as <-. done.
  - apply mapM_cons_Ok in Hm as (p & k & Hp & Hk & ->).
    destruct (last full_path) as [last_node|] eqn:Hlast.
    2:{ apply last_None in Hlast. done. }
    simpl. rewrite (extend_route_Ok _ _ _ _ Hlast Hp). simpl.
    rewrite IH with (sites := k); [|by destruct full_path|done].
    unfold route_last. by rewrite Hlast.
Qed.

Lemma assemble_from_head segment origin route sites :
  route ≠ [] → head (assemble_from segment origin route sites) = head route.
Proof.
  revert route. induction sites as [|site rest IH]; intros route Hne; [done|].
  simpl. rewrite IH; by destruct route.
Qed.
End DispatchFacts.

(** C8.  The route built for an order of sites is the route assembled as
    the specification says: it starts as [[origin]], and for each site in
    order the shortest-path segment from the route's current last node to
    the site is appended without its first node.  The route begins at the
    origin, and for the empty order it is [[origin]]. *)
Theorem build_full_path_assembles (nx : Graph → node → node → nx_result)
    (G : Graph) (base_node : node) (emergency_nodes : list node)
    (route_order : list nat) (sites : list node) :
  mapM (index (points base_node emergency_nodes)) route_order = Ok sites →
  build_full_path nx G base_node emergency_nodes route_order
    = Ok (assemble (dijkstra_shortest_path nx G) base_node sites) ∧
  head (assemble (dijkstra_shortest_path nx G) base_node sites) = Some base_node ∧
  build_full_path nx G base_node emergency_nodes [] = Ok [base_node].
Proof.
  intros Hm. split; [|split; [by apply assemble_from_head | done]].
  destruct route_order as [|idx rest].
  - injection Hm as <-. done.
  - unfold build_full_path. by apply build_loop_assemble.
Qed.

(** C7, as the code has it.  When there is no path to a site
    ([nx.shortest_path] raises [NetworkXNoPath]), [dijkstra_shortest_path]
    answers with the empty path and the route builder goes on to the next
    site with the route unchanged: nothing is raised.  Likewise the path
    walk of the generator, asked for a target without predecessor, answers
    [[start]]. *)
Theorem no_path_is_skipped (nx : Graph → node → node → nx_result)
    (G : Graph) (base_node : node) (emergency_nodes : list node)
    (full_path : list node) (last_node : node) (idx : nat) (site : node)
    (rest : list nat) (pred : gmap Z Z) (start target : node) (n : nat) :
  last full_path = Some last_node →
  index (points base_node emergency_nodes) idx = Ok site →
  nx G last_node site = NetworkXNoPath →
  pred !! target = None →
  dijkstra_shortest_path nx G last_node site = [] ∧
  build_loop nx G base_node emergency_nodes full_path (idx :: rest)
    = build_loop nx G base_node emergency_nodes full_path rest ∧
  reconstruct (S n) pred start target = Some [start].
Proof.
  intros Hlast Hsite Hnx Hpred.
  assert (dijkstra_shortest_path nx G last_node site = []) as Hempty.
  { unfold dijkstra_shortest_path. by rewrite Hnx. }
  split; [done|]. split.
  - simpl. rewrite (extend_route_Ok _ _ _ _ _ _ _ _ Hlast Hsite), Hempty.
    simpl. by rewrite app_nil_r.
  - unfold reconstruct. simpl. by rewrite Hpred.
Qed.

(** The repository's engine in the place of [nx.shortest_path]: no path to
    an unreachable target. *)
Lemma engine_no_path (G : Graph) (s t : node) :
  graph_wf G → ¬ reachable G s t → engine_shortest_path G s t = NetworkXNoPath.
Proof.
  intros Hwf Hunreach. unfold engine_shortest_path.
  destruct (G !! s) as [l|] eqn:Hs.
  - destruct (unreachable_no_path Upgrade.edge_weight G s t Hwf (mk_is_Some _ _ Hs) Hunreach)
      as (pre & st & Hrun & _).
    unfold Upgrade.dijkstra_generator. rewrite Hrun. simpl. by rewrite last_snoc.
  - assert (s ≠ t) as Hne by (intros ->; apply Hunreach, rtc_refl).
    unfold Upgrade.dijkstra_generator, dijkstra_generator_with, fuel_of.
    change (2 + ?n) with (S (S n)). rewrite run_S.
    unfold step. change (pq (init_state G s)) with [(0%Z, s)].
    rewrite heappop_singleton. cbn [seen init_state].
    rewrite decide_False by set_solver. rewrite decide_False by done.
    unfold neighbors. by rewrite Hs.
Qed.

(** C10.  [nx.shortest_path] raises [NetworkXNoPath] when the target cannot
    be reached.  Then, in the table [compute_distance_matrix] builds, a pair
    of points [i], [j] with [j] unreachable from [i] has distance 0 and the
    empty path, and 0 is what the optimizer reads for it; so a site cut off
    from the base in both directions makes a round trip of cost 0. *)
Theorem unreachable_pair_costs_zero (nx : Graph → node → node → nx_result)
    (G : Graph) (base_node : node) (emergency_nodes : list node)
    (dm : list (list Z)) (pm : list (list (list node)))
    (i j : nat) (pi pj : node) :
  (∀ s t, ¬ reachable G s t → nx G s t = NetworkXNoPath) →
  compute_distance_matrix nx G base_node emergency_nodes = Ok (dm, pm) →
  points base_node emergency_nodes !! i = Some pi →
  points base_node emergency_nodes !! j = Some pj →
  ¬ reachable G pi pj →
  matrix_get dm i j = Ok 0%Z ∧
  (pm !! i ≫= (.!! j)) = Some [] ∧
  (i = 0 → ¬ reachable G pj pi →
   find_best_route_order dm [j] = Ok (Some [j], Finite 0)).
Proof.
  intros Hcontract Hcm Hi Hj Hunreach.
  assert (i ≠ j) as Hne.
  { intros ->. rewrite Hi in Hj. injection Hj as ->. apply Hunreach, rtc_refl. }
  pose proof (Hcontract _ _ Hunreach) as Hnx.
  unfold compute_distance_matrix in Hcm.
  destruct (mapM _ _) as [rows|e] eqn:Hrows; [|done]. injection Hcm as <- <-.
  assert (∀ a b pa pb,
            points base_node emergency_nodes !! a = Some pa →
            points base_node emergency_nodes !! b = Some pb →
            a ≠ b → nx G pa pb = NetworkXNoPath →
            ∃ row, rows !! a = Some row ∧ row !! b = Some (0%Z, [])) as Hentry.
  { intros a b pa pb Ha Hb Hab Hno.
    assert (seq 0 (length (points base_node emergency_nodes)) !! a = Some a) as Hsa.
    { apply lookup_seq. split; [done|]. by eapply lookup_lt_Some. }
    assert (seq 0 (length (points base_node emergency_nodes)) !! b = Some b) as Hsb.
    { apply lookup_seq. split; [done|]. by eapply lookup_lt_Some. }
    destruct (mapM_Ok_lookup _ _ _ _ _ Hrows Hsa) as (row & Hrow & Hra).
    exists row. split; [done|].
    destruct (mapM_Ok_lookup _ _ _ _ _ Hrow Hsb) as (entry & Hentry & Hrb).
    rewrite Hrb. f_equal. unfold matrix_entry in Hentry.
    rewrite decide_False in Hentry by done.
    unfold index, dijkstra_shortest_path in Hentry.
    rewrite Ha, Hb in Hentry. simpl in Hentry. rewrite Hno in Hentry.
    simpl in Hentry. by injection Hentry as <-. }
  assert (∀ a b pa pb,
            points base_node emergency_nodes !! a = Some pa →
            points base_node emergency_nodes !! b = Some pb →
            a ≠ b → nx G pa pb = NetworkXNoPath →
            matrix_get ((fun row : list (Z * list node) => row.*1) <$> rows) a b
              = Ok 0%Z) as Hget.
  { intros a b pa pb Ha Hb Hab Hno.
    destruct (Hentry _ _ _ _ Ha Hb Hab Hno) as (row & Hra & Hrb).
    unfold matrix_get, index. rewrite list_lookup_fmap, Hra. simpl.
    by rewrite list_lookup_fmap, Hrb. }
  split; [by eapply Hget|]. split.
  - destruct (Hentry _ _ _ _ Hi Hj Hne Hnx) as (row & Hra & Hrb).
    rewrite list_lookup_fmap, Hra. simpl. by rewrite list_lookup_fmap, Hrb.
  - intros -> Hback%Hcontract. unfold find_best_route_order, permutations. simpl.
    rewrite (Hget _ _ _ _ Hi Hj Hne Hnx). simpl.
    rewrite (Hget _ _ _ _ Hj Hi (not_eq_sym Hne) Hback). done.
Qed.

(** ** Bit masks *)

Lemma bit_set_testbit mask i : bit_set mask i = Z.testbit mask (Z.of_nat i).
Proof.
  unfold bit_set. rewrite Z.shiftl_1_l.
  destruct (Z.testbit mask (Z.of_nat i)) eqn:Hbit.
  - apply negb_true_iff, Z.eqb_neq. intros Hz.
    assert (Z.testbit (Z.land mask (2 ^ Z.of_nat i)) (Z.of_nat i) = false) as Hf
      by (rewrite Hz; apply Z.bits_0).
    rewrite Z.land_spec, Hbit, Z.pow2_bits_true in Hf by lia. done.
  - apply negb_false_iff, Z.eqb_eq. apply Z.bits_inj'. intros k Hk.
    rewrite Z.land_spec, Z.bits_0, Z.pow2_bits_eqb by lia.
    destruct (Z.eqb_spec (Z.of_nat i) k) as [<-|]; [by rewrite Hbit|].
    apply andb_false_r.
Qed.

Lemma mask_of_testbit A i :
  Z.testbit (mask_of A) (Z.of_nat i) = true ↔ ∃ e, e ∈ A ∧ e - 1 = i.
Proof.
  induction A as [|a A IH]; simpl.
  - rewrite Z.bits_0. split; [done|]. intros (e & He & _). by apply elem_of_nil in He.
  - rewrite Z.lor_spec, Z.shiftl_1_l, Z.pow2_bits_eqb by lia. split.
    + intros [Ha | HA]%orb_true_iff.
      * apply Z.eqb_eq in Ha. exists a. split; [set_solver | lia].
      * apply IH in HA as (e & He & Hei). exists e. split; [set_solver | done].
    + intros (e & [-> | He]%elem_of_cons & Hei); apply orb_true_iff.
      * left. apply Z.eqb_eq. lia.
      * right. apply IH. by exists e.
Qed.

Lemma lor_below_pow2 a b n :
  (0 ≤ n)%Z → (0 ≤ a < 2 ^ n)%Z → (0 ≤ b < 2 ^ n)%Z → (0 ≤ Z.lor a b < 2 ^ n)%Z.
Proof.
  intros Hn Ha Hb. split; [apply Z.lor_nonneg; lia|].
  destruct (Z.eq_dec (Z.lor a b) 0%Z) as [->|Hnz]; [lia|].
  assert (0 < Z.lor a b)%Z as Hpos by (pose proof (proj2 (Z.lor_nonneg a b)); lia).
  apply Z.log2_lt_pow2; [done|]. rewrite Z.log2_lor by lia.
  destruct (Z.eq_dec a 0%Z) as [->|]; destruct (Z.eq_dec b 0%Z) as [->|].
  - simpl in Hnz. done.
  - rewrite Z.lor_0_l in Hpos. simpl.
    rewrite Z.max_r by apply Z.log2_nonneg. apply Z.log2_lt_pow2; lia.
  - rewrite Z.lor_0_r in Hpos. simpl.
    rewrite Z.max_l by apply Z.log2_nonneg. apply Z.log2_lt_pow2; lia.
  - apply Z.max_lub_lt; apply Z.log2_lt_pow2; lia.
Qed.

Lemma mask_of_range A n :
  (∀ e, e ∈ A → 1 ≤ e ≤ n) → (0 ≤ mask_of A < 2 ^ Z.of_nat n)%Z.
Proof.
  induction A as [|a A IH]; intros HA; simpl.
  - split; [done|]. apply Z.pow_pos_nonneg; lia.
  - apply lor_below_pow2; [lia | | apply IH; intros e He; apply HA; set_solver].
    rewrite Z.shiftl_1_l. specialize (HA a ltac:(set_solver)).
    split; [apply Z.pow_nonneg; lia|]. apply Z.pow_lt_mono_r; lia.
Qed.

(** ** [permutations] lists the permutations, all of them *)

Lemma selects_perm {A} (l : list A) x rest :
  (x, rest) ∈ selects l → l ≡ₚ x :: rest.
Proof.
  revert x rest. induction l as [|a l IH]; intros x rest; simpl.
  - by intros ?%elem_of_nil.
  - intros [[= -> ->] | Hin]%elem_of_cons; [done|].
    apply list_elem_of_fmap in Hin as ([y ys] & [= -> ->] & Hin). simpl.
    rewrite (IH _ _ Hin). apply perm_swap.
Qed.

Lemma selects_complete {A} (l : list A) x :
  x ∈ l → ∃ rest, (x, rest) ∈ selects l.
Proof.
  induction l as [|a l IH]; [by intros ?%elem_of_nil|].
  intros [-> | Hin]%elem_of_cons; simpl.
  - exists l. apply elem_of_cons. by left.
  - destruct (IH Hin) as [rest Hrest]. exists (a :: rest).
    apply elem_of_cons. right. apply list_elem_of_fmap. by exists (x, rest).
Qed.

Lemma permutations_n_sound {A} n (l p : list A) :
  length l = n → p ∈ permutations_n n l → p ≡ₚ l.
Proof.
  revert l p. induction n as [|n IH]; intros l p Hlen; simpl.
  - intros ->%list_elem_of_singleton. by destruct l.
  - intros ([x rest] & Hp & Hsel)%list_elem_of_bind.
    apply list_elem_of_fmap in Hp as (q & -> & Hq). simpl in *.
    pose proof (selects_perm _ _ _ Hsel) as Hl. rewrite Hl.
    constructor. apply IH; [|done].
    apply Permutation_length in Hl. simpl in Hl. lia.
Qed.

Lemma permutations_n_complete {A} n (l p : list A) :
  length l = n → p ≡ₚ l → p ∈ permutations_n n l.
Proof.
  revert l p. induction n as [|n IH]; intros l p Hlen Hp; simpl.
  - destruct l; [|done]. apply Permutation_nil_r in Hp as ->.
    by apply list_elem_of_singleton.
  - destruct p as [|x p].
    { apply Permutation_length in Hp. simpl in Hp. lia. }
    assert (x ∈ l) as Hx by (rewrite <- Hp; set_solver).
    destruct (selects_complete _ _ Hx) as [rest Hsel].
    pose proof (selects_perm _ _ _ Hsel) as Hl.
    apply list_elem_of_bind. exists (x, rest). split; [|done]. simpl.
    apply list_elem_of_fmap. exists p. split; [done|]. apply IH.
    + apply Permutation_length in Hl. simpl in Hl. lia.
    + rewrite Hl in Hp. by apply Permutation_cons_inv in Hp.
Qed.

Lemma permutations_spec {A} (l p : list A) : p ∈ permutations l ↔ p ≡ₚ l.
Proof.
  split; [by apply permutations_n_sound | by apply permutations_n_complete].
Qed.

Lemma lt_distance_false z d : lt_distance z d = false ↔ dist_le d z.
Proof. destruct d; simpl; [lia | done]. Qed.

Section OptimizerFacts.
Variable emergency_nodes : list node.
Variable dm : list (list Z).
Hypothesis Hsquare : square dm (S (length emergency_nodes)).

Let m := S (length emergency_nodes).

Lemma matrix_get_Ok i j :
  i < m → j < m → matrix_get dm i j = Ok (table_entry dm i j).
Proof.
  intros Hi Hj. destruct Hsquare as [Hlen Hrows].
  unfold matrix_get, table_entry, index.
  destruct (lookup_lt_is_Some_2 dm i) as [row Hrow]; [fold m in Hlen; lia|].
  rewrite Hrow. simpl.
  assert (length row = m) as Hrl.
  { eapply (proj1 (Forall_forall _ _) Hrows). by eapply list_elem_of_lookup_2. }
  destruct (lookup_lt_is_Some_2 row j) as [x Hx]; [lia|]. by rewrite Hx.
Qed.

Lemma route_cost_Ok cost prev perm :
  prev < m → Forall (fun idx => idx < m) perm →
  route_cost dm cost prev perm = Ok (cost + legs dm prev perm)%Z.
Proof.
  revert cost prev. induction perm as [|idx rest IH]; intros cost prev Hprev Hperm; simpl.
  - rewrite matrix_get_Ok by (unfold m; lia). done.
  - apply Forall_cons in Hperm as [Hidx Hrest].
    rewrite matrix_get_Ok by done. simpl. rewrite IH by done.
    f_equal. lia.
Qed.

Lemma best_order_loop_spec (c : list nat → Z) perms bo bc :
  (∀ p, p ∈ perms → route_cost dm 0 0 p = Ok (c p)) →
  ∃ bo' bc',
    best_order_loop dm bo bc perms = Ok (bo', bc') ∧
    (∀ p, p ∈ perms → dist_le bc' (c p)) ∧
    (∀ z, dist_le bc z → dist_le bc' z) ∧
    ((bo' = bo ∧ bc' = bc) ∨ ∃ o, o ∈ perms ∧ bo' = Some o ∧ bc' = Finite (c o)).
Proof.
  revert bo bc. induction perms as [|perm rest IH]; intros bo bc Hcost; simpl.
  - exists bo, bc. split; [done|]. split; [by intros p ?%elem_of_nil|].
    split; [done | by left].
  - rewrite (Hcost perm) by set_solver. simpl.
    assert (∀ p, p ∈ rest → route_cost dm 0 0 p = Ok (c p)) as Hrest
      by (intros p Hp; apply Hcost; set_solver).
    destruct (lt_distance (c perm) bc) eqn:Hlt.
    + destruct (IH (Some perm) (Finite (c perm)) Hrest)
        as (bo' & bc' & -> & Hmin & Hle & Hwho).
      exists bo', bc'. split; [done|]. split; [|split].
      * intros p [-> | Hp]%elem_of_cons; [apply Hle; simpl; lia | by apply Hmin].
      * intros z Hz. apply Hle. destruct bc as [y|]; simpl in *; lia.
      * right. destruct Hwho as [[-> ->] | (o & Ho & -> & ->)].
        -- exists perm. split; [set_solver | done].
        -- exists o. split; [set_solver | done].
    + destruct (IH bo bc Hrest) as (bo' & bc' & -> & Hmin & Hle & Hwho).
      exists bo', bc'. split; [done|]. split; [|split].
      * intros p [-> | Hp]%elem_of_cons; [|by apply Hmin].
        by apply Hle, lt_distance_false.
      * done.
      * destruct Hwho as [[-> ->] | (o & Ho & -> & ->)]; [by left|].
        right. exists o. split; [set_solver | done].
Qed.

(** The best order of a subset: a permutation of it of least round-trip
    cost. *)
Lemma find_best_route_order_spec subset :
  Forall (fun idx => idx < m) subset →
  ∃ o,
    find_best_route_order dm subset = Ok (Some o, Finite (round_trip dm o)) ∧
    o ≡ₚ subset ∧
    ∀ p, p ≡ₚ subset → (round_trip dm o ≤ round_trip dm p)%Z.
Proof.
  intros Hsub. destruct subset as [|a subset].
  { exists []. split; [done|]. split; [done|].
    intros p ->%Permutation_nil_r. done. }
  set (l := a :: subset) in *. unfold find_best_route_order.
  change (match l with [] => _ | _ => ?x end) with x.
  assert (∀ p, p ≡ₚ l → round_trip dm p = legs dm 0 p) as Hrt.
  { intros [|b p] Hp; [|done]. by apply Permutation_nil_l in Hp. }
  destruct (best_order_loop_spec (legs dm 0) (permutations l) None Infinity)
    as (bo' & bc' & Hloop & Hmin & _ & Hwho).
  { intros p Hp%permutations_spec. rewrite route_cost_Ok; [done | unfold m; lia |].
    by rewrite Hp. }
  destruct Hwho as [[-> ->] | (o & Ho%permutations_spec & -> & ->)].
  { destruct (Hmin l). by apply permutations_spec. }
  exists o. rewrite Hloop, (Hrt o Ho). split; [done|]. split; [done|].
  intros p Hp. rewrite (Hrt p Hp). apply (Hmin p). by apply permutations_spec.
Qed.
End OptimizerFacts.

(** ** The splits the masks stand for *)

Lemma omap_cons_eq {A B} (f : A → option B) x l :
  omap f (x :: l) = match f x with Some y => y :: omap f l | None => omap f l end.
Proof. reflexivity. Qed.

Section Splits.
Variable emergency_nodes : list node.

Let n := length emergency_nodes.

Lemma subset1_of_filter mask :
  subset1_of emergency_nodes mask
  = S <$> (filter (fun i => bit_set mask i = true) (seq 0 n) : list nat).
Proof.
  unfold subset1_of, emergencies_idx. fold n.
  assert (∀ l, (∀ i, i ∈ l → i < n) →
            omap (fun i => if bit_set mask i then seq 1 n !! i else None) l
            = S <$> (filter (fun i => bit_set mask i = true) l : list nat)) as Hgen.
  { induction l as [|i l IH]; intros Hl; [done|].
    rewrite filter_cons, omap_cons_eq.
    rewrite (lookup_seq_lt 1 n i) by (apply Hl; set_solver).
    rewrite IH by (intros k Hk; apply Hl; set_solver).
    case_decide as Hb; [by rewrite Hb|].
    by apply not_true_is_false in Hb as ->. }
  apply Hgen. intros i Hi%elem_of_seq. lia.
Qed.

Lemma elem_of_subset1 mask e :
  e ∈ subset1_of emergency_nodes mask ↔
  1 ≤ e ≤ n ∧ Z.testbit mask (Z.of_nat (e - 1)) = true.
Proof.
  rewrite subset1_of_filter, list_elem_of_fmap. split.
  - intros (i & -> & [Hb Hi%elem_of_seq]%list_elem_of_filter).
    rewrite bit_set_testbit in Hb. split; [lia|].
    by replace (S i - 1) with i by lia.
  - intros [He Hb]. exists (e - 1). split; [lia|].
    apply list_elem_of_filter. split; [by rewrite bit_set_testbit|].
    apply elem_of_seq. lia.
Qed.

Lemma subset1_NoDup mask : NoDup (subset1_of emergency_nodes mask).
Proof.
  rewrite subset1_of_filter. apply NoDup_fmap_2; [intros ???; lia|].
  apply NoDup_filter, NoDup_seq.
Qed.

Lemma elem_of_subset2 mask e :
  e ∈ subset2_of emergency_nodes mask ↔
  1 ≤ e ≤ n ∧ e ∉ subset1_of emergency_nodes mask.
Proof.
  unfold subset2_of, emergencies_idx. fold n.
  rewrite list_elem_of_filter, elem_of_seq. split; intros [? ?]; split; (done || lia).
Qed.

Lemma subset2_NoDup mask : NoDup (subset2_of emergency_nodes mask).
Proof. apply NoDup_filter, NoDup_seq. Qed.

Lemma subsets_in_range mask :
  Forall (fun idx => idx < S n) (subset1_of emergency_nodes mask) ∧
  Forall (fun idx => idx < S n) (subset2_of emergency_nodes mask).
Proof.
  split; apply Forall_forall; intros e.
  - intros [? _]%elem_of_subset1. lia.
  - intros [? _]%elem_of_subset2. lia.
Qed.

Lemma elem_of_masks mask :
  mask ∈ masks emergency_nodes ↔ (0 ≤ mask < 2 ^ Z.of_nat n)%Z.
Proof.
  unfold masks. fold n. rewrite Z.shiftl_1_l, elem_of_seqZ. lia.
Qed.

(** Every split of the sites in two is the split of some mask. *)
Lemma split_has_mask A B :
  A ++ B ≡ₚ seq 1 n →
  ∃ mask, mask ∈ masks emergency_nodes ∧
    subset1_of emergency_nodes mask ≡ₚ A ∧
    subset2_of emergency_nodes mask ≡ₚ B.
Proof.
  intros Hsplit.
  assert (NoDup (A ++ B)) as [HA [Hdisj HB]]%NoDup_app
    by (rewrite Hsplit; apply NoDup_seq).
  assert (∀ e, e ∈ A ∨ e ∈ B ↔ 1 ≤ e ≤ n) as Hrange.
  { intros e. rewrite <- elem_of_app, Hsplit, elem_of_seq. lia. }
  assert (∀ e, e ∈ subset1_of emergency_nodes (mask_of A) ↔ e ∈ A) as H1.
  { intros e. rewrite elem_of_subset1, mask_of_testbit. split.
    - intros (He & e' & He' & Heq).
      assert (1 ≤ e' ≤ n) by (apply Hrange; by left).
      by replace e with e' by lia.
    - intros He. split; [apply Hrange; by left|]. by exists e. }
  exists (mask_of A). split; [|split].
  - apply elem_of_masks, mask_of_range. intros e He. apply Hrange. by left.
  - apply NoDup_Permutation; [apply subset1_NoDup | done | done].
  - apply NoDup_Permutation; [apply subset2_NoDup | done |].
    intros e. rewrite elem_of_subset2, H1. split.
    + intros [He HnA]. by destruct (proj2 (Hrange e) He).
    + intros He. split; [apply Hrange; by right|].
      intros HeA. by apply (Hdisj e).
Qed.

Variable dm : list (list Z).
Hypothesis Hsquare : square dm (S (length emergency_nodes)).

Lemma partition_loop_spec mask_list b :
  ∃ b',
    partition_loop emergency_nodes dm b mask_list = Ok b' ∧
    (∀ mask p1 p2, mask ∈ mask_list →
       p1 ≡ₚ subset1_of emergency_nodes mask →
       p2 ≡ₚ subset2_of emergency_nodes mask →
       dist_le (best_cost b') (round_trip dm p1 + round_trip dm p2)) ∧
    (∀ z, dist_le (best_cost b) z → dist_le (best_cost b') z) ∧
    (b' = b ∨
     ∃ mask o1 o2, mask ∈ mask_list ∧
       o1 ≡ₚ subset1_of emergency_nodes mask ∧
       o2 ≡ₚ subset2_of emergency_nodes mask ∧
       b' = Best (Finite (round_trip dm o1 + round_trip dm o2))
                 (Some (subset1_of emergency_nodes mask,
                        subset2_of emergency_nodes mask))
                 (Some (Some o1, Some o2))).
Proof.
  revert b. induction mask_list as [|mask rest IH]; intros b; simpl.
  - exists b. split; [done|]. split; [by intros ? ? ? ?%elem_of_nil|].
    split; [done | by left].
  - destruct (subsets_in_range mask) as [Hr1 Hr2].
    destruct (find_best_route_order_spec emergency_nodes dm Hsquare _ Hr1)
      as (o1 & -> & Ho1 & Hmin1).
    destruct (find_best_route_order_spec emergency_nodes dm Hsquare _ Hr2)
      as (o2 & -> & Ho2 & Hmin2).
    simpl. set (total := (round_trip dm o1 + round_trip dm o2)%Z).
    assert (∀ p1 p2, p1 ≡ₚ subset1_of emergency_nodes mask →
              p2 ≡ₚ subset2_of emergency_nodes mask →
              (total ≤ round_trip dm p1 + round_trip dm p2)%Z) as Hmin.
    { intros p1 p2 Hp1 Hp2. specialize (Hmin1 _ Hp1). specialize (Hmin2 _ Hp2).
      unfold total. lia. }
    destruct (lt_distance total (best_cost b)) eqn:Hlt.
    + destruct (IH (Best (Finite total)
                      (Some (subset1_of emergency_nodes mask,
                             subset2_of emergency_nodes mask))
                      (Some (Some o1, Some o2))))
        as (b' & -> & Hall & Hle & Hwho).
      exists b'. split; [done|]. split; [|split].
      * intros k p1 p2 [-> | Hk]%elem_of_cons Hp1 Hp2; [|by eapply Hall].
        apply Hle. simpl. by apply Hmin.
      * intros z Hz. apply Hle. simpl.
        destruct (best_cost b) as [y|]; simpl in *; lia.
      * right. destruct Hwho as [-> | (k & q1 & q2 & Hk & Hq1 & Hq2 & ->)].
        -- exists mask, o1, o2. split; [set_solver | done].
        -- exists k, q1, q2. split; [set_solver | done].
    + destruct (IH b) as (b' & -> & Hall & Hle & Hwho).
      exists b'. split; [done|]. split; [|split].
      * intros k p1 p2 [-> | Hk]%elem_of_cons Hp1 Hp2; [|by eapply Hall].
        apply Hle. apply lt_distance_false in Hlt.
        destruct (best_cost b) as [y|]; simpl in *; [|done].
        specialize (Hmin _ _ Hp1 Hp2). lia.
      * done.
      * destruct Hwho as [-> | (k & q1 & q2 & Hk & Hq1 & Hq2 & ->)]; [by left|].
        right. exists k, q1, q2. split; [set_solver | done].
Qed.

(** The optimizer returns a split and orders of least total round-trip
    cost among all splits and all orders. *)
Lemma find_best_partition_and_routes_spec :
  ∃ mask o1 o2,
    mask ∈ masks emergency_nodes ∧
    o1 ≡ₚ subset1_of emergency_nodes mask ∧
    o2 ≡ₚ subset2_of emergency_nodes mask ∧
    find_best_partition_and_routes emergency_nodes dm
      = Ok (Best (Finite (round_trip dm o1 + round_trip dm o2))
                 (Some (subset1_of emergency_nodes mask,
                        subset2_of emergency_nodes mask))
                 (Some (Some o1, Some o2))) ∧
    ∀ A B, A ++ B ≡ₚ seq 1 n →
      (round_trip dm o1 + round_trip dm o2 ≤ round_trip dm A + round_trip dm B)%Z.
Proof.
  unfold find_best_partition_and_routes.
  destruct (partition_loop_spec (masks emergency_nodes) (Best Infinity None None))
    as (b' & Hloop & Hall & _ & Hwho).
  destruct Hwho as [-> | (mask & o1 & o2 & Hmask & Ho1 & Ho2 & ->)].
  { destruct (Hall 0%Z (subset1_of emergency_nodes 0) (subset2_of emergency_nodes 0)).
    - apply elem_of_masks. split; [done|]. apply Z.pow_pos_nonneg; lia.
    - done.
    - done. }
  exists mask, o1, o2. split; [done|]. split; [done|]. split; [done|].
  split; [done|]. intros A B Hsplit.
  destruct (split_has_mask A B Hsplit) as (k & Hk & HA & HB).
  apply (Hall k A B Hk); by symmetry.
Qed.
End Splits.

(** C2.  With [n] sites and a table of [n+1] rows and columns, the
    optimizer goes through the [2^n] masks, which give every split of the
    sites in two; [permutations] gives every order of a subset; an order is
    scored with the round trip from the base and back; and the result is a
    split with orders whose total cost is least among all splits and all
    orders.  On the table O-P1 = 3, O-P2 = 5, P1-P2 = 2 the result costs 10
    (one ambulance takes P1 then P2), against 16 for one site each. *)
Theorem optimizer_minimum (emergency_nodes : list node) (dm : list (list Z)) :
  square dm (S (length emergency_nodes)) →
  optimal_dispatch emergency_nodes dm ∧
  (∀ P1 P2 : node,
     find_best_partition_and_routes [P1; P2] table3
       = Ok (Best (Finite 10) (Some ([], [1; 2])) (Some (Some [], Some [1; 2])))) ∧
  round_trip table3 [1; 2] = 10%Z ∧
  (round_trip table3 [1%nat] + round_trip table3 [2%nat])%Z = 16%Z.
Proof.
  intros Hsq. split; [|split; [|done]; intros P1 P2; reflexivity].
  unfold optimal_dispatch. set (n := length emergency_nodes).
  split; [|split; [|split; [|split]]].
  - unfold masks. fold n. rewrite length_seqZ, Z.shiftl_1_l.
    change 2%Z with (Z.of_nat 2). rewrite <- Nat2Z.inj_pow. apply Nat2Z.id.
  - apply split_has_mask.
  - intros subset p. apply permutations_spec.
  - intros p Hne Hp. rewrite (route_cost_Ok emergency_nodes dm Hsq); [|lia|done].
    by destruct p.
  - by apply find_best_partition_and_routes_spec.
Qed.

(** C6, as the code runs.  On the 4-cycle with unit lengths, from A to C:
    [done] carries [A, B, C] of length 2, and four nodes are visited before
    it, A, B, D, C in this order, since B and D are both at distance 1 and
    are settled before C; with the identifiers of B and D exchanged the
    path is [A, D, C], again after four visits. *)
Theorem cycle4_trace :
  (Animation.dijkstra_generator cycle4 1 3).1
    = ([Visit 1; Relax 2; Relax 4; Visit 2; Relax 3; Visit 4; Visit 3;
        Done [1; 2; 3]]%Z, StopIteration) ∧
  path_weight Animation.edge_weight cycle4 [1; 2; 3]%Z = 2%Z ∧
  visited (Animation.dijkstra_generator cycle4 1 3).1.1 = [1; 2; 4; 3]%Z ∧
  (Animation.dijkstra_generator (cycle_graph 1 4 3 2) 1 3).1
    = ([Visit 1; Relax 4; Relax 2; Visit 2; Relax 3; Visit 4; Visit 3;
        Done [1; 2; 3]]%Z, StopIteration).
Proof. repeat split; vm_compute; reflexivity. Qed.

Lemma cycle4_events :
  (Animation.dijkstra_generator cycle4 1 3).1.1
  = [Visit 1; Relax 2; Relax 4; Visit 2; Relax 3; Visit 4; Visit 3;
     Done [1; 2; 3]]%Z.
Proof. vm_compute. reflexivity. Qed.

(** Why lengths must not be negative: a negative road lets a settled node be
    relaxed again, the predecessors form a cycle, and the path walk of the
    generator never ends. *)
Example negative_length_hangs :
  (Animation.dijkstra_generator negative_road 1 3).1
  = ([Visit 1; Relax 2; Visit 2; Relax 1; Relax 3; Visit 3]%Z, Hang).
Proof. vm_compute. reflexivity. Qed.

(** C6 as stated fails: no [done] of this run comes after exactly three
    visits. *)
Lemma cycle4_not_three_visits :
  ¬ ∃ pre path,
      (Animation.dijkstra_generator cycle4 1 3).1.1 = pre ++ [Done path] ∧
      (path = [1; 2; 3]%Z ∨ path = [1; 4; 3]%Z) ∧
      length (visited pre) = 3.
Proof.
  intros (pre & path & Hrun & _ & Hlen).
  rewrite cycle4_events in Hrun.
  change [Visit 1; Relax 2; Relax 4; Visit 2; Relax 3; Visit 4; Visit 3;
          Done [1; 2; 3]]%Z
    with ([Visit 1; Relax 2; Relax 4; Visit 2; Relax 3; Visit 4; Visit 3]%Z
          ++ [Done [1; 2; 3]%Z]) in Hrun.
  apply app_inj_tail in Hrun as [<- _]. done.
Qed.

(** ** The example graphs *)

Lemma cycle4_wf : graph_wf cycle4.
Proof.
  intros u v (nbrs & Hn & Hv). unfold neighbors in Hn.
  destruct (cycle4 !! u) as [l|] eqn:Hu; [|done]. injection Hn as <-.
  apply elem_of_list_to_map_2 in Hu.
  repeat (apply elem_of_cons in Hu as [[= -> ->] | Hu]);
    [..|by apply elem_of_nil in Hu];
    simpl in Hv;
    repeat (apply elem_of_cons in Hv as [-> | Hv]);
    (by apply elem_of_nil in Hv) || (vm_compute; eauto).
Qed.

Lemma cycle4_nonneg : nonneg_lengths cycle4.
Proof.
  intros u l v data Hu Hin. apply elem_of_list_to_map_2 in Hu.
  assert (data = unit_edge) as ->.
  { repeat (apply elem_of_cons in Hu as [[= -> ->] | Hu]);
      [..|by apply elem_of_nil in Hu];
      repeat (apply elem_of_cons in Hin as [[= -> ->] | Hin]);
      (by apply elem_of_nil in Hin) || done. }
  intros k x Hk. unfold unit_edge in Hk.
  apply lookup_singleton_Some in Hk as [_ [= <-]]. lia.
Qed.

Lemma cycle4_reachable : reachable cycle4 1 3.
Proof.
  apply rtc_l with 2%Z; [|apply rtc_once];
    (eexists; split; [vm_compute; reflexivity | set_solver]).
Qed.

Lemma islands_wf : graph_wf islands.
Proof.
  intros u v (nbrs & Hn & Hv). unfold neighbors in Hn.
  destruct (islands !! u) as [l|] eqn:Hu; [|done]. injection Hn as <-.
  apply elem_of_list_to_map_2 in Hu.
  repeat (apply elem_of_cons in Hu as [[= -> ->] | Hu]);
    [..|by apply elem_of_nil in Hu];
    simpl in Hv;
    repeat (apply elem_of_cons in Hv as [-> | Hv]);
    (by apply elem_of_nil in Hv) || (vm_compute; eauto).
Qed.

Lemma islands_unreachable : ¬ reachable islands 1 3.
Proof.
  assert (∀ x, reachable islands 1 x → x = 1%Z ∨ x = 2%Z) as Hside.
  { apply (rtc_ind_r (fun x => x = 1%Z ∨ x = 2%Z)); [by left|].
    intros y z _ [nbrs [Hn Hz]] IH.
    destruct IH as [-> | ->]; vm_compute in Hn; injection Hn as <-;
      apply list_elem_of_singleton in Hz as ->; tauto. }
  intros [? | ?]%Hside; done.
Qed.

(** C7 as stated fails: site 3 cannot be reached from base 1, and the route
    builder returns the bare [[1]] instead of raising. *)
Lemma unreachable_site_no_fault :
  ¬ reachable islands 1 3 ∧
  dijkstra_shortest_path engine_shortest_path islands 1 3 = [] ∧
  build_full_path engine_shortest_path islands 1 [3%Z] [1] = Ok [1%Z] ∧
  ∀ e, build_full_path engine_shortest_path islands 1 [3%Z] [1] ≠ Err e.
Proof.
  split; [apply islands_unreachable|].
  split; [vm_compute; reflexivity|].
  split; [vm_compute; reflexivity|].
  intros e. vm_compute. discriminate.
Qed.

(** ** The results at concrete inputs *)

Lemma done_path_length_witness :
  found_spec Animation.edge_weight cycle4 1 3
    (Animation.dijkstra_generator cycle4 1 3) ∧
  found_spec Upgrade.edge_weight cycle4 1 3
    (Upgrade.dijkstra_generator cycle4 1 3).
Proof.
  apply done_path_length;
    [apply cycle4_wf | by eexists | apply cycle4_nonneg | apply cycle4_reachable].
Defined.

Lemma unreachable_exhausted_witness :
  exhausted_spec (Animation.dijkstra_generator islands 1 3) ∧
  (∀ p, Done p ∉ (Animation.dijkstra_generator islands 1 3).1.1) ∧
  count_no_path (Animation.dijkstra_generator islands 1 3).1.1 = 1 ∧
  exhausted_spec (Upgrade.dijkstra_generator islands 1 3).
Proof.
  apply unreachable_exhausted;
    [apply islands_wf | by eexists | apply islands_unreachable].
Defined.

Lemma stale_entry_skipped_witness :
  step Animation.edge_weight cycle4 1 3 stale_state
  = Continue [] (State (dist stale_state) (prev stale_state) [(2%Z, 3%Z)]
                       (seen stale_state)) ∧
  NoDup (visited (dijkstra_generator_with Animation.edge_weight cycle4 1 3).1.1).
Proof.
  destruct (stale_entry_skipped Animation.edge_weight cycle4 1 3) as [Hskip Hnodup].
  split; [|exact Hnodup].
  apply (Hskip stale_state 1%Z 2%Z [(2%Z, 3%Z)]).
  - vm_compute. reflexivity.
  - simpl. set_solver.
Defined.


Lemma origin_is_target_witness :
  (Animation.dijkstra_generator cycle4 1 1).1
    = ([Visit 1; Done [1%Z]], StopIteration) ∧
  reconstruct 1 ∅ 1 1 = Some [1%Z].
Proof. apply (origin_is_target cycle4 1 ∅ 0). reflexivity. Defined.

Lemma build_full_path_assembles_witness :
  build_full_path engine_shortest_path cycle4 1 [3%Z; 4%Z] [1; 2]
    = Ok (assemble (dijkstra_shortest_path engine_shortest_path cycle4) 1 [3%Z; 4%Z]) ∧
  head (assemble (dijkstra_shortest_path engine_shortest_path cycle4) 1 [3%Z; 4%Z])
    = Some 1%Z ∧
  build_full_path engine_shortest_path cycle4 1 [3%Z; 4%Z] [] = Ok [1%Z].
Proof.
  apply (build_full_path_assembles engine_shortest_path cycle4 1 [3%Z; 4%Z] [1; 2]).
  reflexivity.
Defined.

Lemma no_path_is_skipped_witness :
  dijkstra_shortest_path engine_shortest_path islands 1 3 = [] ∧
  build_loop engine_shortest_path islands 1 [3%Z] [1%Z] [1]
    = build_loop engine_shortest_path islands 1 [3%Z] [1%Z] [] ∧
  reconstruct 1 ∅ 1 3 = Some [1%Z].
Proof.
  apply (no_path_is_skipped engine_shortest_path islands 1 [3%Z] [1%Z] 1%Z 1 3%Z
           [] ∅ 1%Z 3%Z 0).
  - reflexivity.
  - reflexivity.
  - vm_compute. reflexivity.
  - reflexivity.
Defined.

Lemma unreachable_pair_costs_zero_witness :
  matrix_get [[0; 4; 0]; [4; 0; 0]; [0; 0; 0]]%Z 0 2 = Ok 0%Z ∧
  ([[[1]; [1; 2]; []]; [[2; 1]; [2]; []]; [[]; []; [3]]]%Z !! 0 ≫= (.!! 2))
    = Some [] ∧
  (0 = 0 → ¬ reachable islands 3 1 →
   find_best_route_order [[0; 4; 0]; [4; 0; 0]; [0; 0; 0]]%Z [2]
     = Ok (Some [2], Finite 0)).
Proof.
  apply (unreachable_pair_costs_zero engine_shortest_path islands 1 [2%Z; 3%Z]
           [[0; 4; 0]; [4; 0; 0]; [0; 0; 0]]%Z
           [[[1]; [1; 2]; []]; [[2; 1]; [2]; []]; [[]; []; [3]]]%Z
           0 2 1%Z 3%Z).
  - intros s t. apply engine_no_path, islands_wf.
  - vm_compute. reflexivity.
  - reflexivity.
  - reflexivity.
  - apply islands_unreachable.
Defined.

Lemma optimizer_minimum_witness :
  optimal_dispatch [7%Z; 8%Z] table3 ∧
  (∀ P1 P2 : node,
     find_best_partition_and_routes [P1; P2] table3
       = Ok (Best (Finite 10) (Some ([], [1; 2])) (Some (Some [], Some [1; 2])))) ∧
  round_trip table3 [1; 2] = 10%Z ∧
  (round_trip table3 [1%nat] + round_trip table3 [2%nat])%Z = 16%Z.
Proof.
  apply (optimizer_minimum [7%Z; 8%Z] table3).
  split; [reflexivity|]. repeat constructor.
Defined.

(** * Further properties: proofs *)

(** ** The path found is a shortest path *)

Lemma is_path_snoc_inv (G : Graph) q x :
  q ≠ [] → is_path G (q ++ [x]) →
  ∃ y, last q = Some y ∧ adjacent G y x ∧ is_path G q.
Proof.
  induction q as [|a [|b q] IH]; intros Hne Hp; [done| |].
  - exists a. destruct Hp as [Hadj _]. done.
  - destruct Hp as [Hab Hp]. destruct (IH ltac:(done) Hp) as (y & Hy & Hadj & Hq).
    exists y. split; [done|]. split; [done|]. by split.
Qed.

Section ShortestFacts.
Variable W : edge_data → Z.
Variable G : Graph.
Variables start target : node.
Hypothesis Hwf : graph_wf G.
Hypothesis Hstart : is_Some (G !! start).
Hypothesis Hnonneg : ∀ u v, adjacent G u v → (0 ≤ weight W G u v)%Z.

Local Abbreviation steps := (steps W G start target).
Local Abbreviation core := (core W G start).
Local Abbreviation inv := (inv W G start).
Local Abbreviation relaxed := (relaxed W G).
Local Abbreviation is_route := (is_route G start).

(** One turn of the neighbour loop: settled nodes keep their distance, no
    distance grows, only unsettled nodes are relaxed, and the neighbour ends
    within [d + w] of the origin. *)
Lemma relax_one_mono d u v st st' evs r :
  relaxing d u st → adjacent G u v →
  relax_one W G d u v st = (st', evs, r) →
  seen st' = seen st ∧
  (∀ x, x ∈ seen st → dist st' !! x = dist st !! x) ∧
  (∀ x dx, dist st !! x = Some (Finite dx) →
     ∃ dx', dist st' !! x = Some (Finite dx') ∧ (dx' ≤ dx)%Z) ∧
  (r = None →
     ∃ dv, dist st' !! v = Some (Finite dv) ∧ (dv ≤ d + weight W G u v)%Z) ∧
  (∀ x, Relax x ∈ evs → (x ∉ seen st) ∧ x = v).
Proof.
  intros (Hus & Hud & Hd0 & Hle) Hadj Hone.
  pose proof (Hnonneg _ _ Hadj) as Hw.
  apply relax_one_cases in Hone
    as [(_ & -> & -> & ->)|[(dv & Hv & Hlt & -> & -> & _)|(dv & Hv & Hdv & -> & -> & _)]].
  - split; [done|]. split; [done|]. split; [intros x dx Hx; exists dx; split; [done | lia]|].
    split; [done|]. by intros x ?%elem_of_nil.
  - assert (v ∉ seen st) as Hvs.
    { intros Hin. destruct (Hle _ Hin) as (dv' & Hv' & ?).
      rewrite Hv in Hv'. injection Hv' as ->. simpl in Hlt. lia. }
    simpl. split; [done|]. split; [|split; [|split]].
    + intros x Hx. apply lookup_insert_ne. by intros ->.
    + intros x dx Hx. destruct (decide (v = x)) as [->|Hne].
      * rewrite lookup_insert_eq. eexists. split; [done|].
        rewrite Hv in Hx. injection Hx as ->. simpl in Hlt. lia.
      * rewrite lookup_insert_ne by done. exists dx. split; [done | lia].
    + intros _. rewrite lookup_insert_eq. eexists. split; [done | lia].
    + intros x [= ->]%list_elem_of_singleton. done.
  - split; [done|]. split; [done|]. split; [intros x dx Hx; exists dx; split; [done | lia]|].
    split; [intros _; by exists dv|]. by intros x ?%elem_of_nil.
Qed.

Lemma relax_loop_mono rk d u nbrs st st' evs r :
  core rk st → relaxing d u st → (∀ v, v ∈ nbrs → adjacent G u v) →
  relax_loop W G d u nbrs st = (st', evs, r) →
  (∀ x, x ∈ seen st → dist st' !! x = dist st !! x) ∧
  (∀ x dx, dist st !! x = Some (Finite dx) →
     ∃ dx', dist st' !! x = Some (Finite dx') ∧ (dx' ≤ dx)%Z) ∧
  (r = None → ∀ v, v ∈ nbrs →
     ∃ dv, dist st' !! v = Some (Finite dv) ∧ (dv ≤ d + weight W G u v)%Z) ∧
  (∀ x, Relax x ∈ evs → (x ∉ seen st) ∧ x ∈ nbrs).
Proof.
  revert st st' evs r. induction nbrs as [|v rest IH];
    intros st st' evs r Hcore Hrel Hadj; simpl.
  - intros [= <- <- <-]. split; [done|].
    split; [intros x dx Hx; exists dx; split; [done | lia]|].
    split; [by intros _ v ?%elem_of_nil | by intros x ?%elem_of_nil].
  - destruct (relax_one W G d u v st) as [[st1 e1] r1] eqn:H1.
    assert (adjacent G u v) as Hv by (apply Hadj; set_solver).
    destruct (relax_one_mono _ _ _ _ _ _ _ Hrel Hv H1) as (Hs1 & Hk1 & Hm1 & Hv1 & He1).
    destruct (relax_one_core W G start Hwf Hstart Hnonneg _ _ _ _ _ _ _ _ Hcore Hrel Hv H1)
      as (Hcore1 & Hrel1 & _).
    destruct r1 as [e|].
    { intros [= <- <- <-]. split; [done|]. split; [done|]. split; [done|].
      intros x Hx. destruct (He1 x Hx) as [? ->]. split; [done | set_solver]. }
    destruct (relax_loop W G d u rest st1) as [[st2 e2] r2] eqn:H2.
    intros [= <- <- <-].
    destruct (IH _ _ _ _ Hcore1 Hrel1 ltac:(intros x Hx; apply Hadj; set_solver) H2)
      as (Hk2 & Hm2 & Hv2 & He2).
    split; [|split; [|split]].
    + intros x Hx. rewrite Hk2 by (by rewrite Hs1). by apply Hk1.
    + intros x dx Hx. destruct (Hm1 _ _ Hx) as (dx1 & Hx1 & ?).
      destruct (Hm2 _ _ Hx1) as (dx2 & Hx2 & ?). exists dx2. split; [done | lia].
    + intros -> x [-> | Hx]%elem_of_cons; [|by apply Hv2].
      destruct (Hv1 eq_refl) as (dv & Hdv & ?).
      destruct (Hm2 _ _ Hdv) as (dv2 & Hdv2 & ?). exists dv2. split; [done | lia].
    + intros x [Hx | Hx]%elem_of_app.
      * destruct (He1 x Hx) as [? ->]. split; [done | set_solver].
      * destruct (He2 x Hx) as [Hns ?]. rewrite Hs1 in Hns. split; [done | set_solver].
Qed.

Lemma step_relaxed st evs st' :
  inv st → relaxed st → step W G start target st = Continue evs st' → relaxed st'.
Proof.
  intros (rk & Hcore & _) Hrelaxed. unfold step.
  destruct (heappop (pq st)) as [[[d u] pq']|] eqn:Hpop; [|done].
  case_decide as Hseen; [intros [= <- <-]; exact Hrelaxed|].
  case_decide as Hne; [by destruct (reconstruct _ _ _ _)|].
  destruct (neighbors G u) as [nbrs|] eqn:Hnb; [|done].
  destruct (settle_core W G start Hwf Hstart Hnonneg _ _ _ _ _ Hcore Hpop Hseen)
    as [Hcore1 Hrel1].
  destruct (relax_loop _ _ _ _ _ _) as [[st2 e2] [e|]] eqn:Hloop; [done|].
  intros [= <- <-].
  pose proof (relax_loop_frame _ _ _ _ _ _ _ _ _ Hloop) as (Hs2 & _).
  destruct (relax_loop_mono _ _ _ _ _ _ _ _ Hcore1 Hrel1
              ltac:(intros v Hv; by exists nbrs) Hloop) as (Hkeep & Hmono & Hnbrs & _).
  intros a b da Ha Hadj Hda. rewrite Hs2 in Ha. simpl in Ha, Hkeep, Hmono.
  rewrite Hkeep in Hda by done.
  apply elem_of_union in Ha as [->%elem_of_singleton | Ha].
  - destruct Hrel1 as (_ & Hdu & _). simpl in Hdu. rewrite Hdu in Hda.
    injection Hda as <-. destruct Hadj as (nbrs' & Hnb' & Hb).
    rewrite Hnb in Hnb'. injection Hnb' as <-. by apply Hnbrs.
  - destruct (Hrelaxed _ _ _ Ha Hadj Hda) as (db & Hdb & ?).
    destruct (Hmono _ _ Hdb) as (db' & Hdb' & ?). exists db'. split; [done | lia].
Qed.

Lemma steps_relaxed st pre st' :
  inv st → relaxed st → steps st pre st' → relaxed st'.
Proof.
  intros Hinv Hrel Hsteps. induction Hsteps as [|st evs st1 e1 st2 Hs IH Hstep]; [done|].
  eapply step_relaxed; [|by apply IH|done].
  by eapply (steps_inv W G start target Hwf Hstart Hnonneg).
Qed.

(** No walk from the origin is shorter than the distance popped next. *)
Lemma pop_lower_bound rk st d u pq' p x :
  core rk st → relaxed st → heappop (pq st) = Some ((d, u), pq') →
  is_route x p →
  (∃ dx, dist st !! x = Some (Finite dx) ∧ (dx ≤ path_weight W G p)%Z) ∨
  (d ≤ path_weight W G p)%Z.
Proof.
  intros Hcore Hrelaxed Hpop. apply heappop_Some in Hpop as (_ & _ & Hmin).
  revert x. induction p as [|x' q IH] using rev_ind; intros x (Hhead & Hlast & Hpath).
  { done. }
  rewrite last_snoc in Hlast. injection Hlast as ->.
  destruct q as [|a q].
  { injection Hhead as ->. left. exists 0%Z. split; [apply (core_start _ _ Hcore) | done]. }
  destruct (is_path_snoc_inv G (a :: q) x ltac:(done) Hpath) as (y & Hy & Hadj & Hq).
  rewrite (path_weight_snoc W G _ y) by done.
  pose proof (Hnonneg _ _ Hadj) as Hw.
  destruct (IH y) as [(dy & Hdy & Hle) | Hle]; [by split| |right; lia].
  destruct (decide (y ∈ seen st)) as [Hys | Hys].
  - destruct (Hrelaxed _ _ _ Hys Hadj Hdy) as (dx & Hdx & ?).
    left. exists dx. split; [done | lia].
  - pose proof (Hmin _ (core_front _ _ Hcore _ _ Hdy Hys)). simpl in *. right. lia.
Qed.

Lemma done_shortest :
  reachable G start target →
  shortest_spec W G start target (dijkstra_generator_with W G start target).
Proof.
  intros Hreach.
  destruct (reachable_done W G start target Hwf Hstart Hnonneg Hreach)
    as (pre & path & st & Hrun & _ & Hhead & Hlast & Hpath & Hdist).
  exists pre, path, st. split; [done|]. split; [done|].
  intros p Hp. pose proof (generator_terminates W G start target) as Hterm.
  unfold dijkstra_generator_with in *. rewrite Hrun in Hterm.
  destruct (run_decompose _ _ _ _ _ _ _ _ _ Hrun Hterm)
    as (pre' & stl & fin & Hsteps & Hfin & Hevs).
  pose proof (steps_binv W G start target Hwf Hstart _ _ _
                (binv_init G start target Hwf Hstart) Hsteps) as Hbinv.
  pose proof (inv_init W G start Hwf Hstart Hnonneg) as Hinv0.
  destruct (steps_inv W G start target Hwf Hstart Hnonneg _ _ _ Hinv0 Hsteps)
    as (rk & Hcore & _).
  assert (relaxed stl) as Hrelaxed.
  { eapply steps_relaxed; [exact Hinv0| |exact Hsteps].
    intros u v du Hu. simpl in Hu. set_solver. }
  destruct (step_stop_binv W G start target Hwf Hstart _ _ _ _ Hbinv Hfin)
    as [(_ & -> & _)|(d & pq' & Hpop & Htgt & -> & _)].
  { change [Visit target; Done path] with ([Visit target] ++ [Done path]) in Hevs.
    rewrite app_assoc in Hevs. by apply app_inj_tail in Hevs as [_ [=]]. }
  destruct (settle_core W G start Hwf Hstart Hnonneg _ _ _ _ _ Hcore Hpop Htgt)
    as [_ (_ & Hd & _)].
  simpl in Hd, Hdist. rewrite Hd in Hdist. injection Hdist as Hdist.
  destruct (pop_lower_bound _ _ _ _ _ p target Hcore Hrelaxed Hpop Hp)
    as [(dx & Hdx & Hle) | Hle]; [|lia].
  rewrite Hd in Hdx. injection Hdx as <-. lia.
Qed.
End ShortestFacts.

(** X1.  On a graph with non-negative lengths and a reachable target, the
    path carried by [done] is a shortest one: no walk of the graph from the
    origin to the target has a smaller sum of edge weights.  This holds of
    the generators of [animation.py] and of [upgrade.py], each with its own
    edge weight. *)
Theorem done_path_shortest (G : Graph) (start target : node) :
  graph_wf G → is_Some (G !! start) → nonneg_lengths G →
  reachable G start target →
  shortest_spec Animation.edge_weight G start target
    (Animation.dijkstra_generator G start target) ∧
  shortest_spec Upgrade.edge_weight G start target
    (Upgrade.dijkstra_generator G start target).
Proof.
  intros Hwf Hstart Hnn Hreach. split.
  - apply done_shortest; try done.
    intros u v _. apply weight_nonneg; [apply animation_weight_nonneg | done].
  - apply done_shortest; try done.
    intros u v _. apply weight_nonneg; [apply upgrade_weight_nonneg | done].
Qed.

Lemma done_path_shortest_witness :
  shortest_spec Animation.edge_weight cycle4 1 3
    (Animation.dijkstra_generator cycle4 1 3) ∧
  shortest_spec Upgrade.edge_weight cycle4 1 3
    (Upgrade.dijkstra_generator cycle4 1 3).
Proof.
  apply done_path_shortest;
    [apply cycle4_wf | by eexists | apply cycle4_nonneg | apply cycle4_reachable].
Defined.

(** ** What the search visits *)

Section ExploreFacts.
Variable W : edge_data → Z.
Variable G : Graph.
Variables start target : node.

Local Abbreviation steps := (steps W G start target).
Local Abbreviation binv := (binv G start target).

Lemma steps_seen st pre st' :
  steps st pre st' → seen st' = seen st ∪ list_to_set (visited pre).
Proof.
  induction 1 as [st|st evs st1 e1 st2 _ IH Hstep].
  - set_solver.
  - rewrite visited_app, list_to_set_app_L.
    pose proof (step_visited W G start target st1) as Hv. rewrite Hstep in Hv.
    destruct Hv as [[-> ->] | (u & -> & _ & ->)]; rewrite IH; set_solver.
Qed.

Hypothesis Hwf : graph_wf G.
Hypothesis Hstart : is_Some (G !! start).

Lemma step_seen_reachable st evs st' :
  binv st → (∀ u, u ∈ seen st → reachable G start u) →
  step W G start target st = Continue evs st' →
  ∀ u, u ∈ seen st' → reachable G start u.
Proof.
  intros Hbinv Hseen. unfold step.
  destruct (heappop (pq st)) as [[[d u] pq']|] eqn:Hpop; [|done].
  apply heappop_Some in Hpop as (Hin & _).
  case_decide; [by intros [= <- <-]|].
  case_decide; [by destruct (reconstruct _ _ _ _)|].
  destruct (neighbors G u) as [nbrs|]; [|done].
  destruct (relax_loop _ _ _ _ _ _) as [[st2 e2] [e|]] eqn:Hloop; [done|].
  intros [= <- <-] x. apply relax_loop_frame in Hloop as (-> & _). simpl.
  intros [->%elem_of_singleton | Hx]%elem_of_union; [|by apply Hseen].
  by apply (binv_pq _ Hbinv d).
Qed.

Lemma steps_seen_reachable st pre st' :
  binv st → (∀ u, u ∈ seen st → reachable G start u) →
  steps st pre st' → ∀ u, u ∈ seen st' → reachable G start u.
Proof.
  intros Hbinv Hseen Hsteps.
  induction Hsteps as [|st evs st1 e1 st2 Hs IH Hstep]; [done|].
  eapply step_seen_reachable; [|by apply IH|done].
  by eapply (steps_binv W G start target Hwf Hstart).
Qed.

Hypothesis Hnonneg : ∀ u v, adjacent G u v → (0 ≤ weight W G u v)%Z.

Lemma generator_explores :
  explores_spec G start target (dijkstra_generator_with W G start target).
Proof.
  pose proof (generator_terminates W G start target) as Hterm.
  unfold dijkstra_generator_with in *.
  destruct (run W G start target (fuel_of G) (init_state G start))
    as [[evs t] st] eqn:Hrun.
  destruct (run_decompose _ _ _ _ _ _ _ _ _ Hrun Hterm)
    as (pre & stl & fin & Hsteps & Hfin & ->).
  pose proof (binv_init G start target Hwf Hstart) as Hbinv0.
  pose proof (steps_binv W G start target Hwf Hstart _ _ _ Hbinv0 Hsteps) as Hbinv.
  pose proof (steps_seen _ _ _ Hsteps) as Hseen. simpl in Hseen.
  assert (∀ u, u ∈ seen stl → reachable G start u) as Hreach.
  { eapply steps_seen_reachable; [exact Hbinv0| |exact Hsteps]. simpl. set_solver. }
  unfold explores_spec. simpl. split.
  - intros u. rewrite visited_app.
    intros [Hu | Hu]%elem_of_app; [apply Hreach; rewrite Hseen; set_solver|].
    destruct (step_stop_binv W G start target Hwf Hstart _ _ _ _ Hbinv Hfin)
      as [(_ & -> & _)|(d & pq' & Hpop & _ & _ & Hrec)].
    { by apply elem_of_nil in Hu. }
    apply heappop_Some in Hpop as (Hin & _).
    assert (u = target) as ->; [|by apply (binv_pq _ Hbinv d)].
    destruct (reconstruct _ _ _ _); destruct Hrec as [-> _];
      by apply list_elem_of_singleton in Hu.
  - intros Hunreach u Hu. rewrite visited_app. apply elem_of_app. left.
    destruct (steps_inv W G start target Hwf Hstart Hnonneg _ _ _
                (inv_init W G start Hwf Hstart Hnonneg) Hsteps) as (rk & Hcore & Hclosed).
    destruct (step_stop_binv W G start target Hwf Hstart _ _ _ _ Hbinv Hfin)
      as [(Hempty & _)|(d & pq' & Hpop & _)].
    + pose proof (exhausted_settled W G start Hstart _ _ _ Hcore Hclosed Hempty Hu) as Hin.
      rewrite Hseen in Hin. set_solver.
    + apply heappop_Some in Hpop as (Hin & _).
      destruct Hunreach. by apply (binv_pq _ Hbinv d).
Qed.

(** A settled node is not relaxed again. *)
Lemma no_relax_of_app settled e1 e2 :
  no_relax_of settled (e1 ++ e2) ↔
  no_relax_of settled e1 ∧ no_relax_of (settled ∪ list_to_set (visited e1)) e2.
Proof.
  revert settled. induction e1 as [|e e1 IH]; intros settled.
  - simpl. replace (settled ∪ ∅) with settled by set_solver. tauto.
  - destruct e as [u|v|p|]; simpl; rewrite ?visited_Visit, IH.
    + replace ({[u]} ∪ settled ∪ list_to_set (visited e1))
        with (settled ∪ list_to_set (u :: visited e1)) by set_solver. done.
    + change (visited (Relax v :: e1)) with (visited e1). tauto.
    + change (visited (Done p :: e1)) with (visited e1). tauto.
    + change (visited (NoPath :: e1)) with (visited e1). tauto.
Qed.

Lemma no_relax_of_relaxes settled evs :
  visited evs = [] → Forall in_progress evs →
  (∀ x, Relax x ∈ evs → x ∉ settled) → no_relax_of settled evs.
Proof.
  induction evs as [|e evs IH]; intros Hv Hp Hx; [done|].
  apply Forall_cons in Hp as [He Hp]. destruct e as [u|v|p|]; try done.
  simpl. split; [apply Hx; set_solver|]. apply IH; [done | done |].
  intros x Hin. apply Hx. set_solver.
Qed.

Lemma run_no_relax_of fuel st :
  inv W G start st →
  no_relax_of (seen st) (run W G start target fuel st).1.1.
Proof.
  revert st. induction fuel as [|fuel IH]; intros st Hinv; [done|].
  rewrite run_S. pose proof Hinv as (rk & Hcore & _).
  destruct (step W G start target st) as [e1 st1|e1 t1 st1] eqn:Hstep.
  - pose proof (step_inv W G start target Hwf Hstart Hnonneg _ _ _ Hinv Hstep) as Hinv1.
    specialize (IH st1 Hinv1).
    destruct (run W G start target fuel st1) as [[e2 t2] st2]. simpl in *.
    apply no_relax_of_app. unfold step in Hstep.
    destruct (heappop (pq st)) as [[[d u] pq']|] eqn:Hpop; [|done].
    case_decide as Hseen.
    { injection Hstep as <- <-. simpl in *. split; [done|].
      by replace (seen st ∪ ∅) with (seen st) by set_solver. }
    case_decide; [by destruct (reconstruct _ _ _ _)|].
    destruct (neighbors G u) as [nbrs|] eqn:Hnb; [|done].
    destruct (settle_core W G start Hwf Hstart Hnonneg _ _ _ _ _ Hcore Hpop Hseen)
      as [Hcore1 Hrel1].
    destruct (relax_loop _ _ _ _ _ _) as [[st2' e2'] [e|]] eqn:Hloop; [done|].
    injection Hstep as <- <-.
    pose proof (relax_loop_frame _ _ _ _ _ _ _ _ _ Hloop) as (Hs2 & _ & Hv2 & Hp2).
    destruct (relax_loop_mono W G start Hwf Hstart Hnonneg _ _ _ _ _ _ _ _ Hcore1 Hrel1
                ltac:(intros v Hv; by exists nbrs) Hloop) as (_ & _ & _ & Hev).
    split.
    + simpl. apply no_relax_of_relaxes; [done | done |]. intros x Hx. by apply Hev.
    + replace (seen st ∪ list_to_set (visited (Visit u :: e2'))) with (seen st2');
        [done|]. rewrite Hs2, visited_Visit, Hv2. simpl. set_solver.
  - simpl. unfold step in Hstep.
    destruct (heappop (pq st)) as [[[d u] pq']|] eqn:Hpop;
      [|by injection Hstep as <- <- <-].
    case_decide as Hseen; [done|].
    case_decide.
    { destruct (reconstruct _ _ _ _); by injection Hstep as <- <- <-. }
    destruct (neighbors G u) as [nbrs|] eqn:Hnb; [|by injection Hstep as <- <- <-].
    destruct (settle_core W G start Hwf Hstart Hnonneg _ _ _ _ _ Hcore Hpop Hseen)
      as [Hcore1 Hrel1].
    destruct (relax_loop _ _ _ _ _ _) as [[st2' e2'] [e|]] eqn:Hloop; [|done].
    injection Hstep as <- <- <-.
    pose proof (relax_loop_frame _ _ _ _ _ _ _ _ _ Hloop) as (Hs2 & _ & Hv2 & Hp2).
    destruct (relax_loop_mono W G start Hwf Hstart Hnonneg _ _ _ _ _ _ _ _ Hcore1 Hrel1
                ltac:(intros v Hv; by exists nbrs) Hloop) as (_ & _ & _ & Hev).
    simpl. apply no_relax_of_relaxes; [done | done |]. intros x Hx. by apply Hev.
Qed.

Lemma no_relax_of_split settled l1 l2 v :
  no_relax_of settled (l1 ++ Visit v :: l2) → Relax v ∉ l2.
Proof.
  intros [_ H]%no_relax_of_app. simpl in H.
  assert (∀ S l, v ∈ S → no_relax_of S l → Relax v ∉ l) as Hgen.
  { clear. intros S l. revert S. induction l as [|e l IH]; intros S Hv Hl.
    - apply not_elem_of_nil.
    - apply not_elem_of_cons. destruct e as [u|x|p|]; simpl in Hl.
      + split; [done|]. eapply IH; [|done]. set_solver.
      + destruct Hl as [Hx Hl]. split; [by intros [= ->]|]. by eapply IH.
      + split; [done|]. by eapply IH.
      + split; [done|]. by eapply IH. }
  eapply Hgen; [|done]. set_solver.
Qed.

Lemma generator_settles_for_good l1 l2 v :
  (dijkstra_generator_with W G start target).1.1 = l1 ++ Visit v :: l2 →
  Relax v ∉ l2.
Proof.
  intros Hevs. eapply no_relax_of_split. rewrite <- Hevs.
  apply run_no_relax_of, inv_init; done.
Qed.
End ExploreFacts.

(** X2.  On a graph with non-negative lengths, the generator of
    [animation.py] visits only nodes that can be reached from the origin;
    and when the target cannot be reached, it has visited every node that
    can be reached by the time it yields [no_path]. *)
Theorem search_explores_component (G : Graph) (start target : node) :
  graph_wf G → is_Some (G !! start) → nonneg_lengths G →
  explores_spec G start target (Animation.dijkstra_generator G start target).
Proof.
  intros Hwf Hstart Hnn. apply generator_explores; try done.
  intros u v _. apply weight_nonneg; [apply animation_weight_nonneg | done].
Qed.

Lemma search_explores_component_witness :
  explores_spec islands 1 3 (Animation.dijkstra_generator islands 1 3).
Proof.
  apply search_explores_component; [apply islands_wf | by eexists |].
  intros u l v data Hu Hin. apply elem_of_list_to_map_2 in Hu.
  assert (data = Keyed {[ 0%Z := Some 4%Z ]}) as ->.
  { repeat (apply elem_of_cons in Hu as [[= -> ->] | Hu]);
      [..|by apply elem_of_nil in Hu];
      repeat (apply elem_of_cons in Hin as [[= -> ->] | Hin]);
      (by apply elem_of_nil in Hin) || done. }
  intros k x Hk. apply lookup_singleton_Some in Hk as [_ [= <-]]. lia.
Defined.

(** X3.  On a graph with non-negative lengths, once the generator has
    yielded [visit v] it never yields [relax v] afterwards: a settled node
    is not relaxed again, although the loop over the neighbours does not
    test for it. *)
Theorem settled_never_relaxed (G : Graph) (start target : node)
    (l1 l2 : list event) (v : node) :
  graph_wf G → is_Some (G !! start) → nonneg_lengths G →
  (Animation.dijkstra_generator G start target).1.1 = l1 ++ Visit v :: l2 →
  Relax v ∉ l2.
Proof.
  intros Hwf Hstart Hnn. apply generator_settles_for_good; try done.
  intros u w _. apply weight_nonneg; [apply animation_weight_nonneg | done].
Qed.

Lemma settled_never_relaxed_witness :
  Relax 2 ∉ [Relax 3; Visit 4; Visit 3; Done [1; 2; 3]]%Z.
Proof.
  apply (settled_never_relaxed cycle4 1 3 [Visit 1; Relax 2; Relax 4]%Z
           [Relax 3; Visit 4; Visit 3; Done [1; 2; 3]]%Z 2);
    [apply cycle4_wf | by eexists | apply cycle4_nonneg |].
  vm_compute. reflexivity.
Defined.

(** ** How many events a run yields *)

Section BudgetFacts.
Variable W : edge_data → Z.
Variable G : Graph.
Variables start target : node.

Lemma relax_loop_pushes d u nbrs st st' evs r :
  relax_loop W G d u nbrs st = (st', evs, r) →
  length (pq st') = length (pq st) + length evs ∧ length evs ≤ length nbrs.
Proof.
  revert st st' evs r. induction nbrs as [|v rest IH]; intros st st' evs r; simpl.
  - intros [= <- <- <-]. simpl. lia.
  - destruct (relax_one W G d u v st) as [[st1 e1] r1] eqn:H1.
    assert (length (pq st1) = length (pq st) + length e1 ∧ length e1 ≤ 1) as [Hp1 Hl1].
    { apply relax_one_cases in H1
        as [(_ & -> & -> & _)|[(dv & _ & _ & -> & -> & _)|(dv & _ & _ & -> & -> & _)]];
        simpl; lia. }
    destruct r1 as [e|]; [intros [= <- <- <-]; lia|].
    destruct (relax_loop W G d u rest st1) as [[st2 e2] r2] eqn:H2.
    intros [= <- <- <-]. destruct (IH _ _ _ _ H2). rewrite length_app. lia.
Qed.

Lemma step_budget st :
  match step W G start target st with
  | Continue evs st' => length evs + event_budget G st' ≤ event_budget G st
  | Stop evs _ _ => length evs ≤ event_budget G st + 2
  end.
Proof.
  unfold step. destruct (heappop (pq st)) as [[[d u] pq']|] eqn:Hpop; [|simpl; lia].
  apply heappop_Some in Hpop as (Hin & -> & _). apply remove_first_length in Hin.
  case_decide as Hseen; [unfold event_budget; simpl; lia|].
  case_decide; [destruct (reconstruct _ _ _ _); simpl; lia|].
  unfold neighbors. destruct (G !! u) as [l|] eqn:Hu; simpl; [|lia].
  destruct (relax_loop _ _ _ _ _ _) as [[st2 e2] r] eqn:Hloop.
  pose proof (relax_loop_frame _ _ _ _ _ _ _ _ _ Hloop) as (Hs & _).
  apply relax_loop_pushes in Hloop as [Hp Hl]. simpl in Hs, Hp.
  rewrite length_fmap in Hl.
  pose proof (degree_sum_settle (map_to_list G) u l (seen st)) as Hd.
  rewrite elem_of_map_to_list in Hd. specialize (Hd Hu Hseen).
  change (unsettled_degree G ({[u]} ∪ seen st) + length l
          ≤ unsettled_degree G (seen st)) in Hd.
  unfold event_budget. rewrite ?Hs, ?Hp.
  destruct r; cbn [length pq seen]; rewrite ?Hs, ?Hp; lia.
Qed.

Lemma run_budget fuel st :
  length (run W G start target fuel st).1.1 ≤ event_budget G st + 2.
Proof.
  revert st. induction fuel as [|fuel IH]; intros st; [simpl; lia|].
  rewrite run_S. pose proof (step_budget st) as Hstep.
  destruct (step W G start target st) as [e1 st1|e1 t1 st1]; [|done].
  specialize (IH st1). destruct (run W G start target fuel st1) as [[e2 t2] st2].
  simpl in *. rewrite length_app. lia.
Qed.
End BudgetFacts.


(** ** The ETA label *)

Lemma adjacent_edge_data (G : Graph) u v :
  adjacent G u v →
  ∃ l data, G !! u = Some l ∧ (v, data) ∈ l ∧ get_edge_data G u v = Some data.
Proof.
  intros (nbrs & Hn & Hv). unfold neighbors in Hn. unfold get_edge_data.
  destruct (G !! u) as [l|]; [|done]. injection Hn as <-. simpl.
  assert (∃ data, assoc v l = Some data) as [data Hdata].
  { induction l as [|[k a] l IH]; [by apply elem_of_nil in Hv|].
    simpl. case_decide; [eauto|]. apply IH.
    apply elem_of_cons in Hv as [->|]; done. }
  exists l, data. split; [done|]. split; [by apply assoc_elem | done].
Qed.

Lemma eta_weight_engine data :
  has_length data →
  eta_weight data = Upgrade.edge_weight data ∧
  eta_weight data = Animation.edge_weight data.
Proof.
  destruct data as [m|a]; simpl; [|by intros [x ->]].
  intros [H0 Hall].
  assert (negb (bool_decide (m = ∅)) && bool_decide (is_Some (m !! 0%Z)) = true) as ->.
  { apply andb_true_iff. split; [|by apply bool_decide_eq_true].
    apply negb_true_iff, bool_decide_eq_false. intros ->.
    destruct H0 as [? H0]. by rewrite lookup_empty in H0. }
  assert (Forall (fun kv : Z * option Z => is_Some kv.2) (map_to_list m)) as HL.
  { apply Forall_forall. intros [k a] Hin. apply elem_of_map_to_list in Hin.
    by eapply Hall. }
  assert ((fun kv : Z * option Z => default 0%Z kv.2) <$> map_to_list m
          = (fun kv => default 1%Z kv.2) <$> map_to_list m) as <-.
  { induction HL as [|[k a] L Ha _ IH]; [done|].
    destruct a as [x|]; [|by destruct Ha as [? [=]]].
    by rewrite !fmap_cons, IH. }
  assert ((fun kv : Z * option Z => default 0%Z kv.2) <$> map_to_list m
          = omap snd (map_to_list m)) as <-.
  { induction HL as [|[k a] L Ha _ IH]; [done|].
    destruct a as [x|]; [|by destruct Ha as [? [=]]].
    by rewrite fmap_cons, omap_cons_eq, IH. }
  destruct (map_to_list m) as [|kv L] eqn:HL'; [|done].
  apply map_to_list_empty_iff in HL'. subst m.
  destruct H0 as [? H0]. by rewrite lookup_empty in H0.
Qed.

Lemma eta_total_path_weight (G : Graph) total p :
  all_lengths G → is_path G p →
  eta_total G total p = (total + path_weight Upgrade.edge_weight G p)%Z ∧
  eta_total G total p = (total + path_weight Animation.edge_weight G p)%Z.
Proof.
  intros Hall. revert total. induction p as [|a [|b p] IH]; intros total Hp.
  - simpl. lia.
  - simpl. lia.
  - destruct Hp as [Hab Hp].
    destruct (adjacent_edge_data G a b Hab) as (l & data & Hl & Hin & Hdata).
    destruct (eta_weight_engine data (Hall _ _ _ _ Hl Hin)) as [Hu Ha].
    change (eta_total G total (a :: b :: p))
      with (eta_total G (total + eta_weight (default empty_dict (get_edge_data G a b)))
              (b :: p)).
    change (path_weight Upgrade.edge_weight G (a :: b :: p))
      with (weight Upgrade.edge_weight G a b
            + path_weight Upgrade.edge_weight G (b :: p))%Z.
    change (path_weight Animation.edge_weight G (a :: b :: p))
      with (weight Animation.edge_weight G a b
            + path_weight Animation.edge_weight G (b :: p))%Z.
    unfold weight. rewrite Hdata. simpl default.
    destruct (IH (total + eta_weight data)%Z Hp) as [E1 E2].
    split; [rewrite E1 | rewrite E2]; lia.
Qed.


Lemma cycle4_all_lengths : all_lengths cycle4.
Proof.
  intros u l v data Hu Hin. apply elem_of_list_to_map_2 in Hu.
  assert (data = unit_edge) as ->.
  { repeat (apply elem_of_cons in Hu as [[= -> ->] | Hu]);
      [..|by apply elem_of_nil in Hu];
      repeat (apply elem_of_cons in Hin as [[= -> ->] | Hin]);
      (by apply elem_of_nil in Hin) || done. }
  split; [by eexists|]. intros k a Hk. unfold unit_edge in Hk.
  apply lookup_singleton_Some in Hk as [_ <-]. by eexists.
Qed.


(** ** The tables of [compute_distance_matrix] *)

Lemma mapM_Ok_length {A B} (f : A → result B) l ys :
  mapM f l = Ok ys → length ys = length l.
Proof.
  revert ys. induction l as [|a l IH]; intros ys Hm.
  - by injection Hm as <-.
  - apply mapM_cons_Ok in Hm as (y & k & _ & Hk & ->). simpl. f_equal. by apply IH.
Qed.

Lemma mapM_Ok_all {A B} (f : A → result B) l :
  (∀ x, x ∈ l → ∃ y, f x = Ok y) → ∃ ys, mapM f l = Ok ys.
Proof.
  induction l as [|a l IH]; intros Hall; [by exists []|].
  destruct (Hall a) as [y Hy]; [set_solver|].
  destruct IH as [k Hk]; [intros x Hx; apply Hall; set_solver|].
  exists (y :: k). apply mapM_cons_Ok. by exists y, k.
Qed.

Section TableFacts.
Variable nx : Graph → node → node → nx_result.
Variable G : Graph.
Variable base_node : node.
Variable emergency_nodes : list node.

Local Abbreviation pts := (points base_node emergency_nodes).

Lemma matrix_row_spec i row :
  matrix_row nx G base_node emergency_nodes i = Ok row →
  length row = length pts ∧
  ∀ j pj, pts !! j = Some pj →
    ∃ e, row !! j = Some e ∧ matrix_entry nx G base_node emergency_nodes i j = Ok e.
Proof.
  intros Hrow. split.
  - apply mapM_Ok_length in Hrow. by rewrite length_seq in Hrow.
  - intros j pj Hj.
    assert (seq 0 (length pts) !! j = Some j) as Hsj.
    { apply lookup_seq. split; [done|]. by eapply lookup_lt_Some. }
    destruct (mapM_Ok_lookup _ _ _ _ _ Hrow Hsj) as (e & He & Hre). by exists e.
Qed.

Lemma compute_distance_matrix_rows dm pm :
  compute_distance_matrix nx G base_node emergency_nodes = Ok (dm, pm) →
  ∃ rows : list (list (Z * list node)),
    dm = (fun row : list (Z * list node) => row.*1) <$> rows ∧
    pm = (fun row : list (Z * list node) => row.*2) <$> rows ∧
    length rows = length pts ∧
    Forall (fun row : list (Z * list node) => length row = length pts) rows ∧
    ∀ i j pi pj, pts !! i = Some pi → pts !! j = Some pj →
      ∃ row e, rows !! i = Some row ∧ row !! j = Some e ∧
               matrix_entry nx G base_node emergency_nodes i j = Ok e.
Proof.
  unfold compute_distance_matrix. intros Hcm.
  destruct (mapM _ _) as [rows|e] eqn:Hrows; [|done]. injection Hcm as <- <-.
  exists rows. split; [done|]. split; [done|].
  assert (length rows = length pts) as Hlen.
  { apply mapM_Ok_length in Hrows. by rewrite length_seq in Hrows. }
  assert (∀ i pi, pts !! i = Some pi →
            ∃ row, rows !! i = Some row ∧
                   matrix_row nx G base_node emergency_nodes i = Ok row) as Hrow.
  { intros i pi Hi.
    assert (seq 0 (length pts) !! i = Some i) as Hsi.
    { apply lookup_seq. split; [done|]. by eapply lookup_lt_Some. }
    destruct (mapM_Ok_lookup _ _ _ _ _ Hrows Hsi) as (row & Hr & Hri). by exists row. }
  split; [done|]. split.
  - apply Forall_forall. intros row Hin.
    apply list_elem_of_lookup in Hin as [i Hi].
    destruct (lookup_lt_is_Some_2 pts i) as [pi Hpi].
    { rewrite <- Hlen. by eapply lookup_lt_Some. }
    destruct (Hrow i pi Hpi) as (row' & Hr' & Hrow').
    rewrite Hi in Hr'. injection Hr' as <-. by apply matrix_row_spec in Hrow' as [? _].
  - intros i j pi pj Hi Hj. destruct (Hrow i pi Hi) as (row & Hr & Hmr).
    destruct (matrix_row_spec i row Hmr) as [_ Hcol].
    destruct (Hcol j pj Hj) as (e & He & Hme). by exists row, e.
Qed.

Lemma compute_distance_matrix_square dm pm :
  compute_distance_matrix nx G base_node emergency_nodes = Ok (dm, pm) →
  square dm (length pts) ∧ table_shape pm (length pts).
Proof.
  intros (rows & -> & -> & Hlen & Hall & _)%compute_distance_matrix_rows.
  split.
  - split; [by rewrite length_fmap|]. apply Forall_fmap.
    eapply Forall_impl; [exact Hall|]. intros row Hr. simpl. by rewrite length_fmap.
  - split; [by rewrite length_fmap|]. apply Forall_fmap.
    eapply Forall_impl; [exact Hall|]. intros row Hr. simpl. by rewrite length_fmap.
Qed.

Lemma path_length_Ok total p :
  is_path G p → ∃ d, path_length G total p = Ok d.
Proof.
  revert total. induction p as [|a [|b p] IH]; intros total Hp;
    [by eexists | by eexists |].
  destruct Hp as [Hab Hp].
  destruct (adjacent_edge_data G a b Hab) as (l & data & _ & _ & Hdata).
  change (path_length G total (a :: b :: p))
    with (edge_length G a b ≫= fun w => path_length G (total + w)%Z (b :: p)).
  unfold edge_length. rewrite Hdata.
  destruct data as [m|attrs]; [destruct (m !! 0%Z)|]; simpl; by apply IH.
Qed.

Lemma compute_distance_matrix_Ok :
  (∀ s t p, nx G s t = NxPath p → is_path G p) →
  ∃ dm pm, compute_distance_matrix nx G base_node emergency_nodes = Ok (dm, pm).
Proof.
  intros Hnx. unfold compute_distance_matrix.
  destruct (mapM_Ok_all (matrix_row nx G base_node emergency_nodes)
              (seq 0 (length pts))) as [rows ->]; [|by eexists _, _].
  intros i Hi%elem_of_seq. unfold matrix_row. apply mapM_Ok_all.
  intros j Hj%elem_of_seq. unfold matrix_entry, index.
  destruct (lookup_lt_is_Some_2 pts i) as [pi ->]; [lia|].
  destruct (lookup_lt_is_Some_2 pts j) as [pj ->]; [lia|].
  case_decide; [by eexists|]. simpl.
  destruct (path_length_Ok 0 (dijkstra_shortest_path nx G pi pj)) as [d ->];
    [|by eexists].
  unfold dijkstra_shortest_path. destruct (nx G pi pj) eqn:Hp; [by eapply Hnx | done].
Qed.
End TableFacts.

(** Whatever the target, a path carried by [done] is a walk of the graph. *)
Lemma done_is_walk (W : edge_data → Z) (G : Graph) (start target : node) path :
  graph_wf G → is_Some (G !! start) →
  (∀ u v, adjacent G u v → (0 ≤ weight W G u v)%Z) →
  last (dijkstra_generator_with W G start target).1.1 = Some (Done path) →
  is_path G path.
Proof.
  intros Hwf Hstart Hnonneg Hlast.
  pose proof (generator_terminates W G start target) as Hterm.
  unfold dijkstra_generator_with in *.
  destruct (run W G start target (fuel_of G) (init_state G start))
    as [[evs t] st] eqn:Hrun.
  destruct (run_decompose _ _ _ _ _ _ _ _ _ Hrun Hterm)
    as (pre & stl & fin & Hsteps & Hfin & ->).
  pose proof (steps_binv W G start target Hwf Hstart _ _ _
                (binv_init G start target Hwf Hstart) Hsteps) as Hbinv.
  destruct (steps_inv W G start target Hwf Hstart Hnonneg _ _ _
              (inv_init W G start Hwf Hstart Hnonneg) Hsteps) as (rk & Hcore & _).
  simpl in Hlast.
  destruct (step_stop_binv W G start target Hwf Hstart _ _ _ _ Hbinv Hfin)
    as [(_ & -> & _)|(d & pq' & Hpop & Htgt & -> & Hrec)].
  { by rewrite last_snoc in Hlast. }
  destruct (settle_core W G start Hwf Hstart Hnonneg _ _ _ _ _ Hcore Hpop Htgt)
    as [Hcore1 _].
  set (st1 := State (dist stl) (prev stl) pq' ({[target]} ∪ seen stl)) in *.
  destruct (walk_settled W G start _ st1 (S (size (seen st1))) target Hcore1)
    as (chain & Hwalk & _ & Hpath & _).
  { simpl. set_solver. }
  { destruct (core_seen _ _ Hcore1 target) as (_ & _ & _ & Hlt & _);
      [simpl; set_solver|]. simpl in *. lia. }
  unfold reconstruct in Hrec. change (prev stl) with (prev st1) in Hrec.
  rewrite (Hwalk []) in Hrec. simpl in Hrec. destruct Hrec as [-> _].
  change [Visit target; Done (rev (chain ++ [start]))]
    with ([Visit target] ++ [Done (rev (chain ++ [start]))]) in Hlast.
  rewrite app_assoc, last_snoc in Hlast. injection Hlast as <-.
  by rewrite rev_app_distr.
Qed.

(** The repository's engine in the place of [nx.shortest_path] answers with
    walks of the graph. *)
Lemma engine_walks (G : Graph) (s t : node) p :
  graph_wf G → nonneg_lengths G →
  engine_shortest_path G s t = NxPath p → is_path G p.
Proof.
  intros Hwf Hnn. unfold engine_shortest_path.
  destruct (last _) as [[| |path|]|] eqn:Hlast; try done. intros [= <-].
  destruct (G !! s) as [l|] eqn:Hs.
  - eapply (done_is_walk Upgrade.edge_weight G s t); [done | by eexists | | exact Hlast].
    intros u v _. apply weight_nonneg; [apply upgrade_weight_nonneg | done].
  - revert Hlast.
    unfold Upgrade.dijkstra_generator, dijkstra_generator_with, fuel_of.
    change (2 + ?n) with (S (S n)). rewrite run_S.
    unfold step. change (pq (init_state G s)) with [(0%Z, s)].
    rewrite heappop_singleton. cbn [seen init_state].
    rewrite decide_False by set_solver.
    case_decide as Hst.
    + unfold reconstruct. simpl. intros [= <-]. done.
    + unfold neighbors. rewrite Hs. simpl. done.
Qed.

(** X6.  The tables [compute_distance_matrix] returns have one row and one
    column per point (the base and the emergencies); on the diagonal the
    distance is 0 and the path is the point alone; elsewhere the path is
    the one [dijkstra_shortest_path] answers and the distance is the sum of
    the lengths along it. *)
Theorem distance_tables_shape (nx : Graph → node → node → nx_result)
    (G : Graph) (base_node : node) (emergency_nodes : list node)
    (dm : list (list Z)) (pm : list (list (list node))) :
  compute_distance_matrix nx G base_node emergency_nodes = Ok (dm, pm) →
  tables_spec nx G base_node emergency_nodes dm pm.
Proof.
  intros Hcm. destruct (compute_distance_matrix_square _ _ _ _ _ _ Hcm) as [Hsq Hshape].
  destruct (compute_distance_matrix_rows _ _ _ _ _ _ Hcm)
    as (rows & -> & -> & _ & _ & Hentry).
  split; [done|]. split; [done|].
  assert (∀ i j pi pj,
            points base_node emergency_nodes !! i = Some pi →
            points base_node emergency_nodes !! j = Some pj →
            ∃ e, matrix_entry nx G base_node emergency_nodes i j = Ok e ∧
                 matrix_get ((fun row : list (Z * list node) => row.*1) <$> rows) i j
                   = Ok e.1 ∧
                 (((fun row : list (Z * list node) => row.*2) <$> rows) !! i
                    ≫= (.!! j)) = Some e.2) as Hget.
  { intros i j pi pj Hi Hj. destruct (Hentry i j pi pj Hi Hj) as (row & e & Hr & He & Hme).
    exists e. split; [done|].
    unfold matrix_get, index. rewrite !list_lookup_fmap, Hr. simpl.
    by rewrite !list_lookup_fmap, He. }
  split.
  - intros i pi Hi. destruct (Hget i i pi pi Hi Hi) as (e & He & Hd & Hp).
    unfold matrix_entry, index in He. rewrite decide_True, Hi in He by done.
    injection He as <-. done.
  - intros i j pi pj Hne Hi Hj. destruct (Hget i j pi pj Hi Hj) as (e & He & Hd & Hp).
    unfold matrix_entry, index in He. rewrite decide_False, Hi, Hj in He by done.
    simpl in He.
    destruct (path_length G 0 (dijkstra_shortest_path nx G pi pj)) as [d|err] eqn:Hpl;
      [|done].
    injection He as <-. split; [done|]. by exists d.
Qed.

Lemma distance_tables_shape_witness :
  tables_spec engine_shortest_path cycle4 1%Z [3%Z]
    [[0; 2]; [2; 0]]%Z [[[1]; [1; 2; 3]]; [[3; 2; 1]; [3]]]%Z.
Proof. apply distance_tables_shape. by vm_compute. Defined.

(** X7.  When [nx.shortest_path] answers with walks of the graph only, the
    dispatch computation goes through: [compute_distance_matrix] raises
    nothing, and on its distance table [find_best_partition_and_routes]
    raises nothing either and ends with a finite best cost. *)
Theorem dispatch_tables_then_optimizer (nx : Graph → node → node → nx_result)
    (G : Graph) (base_node : node) (emergency_nodes : list node) :
  (∀ s t p, nx G s t = NxPath p → is_path G p) →
  pipeline_spec nx G base_node emergency_nodes.
Proof.
  intros Hnx.
  destruct (compute_distance_matrix_Ok nx G base_node emergency_nodes Hnx)
    as (dm & pm & Hcm).
  destruct (compute_distance_matrix_square _ _ _ _ _ _ Hcm) as (Hsq & _).
  destruct (find_best_partition_and_routes_spec emergency_nodes dm Hsq)
    as (mask & o1 & o2 & _ & _ & _ & Hbest & _).
  eexists dm, pm, _, _. split; [done|]. split; [exact Hbest | done].
Qed.

Lemma dispatch_tables_then_optimizer_witness :
  pipeline_spec engine_shortest_path cycle4 1%Z [3%Z; 4%Z].
Proof.
  apply dispatch_tables_then_optimizer.
  intros s t p. apply engine_walks; [apply cycle4_wf | apply cycle4_nonneg].
Defined.

(** ** Ties in the optimizer *)

Lemma testbit_top (x : Z) (m : nat) :
  (0 ≤ x < 2 ^ Z.of_nat (S m))%Z →
  Z.testbit x (Z.of_nat m) = true ↔ (2 ^ Z.of_nat m ≤ x)%Z.
Proof.
  intros Hx. rewrite Nat2Z.inj_succ, Z.pow_succ_r in Hx by lia.
  assert (0 < 2 ^ Z.of_nat m)%Z as Hpos by (apply Z.pow_pos_nonneg; lia).
  rewrite Z.testbit_true by lia.
  destruct (decide (x < 2 ^ Z.of_nat m)%Z) as [Hlt|Hge].
  - rewrite Z.div_small by lia. split; [done | lia].
  - replace (x / 2 ^ Z.of_nat m)%Z with 1%Z; [split; [lia | done]|].
    apply (Z.div_unique x (2 ^ Z.of_nat m) 1 (x - 2 ^ Z.of_nat m)); lia.
Qed.

Lemma seqZ_prefix (N : Z) l1 k l2 j :
  seqZ 0 N = l1 ++ k :: l2 → (0 ≤ j < k)%Z → j ∈ l1.
Proof.
  intros Heq Hj.
  assert (k = Z.of_nat (length l1)) as Hk.
  { assert (seqZ 0 N !! length l1 = Some k) as Hl
      by (rewrite Heq; apply list_lookup_middle; done).
    apply lookup_seqZ in Hl. lia. }
  destruct (lookup_lt_is_Some_2 l1 (Z.to_nat j)) as [x Hx]; [lia|].
  assert (seqZ 0 N !! Z.to_nat j = Some x) as Hl
    by (rewrite Heq; by apply lookup_app_l_Some).
  apply lookup_seqZ in Hl. apply list_elem_of_lookup. exists (Z.to_nat j).
  rewrite Hx. f_equal. lia.
Qed.

Section Ties.
Variable emergency_nodes : list node.
Variable dm : list (list Z).
Hypothesis Hsquare : square dm (S (length emergency_nodes)).

Let n := length emergency_nodes.

Lemma subsets_cover mask :
  subset1_of emergency_nodes mask ++ subset2_of emergency_nodes mask ≡ₚ seq 1 n.
Proof.
  apply NoDup_Permutation.
  - apply NoDup_app. split; [apply subset1_NoDup|]. split; [|apply subset2_NoDup].
    intros e He [_ Hno]%elem_of_subset2. done.
  - apply NoDup_seq.
  - intros e. rewrite elem_of_app, elem_of_subset2, elem_of_seq. fold n. split.
    + intros [[He _]%elem_of_subset1 | [He _]]; fold n in He; lia.
    + intros He. destruct (decide (e ∈ subset1_of emergency_nodes mask)); [by left|].
      right. split; [lia | done].
Qed.

(** The loop over the masks keeps the first mask of least cost: a later
    mask replaces the best one only when it is strictly cheaper. *)
Lemma partition_loop_first mask_list b :
  ∃ b',
    partition_loop emergency_nodes dm b mask_list = Ok b' ∧
    (b' = b ∨
     ∃ l1 mask l2 o1 o2,
       mask_list = l1 ++ mask :: l2 ∧
       o1 ≡ₚ subset1_of emergency_nodes mask ∧
       o2 ≡ₚ subset2_of emergency_nodes mask ∧
       b' = Best (Finite (round_trip dm o1 + round_trip dm o2))
                 (Some (subset1_of emergency_nodes mask,
                        subset2_of emergency_nodes mask))
                 (Some (Some o1, Some o2)) ∧
       lt_distance (round_trip dm o1 + round_trip dm o2) (best_cost b) = true ∧
       ∀ k p1 p2, k ∈ l1 →
         p1 ≡ₚ subset1_of emergency_nodes k →
         p2 ≡ₚ subset2_of emergency_nodes k →
         (round_trip dm o1 + round_trip dm o2
            < round_trip dm p1 + round_trip dm p2)%Z).
Proof.
  revert b. induction mask_list as [|mask rest IH]; intros b; simpl.
  { exists b. split; [done | by left]. }
  destruct (subsets_in_range emergency_nodes mask) as [Hr1 Hr2].
  destruct (find_best_route_order_spec emergency_nodes dm Hsquare _ Hr1)
    as (o1 & -> & Ho1 & Hmin1).
  destruct (find_best_route_order_spec emergency_nodes dm Hsquare _ Hr2)
    as (o2 & -> & Ho2 & Hmin2).
  simpl. set (total := (round_trip dm o1 + round_trip dm o2)%Z).
  assert (∀ p1 p2, p1 ≡ₚ subset1_of emergency_nodes mask →
            p2 ≡ₚ subset2_of emergency_nodes mask →
            (total ≤ round_trip dm p1 + round_trip dm p2)%Z) as Hmin.
  { intros p1 p2 Hp1 Hp2. specialize (Hmin1 _ Hp1). specialize (Hmin2 _ Hp2).
    unfold total. lia. }
  destruct (lt_distance total (best_cost b)) eqn:Hlt.
  - destruct (IH (Best (Finite total)
                    (Some (subset1_of emergency_nodes mask,
                           subset2_of emergency_nodes mask))
                    (Some (Some o1, Some o2))))
      as (b' & -> & Hwho).
    exists b'. split; [done|]. right.
    destruct Hwho as [-> | (l1 & k & l2 & q1 & q2 & -> & Hq1 & Hq2 & -> & Hlt' & Hfirst)].
    + exists [], mask, rest, o1, o2. split; [done|]. split; [done|]. split; [done|].
      split; [done|]. split; [done|]. by intros ? ? ? ?%elem_of_nil.
    + exists (mask :: l1), k, l2, q1, q2. split; [done|]. split; [done|].
      split; [done|]. split; [done|]. simpl in Hlt'. split.
      * destruct (best_cost b) as [y|]; simpl in *; lia.
      * intros j p1 p2 [-> | Hj]%elem_of_cons Hp1 Hp2; [|by eapply Hfirst].
        specialize (Hmin _ _ Hp1 Hp2). lia.
  - destruct (IH b) as (b' & -> & Hwho).
    exists b'. split; [done|].
    destruct Hwho as [-> | (l1 & k & l2 & q1 & q2 & -> & Hq1 & Hq2 & -> & Hlt' & Hfirst)];
      [by left|].
    right. exists (mask :: l1), k, l2, q1, q2. split; [done|]. split; [done|].
    split; [done|]. split; [done|]. split; [done|].
    intros j p1 p2 [-> | Hj]%elem_of_cons Hp1 Hp2; [|by eapply Hfirst].
    specialize (Hmin _ _ Hp1 Hp2).
    destruct (best_cost b) as [y|]; simpl in *; lia.
Qed.

Lemma find_best_first :
  ∃ mask o1 o2, first_minimum_spec emergency_nodes dm mask o1 o2.
Proof.
  destruct (find_best_partition_and_routes_spec emergency_nodes dm Hsquare)
    as (mask0 & o1' & o2' & _ & _ & _ & Hbest & _).
  unfold first_minimum_spec. unfold find_best_partition_and_routes in *.
  destruct (partition_loop_first (masks emergency_nodes) (Best Infinity None None))
    as (b' & Hloop & Hwho).
  destruct Hwho as [-> | (l1 & mask & l2 & o1 & o2 & Hsplit & Ho1 & Ho2 & -> & _ & Hfirst)].
  { rewrite Hloop in Hbest. done. }
  exists mask, o1, o2. split; [|split; [done|split; [done|split; [done|]]]].
  - apply elem_of_masks. rewrite Hsplit. set_solver.
  - intros k p1 p2 Hk. apply Hfirst. by eapply seqZ_prefix.
Qed.

End Ties.

(** X8.  Ties between splits go to the smallest mask: the optimizer's answer
    is the split of a mask such that every smaller mask costs strictly
    more, whatever the orders chosen for its two subsets (the comparison
    [total_cost < best_cost] is strict and the masks are tried in increasing
    order). *)
Theorem first_least_mask_wins (emergency_nodes : list node) (dm : list (list Z)) :
  square dm (S (length emergency_nodes)) →
  ∃ mask o1 o2, first_minimum_spec emergency_nodes dm mask o1 o2.
Proof.
  intros Hsquare.
  destruct (find_best_first emergency_nodes dm Hsquare) as (mask & o1 & o2 & Hspec).
  by exists mask, o1, o2.
Qed.

Lemma first_least_mask_wins_witness :
  ∃ mask o1 o2, first_minimum_spec [10%Z; 20%Z] table3 mask o1 o2.
Proof. apply first_least_mask_wins. split; [reflexivity|]. repeat constructor. Defined.

(** X9.  With at least one emergency and a square table, the emergency
    selected last is never given to the first ambulance: in the optimizer's
    answer it belongs to the second subset.  (The split of a mask and that
    of its complement cost the same, and the smaller of the two masks is
    tried first.) *)
Theorem last_emergency_goes_to_second (emergency_nodes : list node)
    (dm : list (list Z)) :
  square dm (S (length emergency_nodes)) →
  0 < length emergency_nodes →
  last_site_second emergency_nodes dm.
Proof.
  intros Hsquare Hn. set (n := length emergency_nodes) in *.
  destruct (find_best_first emergency_nodes dm Hsquare)
    as (mask & o1 & o2 & Hmask & Ho1 & Ho2 & Hbest & Hfirst).
  eexists _, _, _. split; [exact Hbest|]. split; [done|]. fold n.
  assert (n ∉ subset1_of emergency_nodes mask) as Hno.
  { intros [_ Hbit]%elem_of_subset1.
    destruct (split_has_mask emergency_nodes
                (subset2_of emergency_nodes mask) (subset1_of emergency_nodes mask))
      as (k & Hk%elem_of_masks & Hk1 & Hk2).
    { rewrite (Permutation_app_comm _ _). apply subsets_cover. }
    fold n in Hmask, Hk. replace n with (S (n - 1)) in Hmask, Hk by lia.
    assert (Z.testbit k (Z.of_nat (n - 1)) ≠ true) as Hkbit.
    { intros Hb.
      assert (n ∈ subset1_of emergency_nodes k) as Hin
        by (apply elem_of_subset1; fold n; split; [lia | done]).
      rewrite Hk1 in Hin. by apply elem_of_subset2 in Hin as [_ Hin];
        apply Hin, elem_of_subset1; fold n; split; [lia | done]. }
    rewrite testbit_top in Hkbit by done. apply testbit_top in Hbit; [|done].
    assert (round_trip dm o1 + round_trip dm o2
              < round_trip dm o2 + round_trip dm o1)%Z; [|lia].
    apply (Hfirst k); [lia | by rewrite Ho2 | by rewrite Ho1]. }
  split; [done|]. apply elem_of_subset2. fold n. split; [lia | done].
Qed.

Lemma last_emergency_goes_to_second_witness :
  last_site_second [10%Z; 20%Z] table3.
Proof.
  apply last_emergency_goes_to_second; [|simpl; lia].
  split; [reflexivity|]. repeat constructor.
Defined.

(** ** The dispatcher of [multiemergency.py] *)

Lemma list_index_Some x l i :
  MultiEmergency.list_index x l = Some i → l !! i = Some x.
Proof.
  revert i. induction l as [|y l IH]; intros i; simpl; [done|].
  case_decide as Hxy; [by intros [= <-]; subst|].
  destruct (MultiEmergency.list_index x l) as [j|]; [|done].
  intros [= <-]. by apply IH.
Qed.

Lemma list_index_None x l :
  MultiEmergency.list_index x l = None ↔ x ∉ l.
Proof.
  induction l as [|y l IH]; simpl; [split; [by intros _ ?%elem_of_nil | done]|].
  case_decide as Hxy.
  - subst. split; [done | intros []; by left].
  - destruct (MultiEmergency.list_index x l) as [j|]; simpl.
    + split; [done|]. intros Hno. exfalso.
      assert (Some j = None) as Hj; [|done].
      apply IH. intros Hin. apply Hno. by right.
    + split; [|done]. intros _ [->|Hin]%elem_of_cons; [done|]. by apply IH.
Qed.

Section PositionFacts.
Variable base_node : node.
Variable emergency_nodes : list node.
Variable pm : list (list (list node)).
Hypothesis Hshape : table_shape pm (length (points base_node emergency_nodes)).

Local Abbreviation pts := (points base_node emergency_nodes).
Local Abbreviation pairs_loop :=
  (MultiEmergency.pairs_loop base_node emergency_nodes pm).

Lemma list_index_point x :
  x ∈ pts → ∃ i, MultiEmergency.list_index x pts = Some i ∧ i < length pts.
Proof.
  intros Hx. destruct (MultiEmergency.list_index x pts) as [i|] eqn:Hi.
  - exists i. split; [done|]. apply list_index_Some in Hi. by eapply lookup_lt_Some.
  - by apply list_index_None in Hi.
Qed.

Lemma path_matrix_lookup i j :
  i < length pts → j < length pts → ∃ p, (pm !! i ≫= (.!! j)) = Some p.
Proof.
  intros Hi Hj. destruct Hshape as [Hlen Hrows].
  destruct (lookup_lt_is_Some_2 pm i) as [row Hrow]; [lia|]. rewrite Hrow. simpl.
  assert (length row = length pts) as Hrl.
  { eapply (proj1 (Forall_forall _ _) Hrows). by eapply list_elem_of_lookup_2. }
  destruct (lookup_lt_is_Some_2 row j) as [p Hp]; [lia|]. by exists p.
Qed.

Lemma pairs_loop_cons a b rest pos_list :
  pairs_loop (a :: b :: rest) pos_list
  = match MultiEmergency.list_index a pts with
    | None => inl MultiEmergency.ValueError
    | Some idx_start =>
        match MultiEmergency.list_index b pts with
        | None => inl MultiEmergency.ValueError
        | Some idx_end =>
            match pm !! idx_start ≫= (.!! idx_end) with
            | None => inl (MultiEmergency.Table IndexError)
            | Some intermediate_nodes =>
                pairs_loop (b :: rest) (pos_list ++ removelast intermediate_nodes)
            end
        end
    end.
Proof. reflexivity. Qed.

(** A route through points only: the loop over its pairs ends. *)
Lemma pairs_loop_inside route_path pos_list :
  (∀ x, x ∈ route_path → x ∈ pts) →
  ∃ l, pairs_loop route_path pos_list = inr l.
Proof.
  revert pos_list. induction route_path as [|a rest IH]; intros pos_list Hall;
    [by eexists|].
  destruct rest as [|b rest]; [by eexists|].
  destruct (list_index_point a) as (ia & Hia & Hlta); [apply Hall; set_solver|].
  destruct (list_index_point b) as (ib & Hib & Hltb); [apply Hall; set_solver|].
  destruct (path_matrix_lookup ia ib Hlta Hltb) as [p Hp].
  rewrite pairs_loop_cons, Hia, Hib, Hp.
  apply IH. intros x Hx. apply Hall. set_solver.
Qed.

(** A route that starts at a point and leaves the points: [list.index]
    raises [ValueError]. *)
Lemma pairs_loop_outside a rest x pos_list :
  a ∈ pts → x ∈ rest → x ∉ pts →
  pairs_loop (a :: rest) pos_list = inl MultiEmergency.ValueError.
Proof.
  revert a pos_list. induction rest as [|b rest IH]; intros a pos_list Ha Hx Hout;
    [by apply elem_of_nil in Hx|].
  destruct (list_index_point a Ha) as (ia & Hia & Hlta).
  rewrite pairs_loop_cons, Hia.
  destruct (decide (b ∈ pts)) as [Hb|Hb].
  - destruct (list_index_point b Hb) as (ib & Hib & Hltb).
    destruct (path_matrix_lookup ia ib Hlta Hltb) as [p Hp].
    rewrite Hib, Hp. apply IH; [done| |done].
    by apply elem_of_cons in Hx as [->|?].
  - apply list_index_None in Hb. by rewrite Hb.
Qed.

Lemma route_position_list_inside route_path :
  route_path ≠ [] → (∀ x, x ∈ route_path → x ∈ pts) →
  ∃ l, MultiEmergency.route_position_list base_node emergency_nodes pm route_path
         = inr l ∧ l ≠ [].
Proof.
  intros Hne Hall. unfold MultiEmergency.route_position_list.
  destruct (pairs_loop_inside route_path [] Hall) as [l ->].
  destruct (last route_path) as [z|] eqn:Hlast.
  - exists (l ++ [z]). split; [done|]. by destruct l.
  - by apply last_None in Hlast.
Qed.

Lemma route_position_list_outside route_path x :
  head route_path = Some base_node → x ∈ route_path → x ∉ pts →
  MultiEmergency.route_position_list base_node emergency_nodes pm route_path
    = inl MultiEmergency.ValueError.
Proof.
  intros Hhead Hx Hout. destruct route_path as [|a rest]; [done|].
  injection Hhead as ->. unfold MultiEmergency.route_position_list.
  assert (base_node ∈ pts) as Hbase by (unfold points; set_solver).
  rewrite (pairs_loop_outside base_node rest x); [done|done| |done].
  by apply elem_of_cons in Hx as [->|?].
Qed.
End PositionFacts.

(** The route builder goes through on orders within the table, and its
    route starts at the base. *)
Lemma build_loop_Ok (nx : Graph → node → node → nx_result) (G : Graph)
    (base_node : node) (emergency_nodes : list node) full_path order :
  full_path ≠ [] →
  Forall (fun idx => idx < S (length emergency_nodes)) order →
  ∃ p, build_loop nx G base_node emergency_nodes full_path order = Ok p ∧
       head p = head full_path.
Proof.
  revert full_path. induction order as [|idx rest IH]; intros full_path Hne Hall;
    [by exists full_path|].
  apply Forall_cons in Hall as [Hidx Hrest]. simpl. unfold extend_route.
  destruct (last full_path) as [z|] eqn:Hlast; [|by apply last_None in Hlast].
  simpl. unfold index.
  destruct (lookup_lt_is_Some_2 (points base_node emergency_nodes) idx) as [p ->];
    [unfold points; simpl; lia|].
  simpl. case_decide.
  - simpl. destruct (IH (full_path ++ drop 1 (dijkstra_shortest_path nx G z p)))
      as (q & -> & Hq); [by destruct full_path | done |].
    exists q. split; [done|]. rewrite Hq. by destruct full_path.
  - simpl. by apply IH.
Qed.

Lemma build_full_path_Ok (nx : Graph → node → node → nx_result) (G : Graph)
    (base_node : node) (emergency_nodes : list node) order :
  Forall (fun idx => idx < S (length emergency_nodes)) order →
  ∃ p, build_full_path nx G base_node emergency_nodes order = Ok p ∧
       head p = Some base_node ∧
       MultiEmergency.route_of nx G base_node emergency_nodes (Some order) = Ok p.
Proof.
  intros Hall. destruct order as [|idx rest]; [by exists [base_node]|].
  unfold MultiEmergency.route_of, build_full_path.
  destruct (build_loop_Ok nx G base_node emergency_nodes [base_node] (idx :: rest))
    as (p & Hp & Hhead); [done | done |].
  exists p. by rewrite Hp.
Qed.

(** With fewer than two position lists every frame raises [IndexError]. *)
Lemma anim_step_short g :
  length (MultiEmergency.route_positions g) < 2 →
  (MultiEmergency.anim_step g).2 = Some (MultiEmergency.Table IndexError).
Proof.
  destruct g as [paths positions indices]. simpl. intros Hlen.
  unfold MultiEmergency.anim_step. cbn [MultiEmergency.anim_loop].
  cbn [MultiEmergency.route_positions MultiEmergency.route_step_indices
       MultiEmergency.route_paths].
  destruct positions as [|p1 [|p2 rest]]; [done| |simpl in Hlen; lia].
  simpl. case_decide; [done|].
  destruct (indices !! 0) as [idx|]; [|done].
  destruct (p1 !! idx); [|done]. by case_decide.
Qed.

Lemma index_after_S k positions idx :
  positions = [] ∨ idx < length positions →
  index_after (S k) positions idx
  = index_after k positions (index_after 1 positions idx).
Proof.
  unfold index_after. intros Hidx. case_decide as Hlen; [done|].
  destruct Hidx as [->|Hidx]; [done|]. lia.
Qed.

Lemma index_after_inside k positions idx :
  positions = [] ∨ idx < length positions →
  positions = [] ∨ index_after k positions idx < length positions.
Proof.
  unfold index_after. intros [->|Hidx]; [by left|]. right.
  case_decide; lia.
Qed.

(** One frame on globals a frame can read. *)
Lemma anim_step_animatable paths p1 p2 i1 i2 :
  (p1 = [] ∨ i1 < length p1) → (p2 = [] ∨ i2 < length p2) →
  MultiEmergency.anim_step (MultiEmergency.Globals paths [p1; p2] [i1; i2])
  = (MultiEmergency.Globals paths [p1; p2]
       [index_after 1 p1 i1; index_after 1 p2 i2], None).
Proof.
  intros H1 H2.
  assert (∀ p i, p = [] ∨ i < length p →
            index_after 1 p i
            = if decide (length p = 0) then i
              else if decide (i < length p - 1) then S i else i) as Hone.
  { intros p i Hp. unfold index_after. repeat case_decide; lia. }
  rewrite !Hone by done. clear Hone.
  unfold MultiEmergency.anim_step.
  cbn [MultiEmergency.anim_loop MultiEmergency.route_positions
       MultiEmergency.route_step_indices MultiEmergency.route_paths].
  change ([p1; p2] !! 0) with (Some p1). change ([p1; p2] !! 1) with (Some p2).
  cbv beta iota.
  destruct (decide (length p1 = 0)) as [Hl1|Hl1].
  - change ([i1; i2] !! 1) with (Some i2). cbv beta iota.
    destruct (decide (length p2 = 0)) as [Hl2|Hl2]; [done|].
    destruct H2 as [->|H2]; [done|].
    destruct (lookup_lt_is_Some_2 p2 i2 H2) as [xy ->].
    by case_decide.
  - change ([i1; i2] !! 0) with (Some i1). cbv beta iota.
    destruct H1 as [->|H1]; [done|].
    destruct (lookup_lt_is_Some_2 p1 i1 H1) as [xy ->].
    destruct (decide (i1 < length p1 - 1)).
    + change (<[0:=S i1]> [i1; i2]) with [S i1; i2].
      change ([S i1; i2] !! 1) with (Some i2). cbv beta iota.
      destruct (decide (length p2 = 0)) as [Hl2|Hl2]; [done|].
      destruct H2 as [->|H2]; [done|].
      destruct (lookup_lt_is_Some_2 p2 i2 H2) as [xy2 ->].
      by case_decide.
    + change ([i1; i2] !! 1) with (Some i2). cbv beta iota.
      destruct (decide (length p2 = 0)) as [Hl2|Hl2]; [done|].
      destruct H2 as [->|H2]; [done|].
      destruct (lookup_lt_is_Some_2 p2 i2 H2) as [xy2 ->].
      by case_decide.
Qed.

Lemma frames_animatable k paths p1 p2 i1 i2 :
  (p1 = [] ∨ i1 < length p1) → (p2 = [] ∨ i2 < length p2) →
  MultiEmergency.frames k (MultiEmergency.Globals paths [p1; p2] [i1; i2])
  = (MultiEmergency.Globals paths [p1; p2]
       [index_after k p1 i1; index_after k p2 i2], None).
Proof.
  revert i1 i2. induction k as [|k IH]; intros i1 i2 H1 H2.
  - simpl. unfold index_after. repeat case_decide; repeat f_equal; lia.
  - cbn [MultiEmergency.frames]. rewrite anim_step_animatable by done.
    rewrite IH by (by apply index_after_inside).
    by rewrite <- !index_after_S.
Qed.

(** X10.  On globals a frame can read (two position lists, each index
    inside its list), [k] calls of [anim_step] raise nothing, leave the
    routes and the positions alone, and put each ambulance [k] positions
    further, or on the last position of its list when that comes first: the
    index never leaves the list. *)
Theorem frames_follow_route (k : nat) (g : MultiEmergency.globals) :
  animatable g → frames_spec k g.
Proof.
  intros (p1 & p2 & i1 & i2 & Hpos & Hidx & H1 & H2).
  destruct g as [paths positions indices]. simpl in Hpos, Hidx. subst.
  exists p1, p2, i1, i2. split; [done|]. split; [done|].
  by apply frames_animatable.
Qed.

Lemma frames_follow_route_witness :
  frames_spec 5
    (MultiEmergency.Globals [[1; 2; 3]; [1]]%Z [[1; 2; 3]; [1]]%Z [0; 0]).
Proof.
  apply frames_follow_route.
  exists [1; 2; 3]%Z, [1%Z], 0, 0. split; [done|]. split; [done|].
  split; right; simpl; lia.
Defined.



(** On the square 1-2-3-4 with the base at 1 and one emergency at 3, the
    route of the second ambulance passes through 2 and [dispatch] raises
    [ValueError] after the first ambulance's positions. *)
Example dispatch_across_the_square :
  MultiEmergency.dispatch engine_shortest_path cycle4 1%Z [3%Z]
    MultiEmergency.initial_globals
  = (MultiEmergency.Globals [[1]; [1; 2; 3]]%Z [[1%Z]] [0; 0],
     Some MultiEmergency.ValueError).
Proof. by vm_compute. Qed.

(** ** The clicks of [multiemergency.py] *)

Lemma on_click_spec base_node clicks s nearest :
  clicks_spec base_node clicks s →
  clicks_spec base_node (clicks ++ [nearest])
    (MultiEmergency.on_click base_node s nearest).
Proof.
  intros (Hnodup & Hbase & Hlen & Hfrom & Hall & Hcol & Hbcol).
  assert (∀ e, e ∈ MultiEmergency.emergency_nodes s → Some e ∈ clicks ++ [nearest])
    as Hfrom' by (intros e He; apply elem_of_app; left; by apply Hfrom).
  unfold MultiEmergency.on_click.
  destruct nearest as [c|].
  2:{ split; [done|]. split; [done|]. split; [done|]. split; [done|].
      split; [|done]. intros Hlt e [He|He]%elem_of_app; [by apply Hall|].
      by apply list_elem_of_singleton in He. }
  destruct (decide (c = base_node)) as [->|Hcb].
  { split; [done|]. split; [done|]. split; [done|]. split; [done|].
    split; [|done]. intros Hlt e [He|He]%elem_of_app Hne; [by apply Hall|].
    apply list_elem_of_singleton in He. congruence. }
  destruct (decide (c ∈ MultiEmergency.emergency_nodes s)) as [Hin|Hnew].
  { split; [done|]. split; [done|]. split; [done|]. split; [done|].
    split; [|done]. intros Hlt e [He|He]%elem_of_app Hne; [by apply Hall|].
    apply list_elem_of_singleton in He. congruence. }
  destruct (decide (MultiEmergency.MAX_EMERGENCIES ≤ _)) as [Hfull|Hroom].
  { split; [done|]. split; [done|]. split; [done|]. split; [done|].
    split; [|done]. intros Hlt. lia. }
  cbn [MultiEmergency.emergency_nodes MultiEmergency.node_color_map clicks_spec].
  unfold clicks_spec. cbn [MultiEmergency.emergency_nodes MultiEmergency.node_color_map].
  split; [|split; [|split; [|split; [|split; [|split]]]]].
  - apply NoDup_app. split; [done|]. split; [|apply NoDup_singleton].
    intros e He ->%list_elem_of_singleton. done.
  - intros [Hb|Hb%list_elem_of_singleton]%elem_of_app; [done | congruence].
  - rewrite length_app. simpl. lia.
  - intros e [He|He%list_elem_of_singleton]%elem_of_app; [by apply Hfrom'|].
    subst e. apply elem_of_app. right. by apply list_elem_of_singleton.
  - rewrite length_app. simpl. intros Hlt e [He|He]%elem_of_app Hne.
    + apply elem_of_app. left. apply Hall; [lia | done | done].
    + apply list_elem_of_singleton in He as [= ->].
      apply elem_of_app. right. by apply list_elem_of_singleton.
  - intros n. destruct (decide (n = c)) as [->|Hn].
    + rewrite lookup_insert_eq. split; [|done]. intros _.
      apply elem_of_app. right. by apply list_elem_of_singleton.
    + rewrite lookup_insert_ne by done. rewrite Hcol, elem_of_app.
      split; [by left|]. intros [?|?%list_elem_of_singleton]; done.
  - by rewrite lookup_insert_ne.
Qed.

(** X12.  Whatever is clicked, and wherever, the list of emergencies has no
    repetition, never holds the base, and has at most [MAX_EMERGENCIES]
    nodes, each of them clicked; as long as it has fewer, every clicked node
    other than the base is in it; the nodes drawn in the target colour are
    exactly the emergencies, and the base keeps its own colour. *)
Theorem clicks_select_emergencies (G : Graph) (base_node : node)
    (clicks : list (option node)) :
  clicks_spec base_node clicks
    (foldl (MultiEmergency.on_click base_node)
       (MultiEmergency.initial_selection G base_node) clicks).
Proof.
  induction clicks as [|nearest clicks IH] using rev_ind.
  - unfold clicks_spec, MultiEmergency.initial_selection.
    cbn [foldl MultiEmergency.emergency_nodes MultiEmergency.node_color_map].
    split; [apply NoDup_nil_2|]. split; [by intros ?%elem_of_nil|].
    split; [unfold MultiEmergency.MAX_EMERGENCIES; simpl; lia|].
    split; [by intros ? ?%elem_of_nil|]. split; [by intros _ ? ?%elem_of_nil|].
    split; [|by rewrite lookup_insert_eq].
    intros n. split; [|by intros ?%elem_of_nil].
    destruct (decide (base_node = n)) as [->|Hn].
    + by rewrite lookup_insert_eq.
    + rewrite lookup_insert_ne, lookup_fmap by done. by destruct (G !! n).
  - rewrite foldl_snoc. by apply on_click_spec.
Qed.

(** ** The animation of [animation.py] *)

Lemma paint_app evs1 evs2 cm : paint (evs1 ++ evs2) cm = paint evs2 (paint evs1 cm).
Proof.
  revert cm. induction evs1 as [|[u|v|p|] evs1 IH]; intros cm; simpl; by rewrite ?IH.
Qed.

Lemma paint_keys evs cm v : is_Some (cm !! v) → is_Some (paint evs cm !! v).
Proof.
  revert cm. induction evs as [|[u|w|p|] evs IH]; intros cm Hv; simpl; [done| | |by apply IH..].
  - apply IH. apply lookup_insert_is_Some. destruct (decide (u = v)); auto.
  - apply IH. case_decide; [|done].
    apply lookup_insert_is_Some. destruct (decide (w = v)); auto.
Qed.

Lemma paint_visit_stable evs cm n :
  cm !! n = Some VISIT_COLOR → paint evs cm !! n = Some VISIT_COLOR.
Proof.
  revert cm. induction evs as [|[u|w|p|] evs IH]; intros cm Hn; simpl; [done| | |by apply IH..].
  - apply IH. destruct (decide (u = n)) as [->|Hne];
      [by rewrite lookup_insert_eq | by rewrite lookup_insert_ne].
  - apply IH. case_decide as Hw; [|done].
    rewrite lookup_insert_ne; [done|]. intros ->. congruence.
Qed.

Lemma paint_visited evs cm n :
  n ∈ visited evs → paint evs cm !! n = Some VISIT_COLOR.
Proof.
  revert cm. induction evs as [|[u|w|p|] evs IH]; intros cm Hn.
  - by apply elem_of_nil in Hn.
  - rewrite visited_Visit in Hn. simpl.
    apply elem_of_cons in Hn as [->|Hn]; [|by apply IH].
    apply paint_visit_stable. by rewrite lookup_insert_eq.
  - simpl. by apply IH.
  - simpl. by apply IH.
  - simpl. by apply IH.
Qed.

Lemma paint_untouched evs cm n :
  n ∉ visited evs → Relax n ∉ evs → paint evs cm !! n = cm !! n.
Proof.
  revert cm. induction evs as [|[u|w|p|] evs IH]; intros cm Hv Hr; simpl; [done|..].
  - rewrite visited_Visit in Hv. rewrite IH; [|set_solver|set_solver].
    rewrite lookup_insert_ne; [done|]. intros ->. set_solver.
  - rewrite IH; [|done|set_solver]. case_decide; [|done].
    rewrite lookup_insert_ne; [done|]. intros ->. set_solver.
  - apply IH; [done | set_solver].
  - apply IH; [done | set_solver].
Qed.

Lemma color_path_elem cm path n :
  n ∈ path → AnimationLoop.color_path cm path !! n = Some PATH_COLOR.
Proof.
  unfold AnimationLoop.color_path. revert cm.
  induction path as [|m path IH] using rev_ind; intros cm Hn;
    [by apply elem_of_nil in Hn|].
  rewrite foldl_snoc. destruct (decide (m = n)) as [->|Hne].
  - by rewrite lookup_insert_eq.
  - rewrite lookup_insert_ne by done. apply IH. set_solver.
Qed.

Lemma relax_color (cm : gmap Z color) (v : node) (c : color) :
  (if decide (c = DEFAULT_NODE_COLOR) then <[v := FRONTIER_COLOR]> cm else cm)
  = (if decide (Some c = Some DEFAULT_NODE_COLOR)
     then <[v := FRONTIER_COLOR]> cm else cm).
Proof. repeat case_decide; congruence. Qed.

Section FrameFacts.
Variable g : AnimationLoop.globals.
Variable t : termination.

(** [n] events taken in one frame. *)
Lemma anim_events_batch n evs cm :
  n ≤ length evs → Forall in_progress (take n evs) →
  (∀ v, Relax v ∈ take n evs → is_Some (cm !! v)) →
  AnimationLoop.anim_events n evs t cm g
  = (AnimationLoop.searching g (paint (take n evs) cm) (Some (drop n evs, t)),
     AnimationLoop.Returns).
Proof.
  revert evs cm. induction n as [|n IH]; intros evs cm Hlen Hprog Hkeys; [done|].
  destruct evs as [|e evs]; [simpl in Hlen; lia|].
  simpl in Hlen. rewrite firstn_cons in Hprog, Hkeys.
  apply Forall_cons in Hprog as [He Hprog].
  destruct e as [u|v|p|]; try done; simpl.
  - apply IH; [lia | done |]. intros v Hv.
    apply lookup_insert_is_Some. destruct (decide (u = v)); [by left|].
    right. split; [done|]. apply Hkeys. set_solver.
  - destruct (Hkeys v) as [c Hc]; [set_solver|].
    rewrite Hc, (relax_color cm v c).
    apply IH; [lia | done |].
    intros w Hw. assert (is_Some (cm !! w)) by (apply Hkeys; set_solver).
    case_decide; [|done]. apply lookup_insert_is_Some.
    destruct (decide (v = w)); auto.
Qed.

(** The frame in which [done] arrives. *)
Lemma anim_events_done n pre n0 path rest cm :
  length pre < n → Forall in_progress pre →
  (∀ v, Relax v ∈ pre → is_Some (cm !! v)) →
  AnimationLoop.anim_events n (pre ++ Done (n0 :: path) :: rest) t cm g
  = (AnimationLoop.Globals
       (AnimationLoop.color_path (paint pre cm) (n0 :: path)) None (n0 :: path)
       0 true 0 (Some n0),
     AnimationLoop.Returns).
Proof.
  revert pre cm. induction n as [|n IH]; intros pre cm Hlen Hprog Hkeys; [lia|].
  destruct pre as [|e pre]; [done|].
  simpl in Hlen. apply Forall_cons in Hprog as [He Hprog].
  destruct e as [u|v|p|]; try done; simpl.
  - apply IH; [lia | done |]. intros v Hv.
    apply lookup_insert_is_Some. destruct (decide (u = v)); [by left|].
    right. split; [done|]. apply Hkeys. set_solver.
  - destruct (Hkeys v) as [c Hc]; [set_solver|].
    rewrite Hc, (relax_color cm v c).
    apply IH; [lia | done |].
    intros w Hw. assert (is_Some (cm !! w)) by (apply Hkeys; set_solver).
    case_decide; [|done]. apply lookup_insert_is_Some.
    destruct (decide (v = w)); auto.
Qed.

(** The frame in which [no_path] arrives. *)
Lemma anim_events_no_path n pre rest cm :
  length pre < n → Forall in_progress pre →
  (∀ v, Relax v ∈ pre → is_Some (cm !! v)) →
  AnimationLoop.anim_events n (pre ++ NoPath :: rest) t cm g
  = (AnimationLoop.Globals (paint pre cm) None (AnimationLoop.path_nodes g)
       (AnimationLoop.ambulance_index g) false
       (AnimationLoop.frames_since_path_found g) (AnimationLoop.ambulance_annot g),
     AnimationLoop.Returns).
Proof.
  revert pre cm. induction n as [|n IH]; intros pre cm Hlen Hprog Hkeys; [lia|].
  destruct pre as [|e pre]; [done|].
  simpl in Hlen. apply Forall_cons in Hprog as [He Hprog].
  destruct e as [u|v|p|]; try done; simpl.
  - apply IH; [lia | done |]. intros v Hv.
    apply lookup_insert_is_Some. destruct (decide (u = v)); [by left|].
    right. split; [done|]. apply Hkeys. set_solver.
  - destruct (Hkeys v) as [c Hc]; [set_solver|].
    rewrite Hc, (relax_color cm v c).
    apply IH; [lia | done |].
    intros w Hw. assert (is_Some (cm !! w)) by (apply Hkeys; set_solver).
    case_decide; [|done]. apply lookup_insert_is_Some.
    destruct (decide (v = w)); auto.
Qed.
End FrameFacts.

Lemma frames_add a b g g' :
  AnimationLoop.frames a g = (g', AnimationLoop.Returns) →
  AnimationLoop.frames (a + b) g = AnimationLoop.frames b g'.
Proof.
  intros Ha. induction b as [|b IH]; [by rewrite Nat.add_0_r|].
  rewrite Nat.add_succ_r. simpl. by rewrite IH.
Qed.

(** The frames of the search take the events six at a time. *)
Lemma frames_batches k g evs t :
  AnimationLoop.dijkstra_gen g = Some (evs, t) →
  6 * k ≤ length evs → Forall in_progress (take (6 * k) evs) →
  (∀ v, Relax v ∈ take (6 * k) evs → is_Some (AnimationLoop.node_color_map g !! v)) →
  batches_spec k g evs t.
Proof.
  intros Hgen. unfold batches_spec.
  induction k as [|k IH]; intros Hlen Hprog Hkeys.
  - simpl. destruct g. simpl in *. by subst.
  - replace (6 * S k) with (6 * k + 6) in * by lia.
    rewrite <- (take_take_drop evs (6 * k) 6) in Hprog, Hkeys.
    apply Forall_app in Hprog as [Hprog1 Hprog2].
    cbn [AnimationLoop.frames]. rewrite IH; [|lia|done|intros v Hv; apply Hkeys; set_solver].
    unfold AnimationLoop.anim_step. cbn [AnimationLoop.searching AnimationLoop.dijkstra_gen
      AnimationLoop.node_color_map].
    rewrite anim_events_batch; [|rewrite length_drop; lia|done|].
    + rewrite <- paint_app, take_take_drop, drop_drop. done.
    + intros v Hv. apply paint_keys, Hkeys. set_solver.
Qed.

(** The ambulance on its way. *)
Lemma frames_ambulance cm n0 path k :
  AnimationLoop.frames k
    (AnimationLoop.Globals cm None (n0 :: path) 0 true 0 (Some n0))
  = (ambulance_at cm (n0 :: path) k, AnimationLoop.Returns).
Proof.
  set (route := n0 :: path). set (L := length route).
  assert (0 < L) as HL by (unfold L; simpl; lia).
  induction k as [|k IH].
  - simpl. unfold ambulance_at. rewrite decide_True by (fold L; lia). done.
  - cbn [AnimationLoop.frames]. rewrite IH. unfold ambulance_at. fold L.
    pose proof (Nat.div_mod_eq k 12) as Hdm.
    pose proof (Nat.mod_upper_bound k 12 ltac:(lia)) as Hmod.
    destruct (decide (k < 12 * L)) as [Hk|Hk].
    + unfold AnimationLoop.anim_step, AnimationLoop.move_ambulance,
        AnimationLoop.AMBULANCE_MOVE_FRAMES.
      cbn [AnimationLoop.dijkstra_gen AnimationLoop.ambulance_moving
           AnimationLoop.frames_since_path_found AnimationLoop.ambulance_index
           AnimationLoop.path_nodes AnimationLoop.node_color_map
           AnimationLoop.ambulance_annot].
      fold L. destruct (decide (12 ≤ S (k mod 12))) as [Hmove|Hstay].
      * assert (S k = 12 * S (k / 12) + 0) as Hnext by lia.
        destruct (decide (L ≤ S (k / 12))) as [Hend|Hon].
        -- rewrite decide_False by lia.
           assert (S (k / 12) = L) as -> by lia.
           repeat f_equal. unfold route at 1. rewrite last_lookup. f_equal. fold L. lia.
        -- rewrite decide_True by lia.
           rewrite <- (Nat.div_unique (S k) 12 (S (k / 12)) 0) by lia.
           rewrite <- (Nat.mod_unique (S k) 12 (S (k / 12)) 0) by lia.
           destruct (lookup_lt_is_Some_2 route (k / 12)) as [x ->]; [fold L; lia|].
           done.
      * assert (S k = 12 * (k / 12) + S (k mod 12)) as Hnext by lia.
        rewrite decide_True by lia.
        rewrite <- (Nat.div_unique (S k) 12 (k / 12) (S (k mod 12))) by lia.
        rewrite <- (Nat.mod_unique (S k) 12 (k / 12) (S (k mod 12))) by lia.
        done.
    + rewrite decide_False by lia. done.
Qed.

Lemma frames_idle cm path index annot k :
  AnimationLoop.frames k (AnimationLoop.Globals cm None path index false 0 annot)
  = (AnimationLoop.Globals cm None path index false 0 annot, AnimationLoop.Returns).
Proof. induction k as [|k IH]; [done|]. cbn [AnimationLoop.frames]. by rewrite IH. Qed.

(** *** What the trace relaxes *)

Section TraceFacts.
Variable W : edge_data → Z.
Variable G : Graph.
Variables start target : node.

Lemma relax_loop_track d u nbrs st st' evs r :
  relax_loop W G d u nbrs st = (st', evs, r) →
  (∀ v, is_Some (dist st' !! v) → is_Some (dist st !! v)) ∧
  (∀ e, e ∈ pq st → e ∈ pq st') ∧
  (∀ v, Relax v ∈ evs → is_Some (dist st !! v) ∧ ∃ d', (d', v) ∈ pq st').
Proof.
  revert st st' evs r. induction nbrs as [|v rest IH]; intros st st' evs r; simpl.
  { intros [= <- <- <-]. split; [done|]. split; [done|]. by intros v ?%elem_of_nil. }
  destruct (relax_one W G d u v st) as [[st1 e1] r1] eqn:H1.
  assert ((∀ x, is_Some (dist st1 !! x) → is_Some (dist st !! x)) ∧
          (∀ e, e ∈ pq st → e ∈ pq st1) ∧
          (∀ x, Relax x ∈ e1 → is_Some (dist st !! x) ∧ ∃ d', (d', x) ∈ pq st1))
    as (Hk1 & Hq1 & Hr1).
  { apply relax_one_cases in H1
      as [(_ & -> & -> & _)|[(dv & Hdv & _ & -> & -> & _)|(dv & _ & _ & -> & -> & _)]].
    - split; [done|]. split; [done|]. by intros x ?%elem_of_nil.
    - simpl. split; [|split].
      + intros x [->|[_ Hx]]%lookup_insert_is_Some; [by eexists | done].
      + intros e He. by right.
      + intros x [= ->]%list_elem_of_singleton. split; [by eexists|].
        eexists. by left.
    - split; [done|]. split; [done|]. by intros x ?%elem_of_nil. }
  destruct r1 as [e|].
  - intros [= <- <- <-]. done.
  - destruct (relax_loop W G d u rest st1) as [[st2 e2] r2] eqn:H2.
    intros [= <- <- <-]. destruct (IH _ _ _ _ H2) as (Hk2 & Hq2 & Hr2).
    split; [by intros x ?%Hk2%Hk1|]. split; [by intros e ?%Hq1%Hq2|].
    intros x [Hx|Hx]%elem_of_app.
    + destruct (Hr1 x Hx) as (Hkey & d' & Hd'). split; [done|]. exists d'. by apply Hq2.
    + destruct (Hr2 x Hx) as (Hkey & d' & Hd'). split; [by apply Hk1|]. by exists d'.
Qed.

(** One turn of the loop: keys of [dist] are not added, an entry of the
    queue stays or its node is settled, and a relaxed node has a key and an
    entry. *)
Lemma step_track st :
  match step W G start target st with
  | Continue evs st' =>
      (∀ v, is_Some (dist st' !! v) → is_Some (dist st !! v)) ∧
      (∀ d x, (d, x) ∈ pq st → x ∈ seen st' ∨ (d, x) ∈ pq st') ∧
      (∀ x, x ∈ seen st → x ∈ seen st') ∧
      (∀ v, Relax v ∈ evs → is_Some (dist st !! v) ∧ ∃ d, (d, v) ∈ pq st')
  | Stop evs _ _ =>
      (∀ v, Relax v ∈ evs → is_Some (dist st !! v)) ∧
      evs ≠ [] ∧ Forall in_progress (removelast evs)
  end.
Proof.
  unfold step. destruct (heappop (pq st)) as [[[d u] pq']|] eqn:Hpop.
  2:{ split; [|split; [done | constructor]].
      by intros v [=]%list_elem_of_singleton. }
  apply heappop_Some in Hpop as (Hin & -> & _).
  assert (∀ d' x, (d', x) ∈ pq st → x = u ∨ (d', x) ∈ remove_first (d, u) (pq st))
    as Hrest.
  { intros d' x Hx. destruct (decide ((d', x) = (d, u))) as [[= _ ->]|Hne]; [by left|].
    right. by apply remove_first_other. }
  case_decide as Hseen.
  { simpl. split; [done|]. split; [|split; [done | by intros v ?%elem_of_nil]].
    intros d' x Hx. destruct (Hrest d' x Hx) as [->|?]; [by left | by right]. }
  case_decide as Htgt.
  { destruct (reconstruct _ _ _ _).
    - split; [|split; [done | repeat constructor]].
      intros v [[=]|[[=]|[]%elem_of_nil]%elem_of_cons]%elem_of_cons.
    - split; [|split; [done | constructor]].
      by intros v [=]%list_elem_of_singleton. }
  destruct (neighbors G u) as [nbrs|].
  2:{ split; [|split; [done | constructor]].
      by intros v [=]%list_elem_of_singleton. }
  destruct (relax_loop _ _ _ _ _ _) as [[st2 evs] [e|]] eqn:Hloop.
  - pose proof (relax_loop_frame _ _ _ _ _ _ _ _ _ Hloop) as (_ & _ & _ & Hprog).
    apply relax_loop_track in Hloop as (_ & _ & Hrel).
    split; [|split; [done|]].
    + intros v [[=]|Hv]%elem_of_cons. by destruct (Hrel v Hv).
    + rewrite removelast_firstn_len. apply Forall_take. by constructor.
  - pose proof (relax_loop_frame _ _ _ _ _ _ _ _ _ Hloop) as (Hseen2 & _).
    apply relax_loop_track in Hloop as (Hkeys & Hpq & Hrel). simpl in *.
    split; [done|]. split; [|split].
    + intros d' x Hx. rewrite Hseen2.
      destruct (Hrest d' x Hx) as [->|?]; [left; set_solver | right; by apply Hpq].
    + intros x Hx. rewrite Hseen2. set_solver.
    + intros v [[=]|Hv]%elem_of_cons. by apply Hrel.
Qed.

(** A relaxed node has a key in [dist] from the start. *)
Lemma run_relax_keys fuel st v :
  Relax v ∈ (run W G start target fuel st).1.1 → is_Some (dist st !! v).
Proof.
  revert st. induction fuel as [|fuel IH]; intros st; simpl;
    [by intros ?%elem_of_nil|].
  pose proof (step_track st) as Hstep.
  destruct (step W G start target st) as [e1 st1|e1 t1 st1].
  - destruct Hstep as (Hkeys & _ & _ & Hrel).
    specialize (IH st1).
    destruct (run W G start target fuel st1) as [[e2 t2] st2]. simpl in *.
    intros [Hv|Hv]%elem_of_app; [by destruct (Hrel v Hv) | by apply Hkeys, IH].
  - destruct Hstep as (Hrel & _). simpl. apply Hrel.
Qed.

(** A relaxed node is settled or waits in the queue. *)
Lemma steps_track st pre st' :
  steps W G start target st pre st' →
  (∀ d x, (d, x) ∈ pq st → x ∈ seen st' ∨ (d, x) ∈ pq st') ∧
  (∀ x, x ∈ seen st → x ∈ seen st') ∧
  (∀ v, Relax v ∈ pre → v ∈ seen st' ∨ ∃ d, (d, v) ∈ pq st').
Proof.
  induction 1 as [st|st evs st1 e1 st2 _ (IHq & IHs & IHr) Hstep].
  { split; [by right|]. split; [done|]. by intros v ?%elem_of_nil. }
  pose proof (step_track st1) as Htrack. rewrite Hstep in Htrack.
  destruct Htrack as (_ & Hq & Hs & Hr).
  split; [|split].
  - intros d x Hx. destruct (IHq d x Hx) as [?|?]; [left; by apply Hs | by apply Hq].
  - intros x Hx. by apply Hs, IHs.
  - intros v [Hv|Hv]%elem_of_app.
    + destruct (IHr v Hv) as [?|[d Hd]]; [left; by apply Hs|].
      destruct (Hq d v Hd) as [?|?]; [by left | right; by exists d].
    + right. by apply Hr.
Qed.

(** All the events of a trace but the last are [visit] or [relax]. *)
Lemma trace_in_progress :
  Forall in_progress
    (removelast (dijkstra_generator_with W G start target).1.1).
Proof.
  pose proof (generator_terminates W G start target) as Hterm.
  unfold dijkstra_generator_with in *.
  destruct (run W G start target (fuel_of G) (init_state G start))
    as [[evs t] st] eqn:Hrun.
  destruct (run_decompose _ _ _ _ _ _ _ _ _ Hrun Hterm)
    as (pre & stl & fin & Hsteps & Hfin & ->).
  pose proof (step_track stl) as Htrack. rewrite Hfin in Htrack.
  destruct Htrack as (_ & Hne & Hprog). simpl.
  rewrite removelast_app by done. apply Forall_app. split; [|done].
  by eapply steps_in_progress.
Qed.

Hypothesis Hwf : graph_wf G.
Hypothesis Hstart : is_Some (G !! start).

(** When the queue runs empty every relaxed node has been visited. *)
Lemma exhausted_relaxed_visited pre t st v :
  dijkstra_generator_with W G start target = (pre ++ [NoPath], t, st) →
  Relax v ∈ pre → v ∈ visited pre.
Proof.
  intros Htrace Hv.
  pose proof (generator_terminates W G start target) as Hterm.
  unfold dijkstra_generator_with in *. rewrite Htrace in Hterm.
  destruct (run_decompose _ _ _ _ _ _ _ _ _ Htrace Hterm)
    as (pre' & stl & fin & Hsteps & Hfin & Hevs).
  pose proof (steps_binv W G start target Hwf Hstart _ _ _
                (binv_init G start target Hwf Hstart) Hsteps) as Hbinv.
  destruct (step_stop_binv W G start target Hwf Hstart _ _ _ _ Hbinv Hfin)
    as [(Hempty & -> & _)|(d & pq' & _ & _ & _ & Hrec)].
  - apply app_inj_tail in Hevs as [-> _].
    destruct (steps_track _ _ _ Hsteps) as (_ & _ & Hrel).
    destruct (Hrel v Hv) as [Hseen|[d Hd]].
    + pose proof (steps_seen W G start target _ _ _ Hsteps) as Heq.
      rewrite Heq in Hseen. simpl in Hseen. set_solver.
    + rewrite Hempty in Hd. by apply elem_of_nil in Hd.
  - destruct (reconstruct _ _ _ _); destruct Hrec as [-> _].
    + change [Visit target; Done l] with ([Visit target] ++ [Done l]) in Hevs.
      rewrite app_assoc in Hevs. by apply app_inj_tail in Hevs as [_ [=]].
    + by apply app_inj_tail in Hevs as [_ [=]].
Qed.
End TraceFacts.

(** The nodes the search of [start_dijkstra_to] relaxes have a colour. *)
Lemma start_relax_keys (G : Graph) (base_node target_node v : node) :
  Relax v ∈ (Animation.dijkstra_generator G base_node target_node).1.1 →
  is_Some (AnimationLoop.node_color_map
             (AnimationLoop.start_dijkstra_to G base_node target_node) !! v).
Proof.
  intros Hv. apply run_relax_keys in Hv. simpl in Hv.
  cbn [AnimationLoop.start_dijkstra_to AnimationLoop.node_color_map].
  apply lookup_insert_is_Some in Hv.
  apply lookup_insert_is_Some.
  destruct (decide (target_node = v)); [by left|]. right. split; [done|].
  apply lookup_insert_is_Some.
  destruct Hv as [->|[Hne Hv]]; [by left|]. right. split; [done|].
  rewrite lookup_fmap in Hv. rewrite lookup_fmap.
  destruct (G !! v); simpl in *; [by eexists | by destruct Hv as [? ?]].
Qed.

(** X13.  While events are left, the frames of [anim_step] keep in step with
    the search [start_dijkstra_to] created: after [k] frames with
    [6 k] smaller than the number of events of the trace, no frame has
    raised, the colours are those of the first [6 k] events taken in order,
    the generator has the other events left, and the ambulance variables are
    untouched. *)
Theorem search_frames_in_step (G : Graph) (base_node target_node : node) (k : nat) :
  6 * k < length (Animation.dijkstra_generator G base_node target_node).1.1 →
  in_step_spec G base_node target_node k.
Proof.
  intros Hlen. unfold in_step_spec.
  pose proof (trace_in_progress Animation.edge_weight G base_node target_node) as Hprog.
  pose proof (start_relax_keys G base_node target_node) as Hkeys.
  unfold Animation.dijkstra_generator in *.
  destruct (dijkstra_generator_with Animation.edge_weight G base_node target_node)
    as [[evs t] st] eqn:Htrace.
  simpl in *. apply frames_batches.
  - unfold AnimationLoop.start_dijkstra_to, Animation.dijkstra_generator. simpl.
    by rewrite Htrace.
  - lia.
  - rewrite removelast_firstn_len in Hprog.
    replace (take (6 * k) evs)
      with (take (6 * k) (take (Init.Nat.pred (length evs)) evs))
      by (rewrite take_take; f_equal; lia).
    by apply Forall_take.
  - intros v Hv. apply Hkeys. apply elem_of_take in Hv as (i & Hi & _).
    by eapply list_elem_of_lookup_2.
Qed.

Lemma search_frames_in_step_witness : in_step_spec cycle4 1%Z 3%Z 1.
Proof. apply search_frames_in_step. vm_compute. lia. Defined.

(** The frames of a search whose trace is [pre] followed by a last event:
    after [length pre / 6] frames the events left are fewer than six of
    [pre], then the last one. *)
Lemma frames_before_last (G : Graph) (base_node target_node : node) pre fin t st :
  dijkstra_generator_with Animation.edge_weight G base_node target_node
    = (pre ++ [fin], t, st) →
  Forall in_progress pre →
  let g0 := AnimationLoop.start_dijkstra_to G base_node target_node in
  let q := length pre / 6 in
  AnimationLoop.frames q g0
  = (AnimationLoop.searching g0
       (paint (take (6 * q) pre) (AnimationLoop.node_color_map g0))
       (Some (drop (6 * q) pre ++ [fin], t)),
     AnimationLoop.Returns) ∧
  length (drop (6 * q) pre) < 6 ∧
  Forall in_progress (drop (6 * q) pre) ∧
  ∀ v, Relax v ∈ pre → is_Some (AnimationLoop.node_color_map g0 !! v).
Proof.
  intros Htrace Hprog g0 q.
  pose proof (Nat.div_mod_eq (length pre) 6) as Hdm.
  pose proof (Nat.mod_upper_bound (length pre) 6 ltac:(lia)) as Hmod.
  fold q in Hdm.
  assert (∀ v, Relax v ∈ pre → is_Some (AnimationLoop.node_color_map g0 !! v))
    as Hkeys.
  { intros v Hv. apply start_relax_keys. unfold Animation.dijkstra_generator.
    rewrite Htrace. simpl. set_solver. }
  split; [|split; [rewrite length_drop; lia|split; [by apply Forall_drop | done]]].
  pose proof (frames_batches q g0 (pre ++ [fin]) t) as Hb. unfold batches_spec in Hb.
  rewrite take_app_le, drop_app_le in Hb by lia. apply Hb.
  - unfold g0, AnimationLoop.start_dijkstra_to, Animation.dijkstra_generator.
    by rewrite Htrace.
  - rewrite length_app. lia.
  - by apply Forall_take.
  - intros v Hv. apply Hkeys. apply elem_of_take in Hv as (i & Hi & _).
    by eapply list_elem_of_lookup_2.
Qed.

(** X14.  A click on a target other than the base that can be reached, on a
    graph with non-negative lengths, whatever was going on before the click:
    after the frames of the search the path found is
    a shortest route from the base to the target, its nodes have the path
    colour, and the ambulance goes along it: [k] frames later it is drawn at
    node [k / 12] of the path, and from [12 * len(path)] frames on it has
    stopped on the target.  No frame raises. *)
Theorem animation_drives_to_target (G : Graph) (base_node target_node : node)
    (g : AnimationLoop.globals) :
  graph_wf G → is_Some (G !! base_node) → nonneg_lengths G →
  target_node ≠ base_node →
  reachable G base_node target_node →
  drive_spec G base_node target_node g.
Proof.
  intros Hwf Hbase Hnn Hne Hreach.
  assert (∀ u v, adjacent G u v → (0 ≤ weight Animation.edge_weight G u v)%Z) as Hnonneg.
  { intros u v _. apply weight_nonneg; [apply animation_weight_nonneg | done]. }
  destruct (done_shortest Animation.edge_weight G base_node target_node
              Hwf Hbase Hnonneg Hreach)
    as (pre & path & st & Htrace & Hroute & Hmin).
  pose proof (trace_in_progress Animation.edge_weight G base_node target_node) as Hprog.
  rewrite Htrace in Hprog. simpl in Hprog.
  change [Visit target_node; Done path]
    with ([Visit target_node] ++ [Done path]) in Htrace, Hprog.
  rewrite app_assoc in Htrace, Hprog.
  rewrite removelast_last in Hprog.
  set (pre1 := pre ++ [Visit target_node]) in *.
  destruct (frames_before_last G base_node target_node pre1 (Done path) _ _
              Htrace Hprog) as (Hframes & Hshort & Hrest & Hkeys).
  set (g0 := AnimationLoop.start_dijkstra_to G base_node target_node) in *.
  set (q := length pre1 / 6) in *.
  destruct path as [|n0 path]; [by destruct Hroute as [[=] _]|].
  set (cm := AnimationLoop.color_path
               (paint pre1 (AnimationLoop.node_color_map g0)) (n0 :: path)).
  assert (AnimationLoop.frames (S q) g0
          = (AnimationLoop.Globals cm None (n0 :: path) 0 true 0 (Some n0),
             AnimationLoop.Returns)) as Hfound.
  { cbn [AnimationLoop.frames]. rewrite Hframes.
    unfold AnimationLoop.anim_step.
    cbn [AnimationLoop.searching AnimationLoop.dijkstra_gen
         AnimationLoop.node_color_map].
    rewrite anim_events_done; [|done|done|].
    - unfold cm. by rewrite <- paint_app, take_drop.
    - intros v Hv. apply paint_keys, Hkeys.
      rewrite <- (take_drop (6 * q) pre1). apply elem_of_app. by right. }
  exists (S q), (n0 :: path), cm.
  split; [done|]. split; [done|]. split; [by apply color_path_elem|].
  intros k. unfold AnimationLoop.on_click. rewrite decide_False by done.
  rewrite (frames_add _ _ _ _ Hfound). apply frames_ambulance.
Qed.

Lemma animation_drives_to_target_witness :
  drive_spec cycle4 1%Z 3%Z (AnimationLoop.start_dijkstra_to cycle4 1%Z 2%Z).
Proof.
  apply animation_drives_to_target;
    [apply cycle4_wf | by eexists | apply cycle4_nonneg | done | apply cycle4_reachable].
Defined.

(** X15.  A click on a target that cannot be reached, on a graph with
    non-negative lengths, whatever was going on before the click: after the
    frames of the search every later frame
    returns and changes nothing, the search is over, no ambulance is drawn
    or moving, the nodes reachable from the base have the visit colour, and
    the other nodes of the graph keep the colour [start_dijkstra_to] gave
    them (the target its own, the rest the default one). *)
Theorem animation_without_route (G : Graph) (base_node target_node : node)
    (g : AnimationLoop.globals) :
  graph_wf G → is_Some (G !! base_node) → nonneg_lengths G →
  ¬ reachable G base_node target_node →
  no_route_spec G base_node target_node g.
Proof.
  intros Hwf Hbase Hnn Hunreach.
  assert (target_node ≠ base_node) as Hne by (intros ->; apply Hunreach, rtc_refl).
  assert (∀ u v, adjacent G u v → (0 ≤ weight Animation.edge_weight G u v)%Z) as Hnonneg.
  { intros u v _. apply weight_nonneg; [apply animation_weight_nonneg | done]. }
  destruct (unreachable_no_path Animation.edge_weight G base_node target_node
              Hwf Hbase Hunreach) as (pre & st & Htrace & Hprog).
  pose proof (generator_explores Animation.edge_weight G base_node target_node
                Hwf Hbase Hnonneg) as [Hsound Hcomplete].
  rewrite Htrace in Hsound, Hcomplete. simpl in Hsound, Hcomplete.
  rewrite visited_app in Hsound, Hcomplete.
  change (visited [NoPath]) with (@nil node) in Hsound, Hcomplete.
  rewrite app_nil_r in Hsound, Hcomplete.
  destruct (frames_before_last G base_node target_node pre NoPath _ _
              Htrace Hprog) as (Hframes & Hshort & Hrest & Hkeys).
  set (g0 := AnimationLoop.start_dijkstra_to G base_node target_node) in *.
  set (q := length pre / 6) in *.
  set (cm := paint pre (AnimationLoop.node_color_map g0)).
  assert (AnimationLoop.frames (S q) g0
          = (AnimationLoop.Globals cm None [] 0 false 0 None,
             AnimationLoop.Returns)) as Hover.
  { cbn [AnimationLoop.frames]. rewrite Hframes.
    unfold AnimationLoop.anim_step.
    cbn [AnimationLoop.searching AnimationLoop.dijkstra_gen
         AnimationLoop.node_color_map].
    rewrite anim_events_no_path; [|done|done|].
    - unfold cm. by rewrite <- paint_app, take_drop.
    - intros v Hv. apply paint_keys, Hkeys.
      rewrite <- (take_drop (6 * q) pre). apply elem_of_app. by right. }
  exists (S q), cm. split; [|split].
  - intros n Hn. apply paint_visited. by apply Hcomplete.
  - intros n Hn HnG. unfold cm. rewrite paint_untouched.
    + unfold g0. cbn [AnimationLoop.start_dijkstra_to AnimationLoop.node_color_map].
      case_decide as Htgt; [subst; by rewrite lookup_insert_eq|].
      rewrite lookup_insert_ne by done.
      rewrite lookup_insert_ne by (intros <-; apply Hn, rtc_refl).
      rewrite lookup_fmap. by destruct HnG as [l ->].
    + intros Hv. by apply Hn, Hsound.
    + intros Hr. apply Hn, Hsound.
      by eapply (exhausted_relaxed_visited Animation.edge_weight G base_node
                   target_node Hwf Hbase).
  - intros k. unfold AnimationLoop.on_click. rewrite decide_False by done.
    rewrite (frames_add _ _ _ _ Hover). apply frames_idle.
Qed.

Lemma islands_nonneg : nonneg_lengths islands.
Proof.
  intros u l v data Hu Hin. apply elem_of_list_to_map_2 in Hu.
  assert (data = Keyed {[ 0%Z := Some 4%Z ]}) as ->.
  { repeat (apply elem_of_cons in Hu as [[= -> ->] | Hu]);
      [..|by apply elem_of_nil in Hu];
      repeat (apply elem_of_cons in Hin as [[= -> ->] | Hin]);
      (by apply elem_of_nil in Hin) || done. }
  intros k x Hk. apply lookup_singleton_Some in Hk as [_ [= <-]]. lia.
Qed.

Lemma animation_without_route_witness :
  no_route_spec islands 1%Z 3%Z (AnimationLoop.start_dijkstra_to islands 1%Z 2%Z).
Proof.
  apply animation_without_route;
    [apply islands_wf | by eexists | apply islands_nonneg | apply islands_unreachable].
Defined.
